(** * Thali notification server, round protocol, quit signal and peer identifier

    A shallow embedding of
    - [thali/NextGeneration/notification/thaliNotificationServer.js],
    - the round protocol helpers of
      [test/www/jxcore/bv_tests/testThaliMobileNative.js]
      ([QuitSignal], [parseMessage], [createMessage], [validateRequest],
      [validateServerResponse], [clientSuccessConnect], [serverRound]),
    - [lib/ios/ThaliCore/ThaliCore/Core/PeerIdentifier.swift].

    JavaScript strings and Swift strings are modelled as [string] (a list of
    8-bit characters: the uuids, codes and error messages of the program are
    ASCII), Node [Buffer]s as [list byte], JavaScript objects used as
    dictionaries as [gmap string _], arrays as lists. *)

From Stdlib Require Import ZArith NArith List String Ascii Lia Bool DecimalString.
From Stdlib Require Import DecimalN.
From Stdlib.Strings Require Import Byte.
From stdpp Require Import gmap strings list.
Import ListNotations.
Open Scope string_scope.
Open Scope list_scope.

Definition Buffer := list byte.

(** ** Promises *)

Module Promise.

Definition Error := string.

Inductive State :=
| Pending
| Resolved
| Rejected (e : Error).

Inductive HandleCall :=
| CallResolve
| CallReject (e : Error).

(** Modelled from the spec: [../promiseQueue] (PromiseQueue.enqueue) is not
    among the sources.  "operation receives (resolve, reject) handles" and
    "public methods always resolve or reject exactly once": the promise is
    a cell that the first call of a handle settles; later calls of either
    handle leave it as it is.  [calls] records every call of a handle, in
    order, whether or not it had an effect. *)
Record Cell := { state : State; calls : list HandleCall }.

Definition fresh : Cell := {| state := Pending; calls := [] |}.

Definition settle (s : State) (c : Cell) : State :=
  match state c with
  | Pending => s
  | earlier => earlier
  end.

Definition resolve (c : Cell) : Cell :=
  {| state := settle Resolved c; calls := calls c ++ [CallResolve] |}.

Definition reject (e : Error) (c : Cell) : Cell :=
  {| state := settle (Rejected e) c; calls := calls c ++ [CallReject e] |}.

Definition settled (c : Cell) : bool :=
  match state c with
  | Pending => false
  | _ => true
  end.

End Promise.

(** ** thaliNotificationServer.js *)

Module NotificationServer.

Import Promise.

(** An element of [publicKeysToNotify]: a value whose [typeof] is not
    ['object'] (a string, a number, [undefined], ...), or a Buffer.  ([null],
    whose [length] cannot be read, is left out.) *)
Inductive PublicKey :=
| NotAnObject (shown : string)
| KeyBuffer (bytes : Buffer).

(** The argument of [start]: [Array.isArray] holds of [KeysArray] only. *)
Inductive PublicKeysArg :=
| NotAnArray
| KeysArray (keys : list PublicKey).

(** [typeof publicKey !== 'object' || publicKey.length === 0] *)
Definition malformed (publicKey : PublicKey) : bool :=
  match publicKey with
  | NotAnObject _ => true
  | KeyBuffer bytes => Nat.eqb (length bytes) 0
  end.

Definition NOTIFICATION_BEACON_PATH : string := "/NotificationBeacons".

Definition bad_public_keys : Error := "bad public keys".

Record Response := {
  status : Z;
  headers : list (string * string);
  body : option Buffer
}.

Section Server.

(** The ECDH object of the local device. *)
Variable ECDH : Type.

(** Modelled from the spec: [./thaliNotificationBeacons] is not among the
    sources.  [generatePreambleAndBeacons] returns the preamble and
    beacons as one Buffer, or throws ([inl]). *)
Variable generatePreambleAndBeacons :
  list PublicKey -> ECDH -> Z -> Error + Buffer.

(** The fields of a [ThaliNotificationServer] that [start], [stop] and the
    GET handler use; [_routerGets] counts the handlers registered on
    [_router] for [NOTIFICATION_BEACON_PATH], [None] is [null]. *)
Record Server := {
  _ecdhForLocalDevice : ECDH;
  _millisecondsUntilExpiration : Z;
  _firstStartCall : bool;
  _preambleAndBeacons : option Buffer;
  _routerGets : nat
}.

Definition new (ecdhForLocalDevice : ECDH)
    (millisecondsUntilExpiration : Z) : Server :=
  {| _ecdhForLocalDevice := ecdhForLocalDevice;
     _millisecondsUntilExpiration := millisecondsUntilExpiration;
     _firstStartCall := true;
     _preambleAndBeacons := None;
     _routerGets := 0 |}.

(** What one queued operation sees and changes: the server object, the
    promise that [enqueue] returned, the calls made to
    [ThaliMobile.startUpdateAdvertisingAndListening] and
    [ThaliMobile.stopAdvertisingAndListening], and the logger. *)
Record World := {
  self : Server;
  promise : Cell;
  refreshCalls : nat;
  stopCalls : nat;
  warnings : list Error
}.

Definition enqueued (srv : Server) : World :=
  {| self := srv; promise := fresh; refreshCalls := 0; stopCalls := 0;
     warnings := [] |}.

Definition resolveW (w : World) : World :=
  {| self := self w; promise := resolve (promise w);
     refreshCalls := refreshCalls w; stopCalls := stopCalls w;
     warnings := warnings w |}.

Definition rejectW (e : Error) (w : World) : World :=
  {| self := self w; promise := reject e (promise w);
     refreshCalls := refreshCalls w; stopCalls := stopCalls w;
     warnings := warnings w |}.

Definition warn (e : Error) (w : World) : World :=
  {| self := self w; promise := promise w;
     refreshCalls := refreshCalls w; stopCalls := stopCalls w;
     warnings := warnings w ++ [e] |}.

Definition withSelf (f : Server -> Server) (w : World) : World :=
  {| self := f (self w); promise := promise w;
     refreshCalls := refreshCalls w; stopCalls := stopCalls w;
     warnings := warnings w |}.

Definition setPreambleAndBeacons (b : option Buffer) (srv : Server)
    : Server :=
  {| _ecdhForLocalDevice := _ecdhForLocalDevice srv;
     _millisecondsUntilExpiration := _millisecondsUntilExpiration srv;
     _firstStartCall := _firstStartCall srv;
     _preambleAndBeacons := b;
     _routerGets := _routerGets srv |}.

(** [self._registerNotificationPath(); self._firstStartCall = false;] *)
Definition registerNotificationPath (srv : Server) : Server :=
  {| _ecdhForLocalDevice := _ecdhForLocalDevice srv;
     _millisecondsUntilExpiration := _millisecondsUntilExpiration srv;
     _firstStartCall := false;
     _preambleAndBeacons := _preambleAndBeacons srv;
     _routerGets := S (_routerGets srv) |}.

Definition callStartUpdateAdvertisingAndListening (w : World) : World :=
  {| self := self w; promise := promise w;
     refreshCalls := S (refreshCalls w); stopCalls := stopCalls w;
     warnings := warnings w |}.

Definition callStopAdvertisingAndListening (w : World) : World :=
  {| self := self w; promise := promise w;
     refreshCalls := refreshCalls w; stopCalls := S (stopCalls w);
     warnings := warnings w |}.

(** The callback given to [publicKeysToNotify.forEach]: its [return]
    leaves the callback, not the queued operation. *)
Definition checkPublicKey (w : World) (publicKey : PublicKey) : World :=
  if malformed publicKey then rejectW bad_public_keys w else w.

Definition notNull {A} (x : option A) : bool :=
  match x with
  | Some _ => true
  | None => false
  end.

(** The promise chain on the transport call:
    [.then(resolve).catch(function (error) { return reject(error); })],
    run once the transport call has settled ([None]: fulfilled,
    [Some error]: rejected). *)
Definition transportSettled (transport : option Error) (w : World)
    : World :=
  match transport with
  | None => resolveW w
  | Some error => rejectW error w
  end.

(** [ThaliNotificationServer.prototype.start]: the operation given to the
    promise queue, followed by the callbacks of the transport call.
    [transport] is how that call, when it is made, settles. *)
Definition start (publicKeysToNotify : PublicKeysArg)
    (transport : option Error) (srv : Server) : World :=
  let w := enqueued srv in
  let previousPreambleAndBeacons := _preambleAndBeacons (self w) in
  match publicKeysToNotify with
  | NotAnArray => rejectW bad_public_keys w
  | KeysArray keys =>
      let generated : World + World :=
        if (0 <? length keys)%nat then
          let w1 := fold_left checkPublicKey keys w in
          match generatePreambleAndBeacons keys
                  (_ecdhForLocalDevice (self w1))
                  (_millisecondsUntilExpiration (self w1)) with
          | inr blob =>
              inr (withSelf (setPreambleAndBeacons (Some blob)) w1)
          | inl error => inl (rejectW error (warn error w1))
          end
        else inr (withSelf (setPreambleAndBeacons None) w) in
      match generated with
      | inl w' => w'
      | inr w2 =>
          let w3 :=
            if _firstStartCall (self w2)
            then withSelf registerNotificationPath w2
            else w2 in
          if notNull (_preambleAndBeacons (self w3))
             || notNull previousPreambleAndBeacons
          then
            let w4 := callStartUpdateAdvertisingAndListening w3 in
            transportSettled transport (resolveW w4)
          else resolveW w3
      end
  end.

(** [ThaliNotificationServer.prototype.stop] *)
Definition stop (transport : option Error) (srv : Server) : World :=
  let w := withSelf (setPreambleAndBeacons None) (enqueued srv) in
  transportSettled transport (callStopAdvertisingAndListening w).

(** [getBeaconNotifications], the handler that
    [_registerNotificationPath] gives to [_router.get]. *)
Definition getBeaconNotifications (srv : Server) : Response :=
  match _preambleAndBeacons srv with
  | None => {| status := 204; headers := []; body := None |}
  | Some blob =>
      {| status := 200;
         headers := [("Content-Type", "application/octet-stream");
                     ("Cache-Control", "no-cache")];
         body := Some blob |}
  end.

(** A GET on [NOTIFICATION_BEACON_PATH]: answered by the handler once it
    is registered, not by this server before. *)
Definition GET (srv : Server) : option Response :=
  if (0 <? _routerGets srv)%nat
  then Some (getBeaconNotifications srv)
  else None.

End Server.

(** Modelled from the spec: [generatePreambleAndBeacons] of
    [./thaliNotificationBeacons] is not among the sources.  "Fails with
    InvalidKeyError if any recipient key is malformed (wrong length/type)":
    the generator throws when one of the keys is malformed. *)
Definition refusesMalformedKeys {ECDH : Type}
    (generate : list PublicKey -> ECDH -> Z -> Promise.Error + Buffer)
    : Prop :=
  forall keys ecdh ms,
    existsb malformed keys = true ->
    exists error, generate keys ecdh ms = inl error.

(** A generator of beacons for the examples: it refuses malformed keys and
    returns one byte otherwise. *)
Definition strictGenerator (keys : list PublicKey) (_ : unit) (_ : Z)
    : Error + Buffer :=
  if existsb malformed keys then inl "InvalidKeyError" else inr [x01].

(** The server of the examples, as its constructor leaves it. *)
Definition fresh_server : Server unit := new unit tt 90000.

End NotificationServer.

(** ** QuitSignal (testThaliMobileNative.js) *)

Module QuitSignal.

(** The identity of a JavaScript object. *)
Definition ref := nat.

(** The values that reach a [QuitSignal] as a timer handle: what
    [setTimeout] returned (an object in Node, a number elsewhere) or
    anything else a caller passes. *)
Inductive JsValue :=
| JsNull
| JsNumber (n : Z)
| JsObject (r : ref).

(** [===] *)
Definition strictEquals (a b : JsValue) : bool :=
  match a, b with
  | JsNull, JsNull => true
  | JsNumber x, JsNumber y => Z.eqb x y
  | JsObject r, JsObject s => Nat.eqb r s
  | _, _ => false
  end.

(** A function value, named by a number; calling it is an [Event]. *)
Definition Callback := nat.

(** [{ timeOut: timeOut, successCb: successCb }] *)
Record TimeOutStruct := { timeOut : JsValue; successCb : Callback }.

Inductive Event :=
| ClearTimeout (handle : JsValue)
| SuccessCb (cb : Callback) (err result : JsValue)
| CancelCall (cb : Callback).

(** [timeOuts] is an array of objects: a slot holds the reference of the
    object literal that [addTimeout] created together with its two fields
    (they are never written again), or is a hole left by [delete]. *)
Record QuitSignal := {
  raised : bool;
  timeOuts : list (option (ref * TimeOutStruct));
  cancelCalls : list Callback
}.

(** [new QuitSignal()] *)
Definition new : QuitSignal :=
  {| raised := false; timeOuts := []; cancelCalls := [] |}.

(** The signal, the next free object reference, and the calls made so far
    to [clearTimeout] and to the registered callbacks. *)
Record Heap := { signal : QuitSignal; nextRef : ref; events : list Event }.

Inductive Result (A : Type) :=
| Returned (a : A)
| AssertionError (message : string).
Arguments Returned {A} a.
Arguments AssertionError {A} message.

Definition M (A : Type) : Type := Heap -> Result A * Heap.

#[global] Instance M_ret : MRet M := fun A a h => (Returned a, h).

#[global] Instance M_bind : MBind M := fun A B f m h =>
  match m h with
  | (Returned a, h') => f a h'
  | (AssertionError msg, h') => (AssertionError msg, h')
  end.

(** [assert(value, message)] *)
Definition assert (value : bool) (message : string) : M unit :=
  fun h => if value then (Returned tt, h) else (AssertionError message, h).

Definition this : M QuitSignal := fun h => (Returned (signal h), h).

Definition update (f : QuitSignal -> QuitSignal) : M unit :=
  fun h => (Returned tt,
            {| signal := f (signal h); nextRef := nextRef h;
               events := events h |}).

(** Evaluation of an object literal: a reference no value holds yet. *)
Definition allocate : M ref :=
  fun h => (Returned (nextRef h),
            {| signal := signal h; nextRef := S (nextRef h);
               events := events h |}).

Definition emit (e : Event) : M unit :=
  fun h => (Returned tt,
            {| signal := signal h; nextRef := nextRef h;
               events := events h ++ [e] |}).

Fixpoint forEach {A} (l : list A) (f : A -> M unit) : M unit :=
  match l with
  | [] => mret tt
  | x :: l' => f x ;; forEach l' f
  end.

Definition addCancelCall (cancelCall : Callback) : M unit :=
  q ← this;
  assert (negb (raised q))
    "No calling addCancelCall after signal is raised" ;;
  update (fun q =>
    {| raised := raised q; timeOuts := timeOuts q;
       cancelCalls := cancelCalls q ++ [cancelCall] |}).

Definition addTimeout (timeOut : JsValue) (successCb : Callback) : M unit :=
  q ← this;
  assert (negb (raised q)) "No calling addTimeout after signal is raised" ;;
  r ← allocate;
  update (fun q =>
    {| raised := raised q;
       timeOuts := timeOuts q ++
         [Some (r, {| timeOut := timeOut; successCb := successCb |})];
       cancelCalls := cancelCalls q |}).

(** One round of the loop of [removeTimeout]: the slot is compared, as an
    object, with the argument, and deleted when they are the same value.
    [Object.keys] lists the slots that are not holes. *)
Definition removeIfSame (timeOut : JsValue)
    (slot : option (ref * TimeOutStruct)) : option (ref * TimeOutStruct) :=
  match slot with
  | Some (r, fields) =>
      if strictEquals (JsObject r) timeOut then None else Some (r, fields)
  | None => None
  end.

Definition removeTimeout (timeOut : JsValue) : M unit :=
  q ← this;
  assert (negb (raised q))
    "No calling removeTimeout after signal is raised" ;;
  update (fun q =>
    {| raised := raised q;
       timeOuts := map (removeIfSame timeOut) (timeOuts q);
       cancelCalls := cancelCalls q |}).

(** [Array.prototype.forEach] does not visit holes. *)
Definition visited (slots : list (option (ref * TimeOutStruct)))
    : list TimeOutStruct :=
  omap (fun slot => snd <$> slot) slots.

Definition raiseSignal : M unit :=
  q ← this;
  if raised q then mret tt
  else
    update (fun q =>
      {| raised := true; timeOuts := timeOuts q;
         cancelCalls := cancelCalls q |}) ;;
    forEach (visited (timeOuts q)) (fun timeOutStruct =>
      emit (ClearTimeout (timeOut timeOutStruct)) ;;
      emit (SuccessCb (successCb timeOutStruct) JsNull JsNull)) ;;
    forEach (cancelCalls q) (fun cancelCall => emit (CancelCall cancelCall)).

(** [n] calls of [raiseSignal] in a row. *)
Fixpoint raiseSignalTimes (n : nat) : M unit :=
  match n with
  | O => mret tt
  | S n' => raiseSignal ;; raiseSignalTimes n'
  end.

(** The run of an operation on a heap. *)
Definition run {A} (m : M A) (h : Heap) : Result A * Heap := m h.

(** A call of one of the four methods, and a series of such calls, each
    made whether or not the one before threw. *)
Inductive Call :=
| AddCancelCall (cancelCall : Callback)
| AddTimeout (timeOut : JsValue) (successCb : Callback)
| RemoveTimeout (timeOut : JsValue)
| RaiseSignal.

Definition perform (call : Call) : M unit :=
  match call with
  | AddCancelCall cancelCall => addCancelCall cancelCall
  | AddTimeout timeOut successCb => addTimeout timeOut successCb
  | RemoveTimeout timeOut => removeTimeout timeOut
  | RaiseSignal => raiseSignal
  end.

Definition performAll (calls : list Call) (h : Heap) : Heap :=
  fold_left (fun h' call => snd (run (perform call) h')) calls h.

(** The calls that the first [raiseSignal] on a signal makes: for each
    registered timer [clearTimeout] and its callback with [(null, null)],
    then each cancel call. *)
Definition raiseEvents (q : QuitSignal) : list Event :=
  flat_map
    (fun timeOutStruct =>
       [ClearTimeout (timeOut timeOutStruct);
        SuccessCb (successCb timeOutStruct) JsNull JsNull])
    (visited (timeOuts q))
  ++ map CancelCall (cancelCalls q).

Definition withEvents (es : list Event) (h : Heap) : Heap :=
  {| signal := signal h; nextRef := nextRef h; events := events h ++ es |}.

Definition withSignal (q : QuitSignal) (h : Heap) : Heap :=
  {| signal := q; nextRef := nextRef h; events := events h |}.

(** A value that exists in a heap: an object has a reference given out
    before. *)
Definition allocated (h : Heap) (v : JsValue) : Prop :=
  match v with
  | JsObject r => r < nextRef h
  | _ => True
  end.

#[global] Instance JsValue_eq_dec : EqDecision JsValue.
Proof. solve_decision. Defined.

#[global] Instance Event_eq_dec : EqDecision Event.
Proof. solve_decision. Defined.

End QuitSignal.

(** ** Socket events (testThaliMobileNative.js) *)

Module ConnectionEvents.

(** The events of a connection that [connectionDiesClean] listens to. *)
Inductive SocketEvent :=
| SocketError
| SocketEnd
| SocketClose.

(** The variables of [connectionDiesClean], and the messages of the
    assertions that have failed in its handlers. *)
Record Flags := {
  errorFired : bool;
  endFired : bool;
  closedFired : bool;
  failed : list string
}.

(** [connectionDiesClean]: the variables as it leaves them. *)
Definition connectionDiesClean : Flags :=
  {| errorFired := false; endFired := false; closedFired := false;
     failed := [] |}.

Definition fail (message : string) (flags : Flags) : Flags :=
  {| errorFired := errorFired flags; endFired := endFired flags;
     closedFired := closedFired flags;
     failed := failed flags ++ [message] |}.

(** The handler of an event.  A failed assertion throws out of the
    handler, before any variable is set. *)
Definition handle (flags : Flags) (event : SocketEvent) : Flags :=
  match event with
  | SocketError =>
      if errorFired flags
      then fail "On error handle to a socket" flags
      else {| errorFired := true; endFired := endFired flags;
              closedFired := closedFired flags; failed := failed flags |}
  | SocketEnd =>
      if endFired flags
      then fail "One end handle to a socket" flags
      else if errorFired flags
      then fail "Should not get an end after error" flags
      else {| errorFired := errorFired flags; endFired := true;
              closedFired := closedFired flags; failed := failed flags |}
  | SocketClose =>
      if closedFired flags
      then fail "One close to a customer" flags
      else {| errorFired := errorFired flags; endFired := endFired flags;
              closedFired := true; failed := failed flags |}
  end.

(** The events of a connection, handled in their order. *)
Definition handleAll (events : list SocketEvent) : Flags :=
  fold_left handle events connectionDiesClean.

End ConnectionEvents.

(** ** The round protocol (testThaliMobileNative.js) *)

Module Participant.
(** An element of [t.participants]. *)
Record t := { uuid : string }.
End Participant.

Module Message.
(** What [parseMessage] returns. *)
Record t := { uuid : string; code : string; bulkData : Buffer }.
End Message.

Module RoundProtocol.

(** The test object [t], as far as the protocol reads it. *)
Record Test := { participants : list Participant.t }.

(** [Buffer.compare]: -1, 0 or 1, bytes compared as unsigned numbers and a
    proper prefix before the longer buffer. *)
Fixpoint Buffer_compare (buf1 buf2 : Buffer) : Z :=
  match buf1, buf2 with
  | [], [] => 0
  | [], _ :: _ => -1
  | _ :: _, [] => 1
  | x :: buf1', y :: buf2' =>
      match N.compare (Byte.to_N x) (Byte.to_N y) with
      | Lt => -1
      | Gt => 1
      | Eq => Buffer_compare buf1' buf2'
      end
  end.

(** [buf.slice(start, end)] for [0 <= start <= end]. *)
Definition slice (buf : Buffer) (start stop : nat) : Buffer :=
  firstn (stop - start) (skipn start buf).

(** [var bulkMessage = new Buffer(100000); bulkMessage.fill(1);] *)
Definition bulkMessage : Buffer := repeat x01 (N.to_nat 100000).

(** [protocolResult] *)
Inductive protocolResult :=
| WRONG_GEN
| WRONG_TEST
| SUCCESS
| WRONG_ME
| WRONG_SYNTAX.

(** The string each member of [protocolResult] stands for. *)
Definition protocolResult_code (r : protocolResult) : string :=
  match r with
  | WRONG_GEN => "0"
  | WRONG_TEST => "1"
  | SUCCESS => "2"
  | WRONG_ME => "3"
  | WRONG_SYNTAX => "4"
  end.

(** [validateResponse] *)
Inductive validateResponse :=
| FATAL
| NON_FATAL
| OK.

(** [roundNumber.toString()] *)
Definition toString (roundNumber : N) : string :=
  NilEmpty.string_of_uint (N.to_uint roundNumber).

Inductive Thrown (A : Type) :=
| Value (a : A)
| AssertionError (message : string).
Arguments Value {A} a.
Arguments AssertionError {A} message.

Section Tape.

(** [tape.uuid], the uuid of the local participant. *)
Variable tape_uuid : string.

Definition parseMessage (dataBuffer : Buffer) : Message.t :=
  {| Message.uuid :=
       string_of_list_byte (slice dataBuffer 0 (String.length tape_uuid));
     Message.code :=
       string_of_list_byte
         (slice dataBuffer (String.length tape_uuid)
            (String.length tape_uuid + 1));
     Message.bulkData := skipn (String.length tape_uuid + 1) dataBuffer |}.

Definition messageLength : nat :=
  String.length tape_uuid + 1 + length bulkMessage.

Definition createMessage (code : string) : Thrown Buffer :=
  let message :=
    list_byte_of_string tape_uuid ++ list_byte_of_string code
      ++ bulkMessage in
  if Nat.eqb (length message) messageLength
  then Value message
  else AssertionError "Right size message".

Fixpoint peerInList (l : list Participant.t) (uuid : string) : bool :=
  match l with
  | [] => false
  | p :: l' =>
      if String.eqb (Participant.uuid p) uuid then true
      else peerInList l' uuid
  end.

Definition peerInTestList (t : Test) (uuid : string) : bool :=
  peerInList (participants t) uuid.

Definition validateServerResponse (t : Test) (serverResponse : Message.t)
    : validateResponse :=
  if negb (peerInTestList t (Message.uuid serverResponse)) then NON_FATAL
  else if negb (Buffer_compare bulkMessage
                  (Message.bulkData serverResponse) =? 0)%Z
  then FATAL
  else
    let code := Message.code serverResponse in
    if String.eqb code (protocolResult_code WRONG_ME)
       || String.eqb code (protocolResult_code WRONG_GEN)
    then NON_FATAL
    else if String.eqb code (protocolResult_code WRONG_TEST)
            || String.eqb code (protocolResult_code WRONG_SYNTAX)
    then FATAL
    else if String.eqb code (protocolResult_code SUCCESS) then OK
    else FATAL.

(** What the client does with its connection. *)
Inductive ConnectionCall :=
| Destroy
| End.

(** [new Error(message)] with its [fatal] field set. *)
Record ClientError := { message : string; fatal : bool }.

(** The [then] callback of [clientSuccessConnect]: the new
    [peersWeSucceededWith], how the promise of [clientSuccessConnect]
    settles ([inr tt]: resolved) and the calls on the connection. *)
Definition clientSuccessConnect_response (t : Test) (dataBuffer : Buffer)
    (peersWeSucceededWith : gmap string bool)
    : gmap string bool * (ClientError + unit) * list ConnectionCall :=
  let parsedMessage := parseMessage dataBuffer in
  match validateServerResponse t parsedMessage with
  | NON_FATAL =>
      (peersWeSucceededWith,
       inl {| message := "Got non-fatal error, see logs";
              fatal := false |},
       [Destroy])
  | OK =>
      (<[Message.uuid parsedMessage := true]> peersWeSucceededWith,
       inr tt, [End])
  | FATAL =>
      (peersWeSucceededWith,
       inl {| message := "Got fatal error, see logs"; fatal := true |},
       [Destroy])
  end.

Definition validateRequest (t : Test) (roundNumber : N)
    (parsedMessage : Message.t) : protocolResult :=
  if negb (peerInTestList t (Message.uuid parsedMessage)) then WRONG_TEST
  else if negb (Buffer_compare (Message.bulkData parsedMessage)
                  bulkMessage =? 0)%Z
  then WRONG_SYNTAX
  else if String.eqb (Message.uuid parsedMessage) tape_uuid then WRONG_ME
  else if negb (String.eqb (Message.code parsedMessage)
                  (toString roundNumber))
  then WRONG_GEN
  else SUCCESS.

(** *** serverRound *)

Definition Socket := nat.

Inductive SocketCall :=
| Write (data : Buffer)
| EndCall.

(** The state of one [serverRound]: the array, the promise it returned,
    the ['end'] listeners put on sockets (each with the
    [parsedMessage.uuid] of its closure), the callbacks of [socket.write]
    that have not run yet, the calls made on sockets so far, the log, and
    the variables of [connectionDiesClean] for the sockets that have
    emitted an event. *)
Record ServerRound := {
  validPeersForThisRound : list string;
  promise : Promise.Cell;
  endListeners : list (Socket * string);
  writeCallbacks : list Socket;
  socketCalls : list (Socket * SocketCall);
  debugLog : list string;
  connectionFlags : gmap Socket ConnectionEvents.Flags
}.

(** What a round reacts to: [getMessageByLength] on the socket of a
    connection settles; the callback of [socket.write] runs; a socket
    emits ['end'], ['error'] or ['close']; the quit signal runs the cancel
    call of the round; the native [startUpdateAdvertisingAndListening] of
    a later round answers. *)
Inductive Input :=
| MessageRead (socket : Socket) (dataBuffer : Buffer)
| MessageReadFailed (socket : Socket) (err : string)
| WriteFlushed (socket : Socket)
| SocketEnded (socket : Socket)
| SocketErrored (socket : Socket)
| SocketClosed (socket : Socket)
| CancelCalled
| StartUpdateAnswered (err : option string).

Definition serverRound_new : ServerRound :=
  {| validPeersForThisRound := []; promise := Promise.fresh;
     endListeners := []; writeCallbacks := []; socketCalls := [];
     debugLog := []; connectionFlags := ∅ |}.

Definition settleRound (f : Promise.Cell -> Promise.Cell)
    (st : ServerRound) : ServerRound :=
  {| validPeersForThisRound := validPeersForThisRound st;
     promise := f (promise st);
     endListeners := endListeners st;
     writeCallbacks := writeCallbacks st;
     socketCalls := socketCalls st;
     debugLog := debugLog st;
     connectionFlags := connectionFlags st |}.

Definition logDebug (line : string) (st : ServerRound) : ServerRound :=
  {| validPeersForThisRound := validPeersForThisRound st;
     promise := promise st;
     endListeners := endListeners st;
     writeCallbacks := writeCallbacks st;
     socketCalls := socketCalls st;
     debugLog := debugLog st ++ [line];
     connectionFlags := connectionFlags st |}.

(** [socket.write(data, callback)] *)
Definition socketWrite (socket : Socket) (data : Buffer)
    (st : ServerRound) : ServerRound :=
  {| validPeersForThisRound := validPeersForThisRound st;
     promise := promise st;
     endListeners := endListeners st;
     writeCallbacks := writeCallbacks st ++ [socket];
     socketCalls := socketCalls st ++ [(socket, Write data)];
     debugLog := debugLog st;
     connectionFlags := connectionFlags st |}.

(** The callback of [socket.write]: [socket.end()]. *)
Definition socketEnd (socket : Socket) (st : ServerRound) : ServerRound :=
  {| validPeersForThisRound := validPeersForThisRound st;
     promise := promise st;
     endListeners := endListeners st;
     writeCallbacks := remove Nat.eq_dec socket (writeCallbacks st);
     socketCalls := socketCalls st ++ [(socket, EndCall)];
     debugLog := debugLog st;
     connectionFlags := connectionFlags st |}.

(** [socket.on('end', ...)] *)
Definition onEnd (socket : Socket) (uuid : string) (st : ServerRound)
    : ServerRound :=
  {| validPeersForThisRound := validPeersForThisRound st;
     promise := promise st;
     endListeners := endListeners st ++ [(socket, uuid)];
     writeCallbacks := writeCallbacks st;
     socketCalls := socketCalls st;
     debugLog := debugLog st;
     connectionFlags := connectionFlags st |}.

(** The ['end'] listener of a validated connection. *)
Definition endListener (t : Test) (uuid : string) (st : ServerRound)
    : ServerRound :=
  let pushed :=
    {| validPeersForThisRound := validPeersForThisRound st ++ [uuid];
       promise := promise st;
       endListeners := endListeners st;
       writeCallbacks := writeCallbacks st;
       socketCalls := socketCalls st;
       debugLog := debugLog st;
       connectionFlags := connectionFlags st |} in
  if (Z.of_nat (length (validPeersForThisRound pushed))
      =? Z.of_nat (length (participants t)) - 1)%Z
  then settleRound Promise.resolve pushed
  else pushed.

(** The reason of [reject()]. *)
Definition undefined : Promise.Error := "undefined".

(** The variables of [connectionDiesClean] for a socket.
    [connectionListener] calls [connectionDiesClean(t, socket)] before
    anything else, so they are the variables it leaves until an event of
    the socket has changed them. *)
Definition flagsOf (st : ServerRound) (socket : Socket)
    : ConnectionEvents.Flags :=
  default ConnectionEvents.connectionDiesClean
    (connectionFlags st !! socket).

(** No assertion fails in the handler that [connectionDiesClean] has put
    on the socket for the event. *)
Definition diesClean (st : ServerRound) (socket : Socket)
    (event : ConnectionEvents.SocketEvent) : bool :=
  Nat.eqb
    (length (ConnectionEvents.failed
               (ConnectionEvents.handle (flagsOf st socket) event)))
    (length (ConnectionEvents.failed (flagsOf st socket))).

(** The handler of [connectionDiesClean] for an event of the socket. *)
Definition connectionHandler (socket : Socket)
    (event : ConnectionEvents.SocketEvent) (st : ServerRound)
    : ServerRound :=
  {| validPeersForThisRound := validPeersForThisRound st;
     promise := promise st;
     endListeners := endListeners st;
     writeCallbacks := writeCallbacks st;
     socketCalls := socketCalls st;
     debugLog := debugLog st;
     connectionFlags :=
       <[socket := ConnectionEvents.handle (flagsOf st socket) event]>
         (connectionFlags st) |}.

(** A step of the round.  The listeners of a socket are called in the
    order in which they were put on it, those of [connectionDiesClean]
    first: when an assertion fails in the handler of [connectionDiesClean]
    the error leaves [emit], and the ['end'] listeners that the round has
    put on the socket are not called. *)
Definition serverRound_step (t : Test) (roundNumber : N)
    (st : ServerRound) (input : Input) : ServerRound :=
  match input with
  | MessageRead socket dataBuffer =>
      let parsedMessage := parseMessage dataBuffer in
      let validationResult := validateRequest t roundNumber parsedMessage in
      match createMessage (protocolResult_code validationResult) with
      | AssertionError err =>
          logDebug ("Got a non-fatal error in server " +:+ err) st
      | Value response =>
          let st1 := socketWrite socket response st in
          match validationResult with
          | SUCCESS => onEnd socket (Message.uuid parsedMessage) st1
          | _ => st1
          end
      end
  | MessageReadFailed socket err =>
      logDebug ("Got a non-fatal error in server " +:+ err) st
  | WriteFlushed socket =>
      let line :=
        "serverRound: Message written, closing socket (calling socket.end)"
      in
      if existsb (Nat.eqb socket) (writeCallbacks st)
      then socketEnd socket (logDebug line st)
      else st
  | SocketEnded socket =>
      let st1 := connectionHandler socket ConnectionEvents.SocketEnd st in
      if diesClean st socket ConnectionEvents.SocketEnd
      then
        fold_left
          (fun st' listener =>
             if Nat.eqb (fst listener) socket
             then endListener t (snd listener) st'
             else st')
          (endListeners st1) st1
      else st1
  | SocketErrored socket =>
      connectionHandler socket ConnectionEvents.SocketError st
  | SocketClosed socket =>
      connectionHandler socket ConnectionEvents.SocketClose st
  | CancelCalled => settleRound (Promise.reject undefined) st
  | StartUpdateAnswered (Some err) => settleRound (Promise.reject err) st
  | StartUpdateAnswered None => st
  end.

Definition serverRound_run (t : Test) (roundNumber : N)
    (inputs : list Input) : ServerRound :=
  fold_left (serverRound_step t roundNumber) inputs serverRound_new.

End Tape.

End RoundProtocol.

(** ** PeerIdentifier.swift *)

Module PeerIdentifier.

(** [Int] is a 64-bit signed integer; [+] traps when the result does not
    fit. *)
Definition Int_max : Z := 9223372036854775807.
Definition Int_min : Z := -9223372036854775808.

Inductive PeerIdentifierError :=
| WrongDataFormat.

Record PeerIdentifier := { uuid : string; generation : Z }.

(** [init()], given the string of the fresh [NSUUID]. *)
Definition init (UUIDString : string) : PeerIdentifier :=
  {| uuid := UUIDString; generation := 0 |}.

(** [characters.split(isSeparator)], with the default arguments: no bound
    on the number of splits, empty subsequences omitted.  [subSequence]
    holds the characters read since the last separator. *)
Fixpoint splitFrom (isSeparator : ascii -> bool) (subSequence rest : string)
    : list string :=
  match rest with
  | EmptyString =>
      match subSequence with
      | EmptyString => []
      | _ => [subSequence]
      end
  | String c rest' =>
      if isSeparator c then
        match subSequence with
        | EmptyString => splitFrom isSeparator EmptyString rest'
        | _ => subSequence :: splitFrom isSeparator EmptyString rest'
        end
      else splitFrom isSeparator (subSequence +:+ String c EmptyString) rest'
  end.

Definition split (isSeparator : ascii -> bool) (s : string) : list string :=
  splitFrom isSeparator EmptyString s.

(** The value of a digit in radix 16: [0-9], [a-f], [A-F]. *)
Definition digitValue (c : ascii) : option N :=
  let n := N_of_ascii c in
  if (48 <=? n)%N && (n <=? 57)%N then Some (n - 48)%N
  else if (97 <=? n)%N && (n <=? 102)%N then Some (n - 87)%N
  else if (65 <=? n)%N && (n <=? 70)%N then Some (n - 55)%N
  else None.

Fixpoint parseDigits (digits : string) (value : N) : option N :=
  match digits with
  | EmptyString => Some value
  | String c digits' =>
      match digitValue c with
      | Some d => parseDigits digits' (value * 16 + d)%N
      | None => None
      end
  end.

(** One or more digits. *)
Definition parseUnsigned (digits : string) : option N :=
  match digits with
  | EmptyString => None
  | _ => parseDigits digits 0%N
  end.

(** [Int(text, radix: 16)]: an optional sign, then one or more digits;
    [nil] when the text has another form or the value is not an [Int]. *)
Definition Int_radix16 (text : string) : option Z :=
  let '(digits, hasMinus) :=
    match text with
    | String "-" rest => (rest, true)
    | String "+" rest => (rest, false)
    | _ => (text, false)
    end in
  match parseUnsigned digits with
  | Some absValue =>
      let value := if hasMinus then (- Z.of_N absValue)%Z
                   else Z.of_N absValue in
      if (Int_min <=? value)%Z && (value <=? Int_max)%Z then Some value
      else None
  | None => None
  end.

(** The lower-case digit of a value below 16. *)
Definition digitChar (d : N) : ascii :=
  if (d <? 10)%N then ascii_of_N (48 + d) else ascii_of_N (87 + d).

(** The digits of [value] in radix 16 before [suffix]: at most [fuel] of
    them, the lowest one first computed. *)
Fixpoint toDigits (fuel : nat) (value : N) (suffix : string) : string :=
  match fuel with
  | O => suffix
  | S fuel' =>
      let suffix' := String (digitChar (value mod 16)) suffix in
      if (value / 16 =? 0)%N then suffix'
      else toDigits fuel' (value / 16) suffix'
  end.

(** [String(value, radix: 16)] for an [Int]: its magnitude has at most 16
    digits. *)
Definition String_radix16 (value : Z) : string :=
  if (value <? 0)%Z
  then String "-" (toDigits 16 (Z.to_N (- value)) EmptyString)
  else toDigits 16 (Z.to_N value) EmptyString.

(** [init(stringValue:)] *)
Definition init_stringValue (stringValue : string)
    : PeerIdentifierError + PeerIdentifier :=
  let parts := split (Ascii.eqb ":") stringValue in
  if negb (Nat.eqb (length parts) 2) then inl WrongDataFormat
  else
    match parts with
    | [part0; part1] =>
        match Int_radix16 part1 with
        | Some generation =>
            inr {| uuid := part0; generation := generation |}
        | None => inl WrongDataFormat
        end
    | _ => inl WrongDataFormat
    end.

(** [nextGenerationPeer()]; [None] when [generation + 1] overflows and the
    program stops. *)
Definition nextGenerationPeer (p : PeerIdentifier) : option PeerIdentifier :=
  if (generation p + 1 <=? Int_max)%Z
  then Some {| uuid := uuid p; generation := generation p + 1 |}
  else None.

(** [stringValue] *)
Definition stringValue (p : PeerIdentifier) : string :=
  uuid p +:+ ":" +:+ String_radix16 (generation p).

(** The string holds no [":"]. *)
Fixpoint noColon (s : string) : bool :=
  match s with
  | EmptyString => true
  | String c s' => negb (Ascii.eqb ":" c) && noColon s'
  end.

(** The string is made of lower-case digits of radix 16. *)
Fixpoint lowerHex (s : string) : bool :=
  match s with
  | EmptyString => true
  | String c s' =>
      match digitValue c with
      | Some d => Ascii.eqb c (digitChar d) && lowerHex s'
      | None => false
      end
  end.

End PeerIdentifier.

(** ** The validation rules, in the words of the specification *)

Module RoundSpec.

Import RoundProtocol.

(** The uuid is one of the participant set. *)
Definition participant (t : Test) (uuid : string) : Prop :=
  In uuid (map Participant.uuid (participants t)).

(** Server-side validation of a parsed message against the round number,
    the participant set and the local uuid: the five rules, each under the
    failure of the ones before it. *)
Inductive ServerValidation (t : Test) (roundNumber : N) (localUuid : string)
    (m : Message.t) : protocolResult -> Prop :=
| wrong_test_set :
    ~ participant t (Message.uuid m) ->
    ServerValidation t roundNumber localUuid m WRONG_TEST
| wrong_syntax :
    participant t (Message.uuid m) ->
    Message.bulkData m <> bulkMessage ->
    ServerValidation t roundNumber localUuid m WRONG_SYNTAX
| wrong_self_reference :
    participant t (Message.uuid m) ->
    Message.bulkData m = bulkMessage ->
    Message.uuid m = localUuid ->
    ServerValidation t roundNumber localUuid m WRONG_ME
| wrong_generation :
    participant t (Message.uuid m) ->
    Message.bulkData m = bulkMessage ->
    Message.uuid m <> localUuid ->
    Message.code m <> toString roundNumber ->
    ServerValidation t roundNumber localUuid m WRONG_GEN
| success :
    participant t (Message.uuid m) ->
    Message.bulkData m = bulkMessage ->
    Message.uuid m <> localUuid ->
    Message.code m = toString roundNumber ->
    ServerValidation t roundNumber localUuid m SUCCESS.

(** Client-side interpretation of a parsed response. *)
Inductive ClientInterpretation (t : Test) (m : Message.t)
    : validateResponse -> Prop :=
| unrecognized_responder :
    ~ participant t (Message.uuid m) ->
    ClientInterpretation t m NON_FATAL
| payload_mismatch :
    participant t (Message.uuid m) ->
    Message.bulkData m <> bulkMessage ->
    ClientInterpretation t m FATAL
| retry_code :
    participant t (Message.uuid m) ->
    Message.bulkData m = bulkMessage ->
    Message.code m = protocolResult_code WRONG_ME \/
    Message.code m = protocolResult_code WRONG_GEN ->
    ClientInterpretation t m NON_FATAL
| abort_code :
    participant t (Message.uuid m) ->
    Message.bulkData m = bulkMessage ->
    Message.code m = protocolResult_code WRONG_TEST \/
    Message.code m = protocolResult_code WRONG_SYNTAX ->
    ClientInterpretation t m FATAL
| success_code :
    participant t (Message.uuid m) ->
    Message.bulkData m = bulkMessage ->
    Message.code m = protocolResult_code SUCCESS ->
    ClientInterpretation t m OK
| unrecognized_code :
    participant t (Message.uuid m) ->
    Message.bulkData m = bulkMessage ->
    (forall r, Message.code m <> protocolResult_code r) ->
    ClientInterpretation t m FATAL.

End RoundSpec.

(** ** The notification server over a series of operations *)

Module NotificationServerOps.

Import Promise NotificationServer.

(** A call of [start] or [stop], with how the transport call it may make
    settles.  The promise queue runs the operations one after the other,
    each on the server object the one before left. *)
Inductive Op :=
| Start (publicKeysToNotify : PublicKeysArg) (transport : option Error)
| Stop (transport : option Error).

Section Ops.

Variable ECDH : Type.
Variable generatePreambleAndBeacons :
  list PublicKey -> ECDH -> Z -> Error + Buffer.

Definition perform (op : Op) (srv : Server ECDH) : World ECDH :=
  match op with
  | Start publicKeysToNotify transport =>
      start ECDH generatePreambleAndBeacons publicKeysToNotify transport srv
  | Stop transport => stop ECDH transport srv
  end.

Definition performAll (ops : list Op) (srv : Server ECDH) : Server ECDH :=
  fold_left (fun srv' op => self ECDH (perform op srv')) ops srv.

(** The answers of the GET handler. *)
Definition noContent : Response :=
  {| status := 204; headers := []; body := None |}.


(** The handler is on the router once, and exactly when a [start] has gone
    through. *)
Definition registeredOnce (srv : Server ECDH) : Prop :=
  _routerGets ECDH srv = if _firstStartCall ECDH srv then 0 else 1.

End Ops.

End NotificationServerOps.

(** ** The quit signal over a series of calls *)

Module QuitSignalRuns.

Import QuitSignal.

(** A value that the callers of the signal hold: not an object, or an
    object with a reference below [base].  The object literals of
    [addTimeout] get their references from [base] on and are stored in
    [timeOuts] only. *)
Definition external (base : ref) (v : JsValue) : Prop :=
  match v with
  | JsObject r => r < base
  | _ => True
  end.

Definition externalCall (base : ref) (call : Call) : Prop :=
  match call with
  | AddTimeout timeOut _ => external base timeOut
  | RemoveTimeout timeOut => external base timeOut
  | _ => True
  end.

(** The timers and the cancel calls handed to [addTimeout] and
    [addCancelCall] before the first [raiseSignal] of a series. *)
Fixpoint registeredTimers (calls : list Call) : list TimeOutStruct :=
  match calls with
  | [] => []
  | AddTimeout timeOut successCb :: calls' =>
      {| timeOut := timeOut; successCb := successCb |}
      :: registeredTimers calls'
  | RaiseSignal :: _ => []
  | _ :: calls' => registeredTimers calls'
  end.

Fixpoint registeredCancelCalls (calls : list Call) : list Callback :=
  match calls with
  | [] => []
  | AddCancelCall cancelCall :: calls' =>
      cancelCall :: registeredCancelCalls calls'
  | RaiseSignal :: _ => []
  | _ :: calls' => registeredCancelCalls calls'
  end.

Definition isRaiseSignal (call : Call) : bool :=
  match call with
  | RaiseSignal => true
  | _ => false
  end.

(** A signal that is not raised, whose slots all hold an object literal of
    [addTimeout]. *)
Definition intact (base : ref) (h : Heap) : Prop :=
  raised (signal h) = false /\
  base <= nextRef h /\
  Forall (fun slot => exists r fields, slot = Some (r, fields) /\ base <= r)
    (timeOuts (signal h)).

(** A heap with a new signal. *)
Definition fresh (base : ref) : Heap :=
  {| signal := new; nextRef := base; events := [] |}.

(** The calls for timers and cancel calls at a raise. *)
Definition callsAtRaise (timers : list TimeOutStruct)
    (cancels : list Callback) : list Event :=
  flat_map
    (fun timeOutStruct =>
       [ClearTimeout (timeOut timeOutStruct);
        SuccessCb (successCb timeOutStruct) JsNull JsNull])
    timers
  ++ map CancelCall cancels.

End QuitSignalRuns.

(** ** The messages of an exchange between two peers *)

Module Handshake.

Import RoundProtocol.

(** What [createMessage] builds on a peer with uuid [uuid] for a code. *)
Definition message (uuid code : string) : Buffer :=
  list_byte_of_string uuid ++ list_byte_of_string code ++ bulkMessage.

(** The message a client in round [clientRound] sends:
    [createMessage(roundNumber.toString())]. *)
Definition request (client : string) (clientRound : N) : Buffer :=
  message client (toString clientRound).

(** The outcome a server with uuid [server], list [serverTest] and round
    [serverRound] computes for the request of a client, and the response it
    writes: [createMessage(validationResult)]. *)
Definition outcome (client server : string) (serverTest : Test)
    (clientRound serverRound : N) : protocolResult :=
  validateRequest server serverTest serverRound
    (parseMessage server (request client clientRound)).

Definition response (client server : string) (serverTest : Test)
    (clientRound serverRound : N) : Buffer :=
  message server
    (protocolResult_code
       (outcome client server serverTest clientRound serverRound)).

End Handshake.

(** ** Two peers for the examples *)

Module TwoPeersExample.

Import RoundProtocol.

Definition peers : Test :=
  {| participants := [{| Participant.uuid := "A" |};
                      {| Participant.uuid := "B" |}] |}.

Definition three : Test :=
  {| participants := [{| Participant.uuid := "A" |};
                      {| Participant.uuid := "B" |};
                      {| Participant.uuid := "C" |}] |}.

End TwoPeersExample.

(** ** Connections to a server round *)

Module ServerRoundRuns.

Import RoundProtocol.

(** A connection on [socket] whose message [dataBuffer] is read and whose
    peer then ends its side. *)
Definition connection (dataBuffer : Buffer) (socket : Socket) : list Input :=
  [MessageRead socket dataBuffer; SocketEnded socket].

(** The same message on each of the sockets, one connection after the
    other. *)
Definition connections (dataBuffer : Buffer) (sockets : list Socket)
    : list Input :=
  flat_map (connection dataBuffer) sockets.

End ServerRoundRuns.

(** ** The client round (testThaliMobileNative.js) *)

Module RoundClient.

Import RoundProtocol.

(** The truth value of [hashTable[key]] for a dictionary whose entries are
    booleans: an absent entry is [undefined].  (The uuids and peer
    identifiers are not names of properties that every object has.) *)
Definition truthy (entry : option bool) : bool :=
  match entry with
  | Some true => true
  | _ => false
  end.

(** The truth value of [smallest], [null] or a string: the empty string is
    false as [null] is. *)
Definition truthyString (smallest : option string) : bool :=
  match smallest with
  | None => false
  | Some EmptyString => false
  | Some _ => true
  end.

(** [findSmallestParticipant]; [<] on strings compares them character by
    character. *)
Definition findSmallestParticipant (participants : list Participant.t)
    : option string :=
  fold_left
    (fun smallest participant =>
       if negb (truthyString smallest) then Some (Participant.uuid participant)
       else
         match smallest with
         | Some s =>
             if String.ltb (Participant.uuid participant) s
             then Some (Participant.uuid participant)
             else Some s
         | None => Some (Participant.uuid participant)
         end)
    participants None.

(** A peer of a [peerAvailabilityChanged] event. *)
Record Peer := {
  peerIdentifier : string;
  peerAvailable : bool;
  generation : Z
}.

Section Tape.

Variable tape_uuid : string.

(** [verifyPeers] *)
Definition verifyPeers (t : Test) (hashTable : gmap string bool) : bool :=
  let notFoundParticipants :=
    List.filter
      (fun participant =>
         negb (truthy (hashTable !! Participant.uuid participant)))
      (participants t) in
  Nat.eqb (length notFoundParticipants) 1
  && match notFoundParticipants with
     | participant :: _ => String.eqb (Participant.uuid participant) tape_uuid
     | [] => false
     end.

(** The body of [peers.forEach] in the listener of [clientRound]: the
    dictionary [peersWeAreOrHaveResolved] and the peers for which
    [connectToPeer] has been called, in the order of the calls. *)
Definition considerPeer (state : gmap string bool * list Peer) (peer : Peer)
    : gmap string bool * list Peer :=
  let '(peersWeAreOrHaveResolved, connecting) := state in
  if truthy (peersWeAreOrHaveResolved !! peerIdentifier peer) then state
  else if negb (peerAvailable peer) then state
  else (<[peerIdentifier peer := true]> peersWeAreOrHaveResolved,
        connecting ++ [peer]).

(** The listener of [clientRound], up to the calls of [connectToPeer]. *)
Definition listener (t : Test) (peers : list Peer)
    (peersWeAreOrHaveResolved peersWeSucceededWith : gmap string bool)
    : gmap string bool * list Peer :=
  if verifyPeers t peersWeSucceededWith then (peersWeAreOrHaveResolved, [])
  else fold_left considerPeer peers (peersWeAreOrHaveResolved, []).

(** How the attempt on one peer went: [connectToPeer] rejected; it
    resolved when the quit signal was raised; or the message was sent,
    after which [connectToListenerSendMessageGetResponseLength] rejected
    or resolved with a buffer. *)
Inductive Attempt :=
| ConnectFailed (err : string)
| ConnectedAfterQuit
| ExchangeFailed (err : string)
| Responded (dataBuffer : Buffer).

(** [clientSuccessConnect] for an exchange that failed or brought a
    response.  An assertion error thrown by [createMessage] rejects the
    promise; it has no [fatal] field, which reads as false. *)
Definition clientSuccessConnect (t : Test) (roundNumber : N)
    (exchange : string + Buffer)
    (peersWeSucceededWith : gmap string bool)
    : gmap string bool * (ClientError + unit) * list ConnectionCall :=
  match createMessage tape_uuid (toString roundNumber) with
  | AssertionError err =>
      (peersWeSucceededWith, inl {| message := err; fatal := false |}, [])
  | Value clientMessage =>
      match exchange with
      | inr dataBuffer =>
          clientSuccessConnect_response tape_uuid t dataBuffer
            peersWeSucceededWith
      | inl err =>
          (peersWeSucceededWith, inl {| message := err; fatal := false |},
           [Destroy])
      end
  end.

(** The last [catch] of the chain on [connectToPeer]. *)
Definition recover (peer : Peer) (err : ClientError)
    (peersWeAreOrHaveResolved : gmap string bool)
    : gmap string bool * (ClientError + unit) :=
  if fatal err then (peersWeAreOrHaveResolved, inl err)
  else (delete (peerIdentifier peer) peersWeAreOrHaveResolved, inr tt).

(** The promise chain that the listener pushes for a peer: the two
    dictionaries afterwards and how the chain settles. *)
Definition peerPromise (t : Test) (roundNumber : N) (peer : Peer)
    (attempt : Attempt)
    (peersWeAreOrHaveResolved peersWeSucceededWith : gmap string bool)
    : gmap string bool * gmap string bool * (ClientError + unit) :=
  match attempt with
  | ConnectFailed err =>
      let '(resolved, result) :=
        recover peer {| message := err; fatal := false |}
          peersWeAreOrHaveResolved in
      (resolved, peersWeSucceededWith, result)
  | ConnectedAfterQuit =>
      (peersWeAreOrHaveResolved, peersWeSucceededWith, inr tt)
  | ExchangeFailed err =>
      match clientSuccessConnect t roundNumber (inl err)
              peersWeSucceededWith with
      | (succeeded, inr _, _) =>
          (peersWeAreOrHaveResolved, succeeded, inr tt)
      | (succeeded, inl e, _) =>
          let '(resolved, result) := recover peer e peersWeAreOrHaveResolved
          in (resolved, succeeded, result)
      end
  | Responded dataBuffer =>
      match clientSuccessConnect t roundNumber (inr dataBuffer)
              peersWeSucceededWith with
      | (succeeded, inr _, _) =>
          (peersWeAreOrHaveResolved, succeeded, inr tt)
      | (succeeded, inl e, _) =>
          let '(resolved, result) := recover peer e peersWeAreOrHaveResolved
          in (resolved, succeeded, result)
      end
  end.

End Tape.

End RoundClient.

(** ** Data shifting (testThaliMobileNative.js) *)

Module ShiftData.

(** [var dataSize = 4096;] *)
Definition dataSize : nat := 4096.

(** The variables of [shiftData] in the test 'Can shift large amounts of
    data', the arguments of the calls of [t.ok],
    each of which [t.end()] follows, and what is given to [sock.write].
    The data is ASCII text, as [toSend] is, so that [data.toString()] has
    one character for each byte. *)
Record State := {
  toRecv : string;
  done : bool;
  checked : list bool;
  written : list Buffer
}.

(** [shiftData(sock)], whose last statement is [sock.write(toSend)]. *)
Definition shiftData (toSend : string) : State :=
  {| toRecv := EmptyString; done := false; checked := [];
     written := [list_byte_of_string toSend] |}.

(** The handler of ['data'].  [remaining] is never negative, [toRecv]
    having at most [dataSize] characters. *)
Definition onData (toSend : string) (st : State) (data : Buffer) : State :=
  let remaining := dataSize - String.length (toRecv st) in
  let '(toRecv', data') :=
    if (length data <=? remaining)%nat
    then (toRecv st +:+ string_of_list_byte data, firstn 0 data)
    else (toRecv st +:+ string_of_list_byte (firstn remaining data),
          skipn remaining data) in
  if Nat.eqb (String.length toRecv') dataSize then
    let '(done', checked') :=
      if negb (done st)
      then (true, checked st ++ [String.eqb toSend toRecv'])
      else (done st, checked st) in
    {| toRecv := toRecv'; done := done'; checked := checked';
       written :=
         if negb (Nat.eqb (length data') 0) then written st ++ [data']
         else written st |}
  else
    {| toRecv := toRecv'; done := done st; checked := checked st;
       written := written st |}.

(** The chunks that arrive, handled in their order. *)
Definition receive (toSend : string) (chunks : list Buffer) : State :=
  fold_left (onData toSend) chunks (shiftData toSend).

End ShiftData.

(** ** Helpers of the notification test (testThaliNotification.js) *)

Module NotificationTest.

(** [var HELLO = 'Hello world';] *)
Definition HELLO : string := "Hello world".

(** A number kept in one of the dictionaries of [GlobalVariables]: an
    integer, or [NaN], which [++] leaves where there was no entry. *)
Inductive Number :=
| Num (n : Z)
| NaN.

(** A dictionary from public key hashes to numbers. *)
Definition Dictionary := gmap string Number.

(** [Object.keys(dictionary)] *)
Definition keys (dictionary : Dictionary) : list string :=
  (map_to_list dictionary).*1.

(** [dictionary[key] === 0] *)
Definition isZero (entry : option Number) : bool :=
  match entry with
  | Some (Num n) => (n =? 0)%Z
  | _ => false
  end.

(** [array.forEach(callback)]: the callback is called for its effects,
    and what it returns is dropped. *)
Definition forEach {A B S : Type} (array : list A)
    (callback : A -> S -> B * S) (s : S) : S :=
  fold_left (fun s a => snd (callback a s)) array s.

(** [allDictionaryItemsNonZero]: the [return false] is the return of the
    callback. *)
Definition allDictionaryItemsNonZero (dictionary : Dictionary) : bool :=
  let _ :=
    forEach (keys dictionary)
      (fun key s =>
         if isZero (dictionary !! key) then (Some false, s) else (None, s))
      tt in
  true.

(** [countNonZeroItems] *)
Definition countNonZeroItems (dictionary : Dictionary) : nat :=
  let counter := 0 in
  let counter :=
    forEach (keys dictionary)
      (fun key counter =>
         if negb (isZero (dictionary !! key)) then (tt, S counter)
         else (tt, counter))
      counter in
  counter.

(** [dictionary[key]++] *)
Definition increment (key : string) (dictionary : Dictionary) : Dictionary :=
  <[key :=
      match dictionary !! key with
      | Some (Num n) => Num (n + 1)
      | _ => NaN
      end]> dictionary.

(** What comes of one [https.request]: its ['error'] event, or the ['end']
    of its response with the text received. *)
Inductive RequestOutcome :=
| RequestError (message : string)
| ResponseEnd (textChunk : string).

(** The calls of [https.request] counted, [globals.peerRepliedToUs] and
    the warnings logged. *)
Record Requests := {
  requests : nat;
  peerRepliedToUs : Dictionary;
  warnings : list string
}.

(** [initiateHttpsRequestToPeer(peerDetails, requestNumber)], for the
    outcomes of the requests it makes, one after the other; no outcome
    left, nothing more happens.  [publicKeyHash] is
    [createPublicKeyHash(peerDetails.keyId)]. *)
Fixpoint initiateHttpsRequestToPeer (publicKeyHash : string)
    (outcomes : list RequestOutcome) (requestNumber : Z) (st : Requests)
    : Requests :=
  if (requestNumber >? 3)%Z then st
  else
    let requestNumber := (requestNumber + 1)%Z in
    let st :=
      {| requests := S (requests st);
         peerRepliedToUs := peerRepliedToUs st;
         warnings := warnings st |} in
    match outcomes with
    | RequestError message :: outcomes' =>
        initiateHttpsRequestToPeer publicKeyHash outcomes' requestNumber
          {| requests := requests st;
             peerRepliedToUs := peerRepliedToUs st;
             warnings := warnings st ++ [message] |}
    | ResponseEnd textChunk :: _ =>
        if String.eqb textChunk HELLO
        then {| requests := requests st;
                peerRepliedToUs :=
                  increment publicKeyHash (peerRepliedToUs st);
                warnings := warnings st |}
        else st
    | [] => st
    end.

(** The number of requests that fail before one does not. *)
Fixpoint failedFirst (outcomes : list RequestOutcome) : nat :=
  match outcomes with
  | RequestError _ :: outcomes' => S (failedFirst outcomes')
  | _ => 0
  end.

End NotificationTest.

(** ** The radios check (ThaliTestRunner.java) *)

Module ThaliTestRunner.

Definition timeoutLimit : Z := 500.
Definition counterLimit : Z := 10.

(** What the device answers at one test of the loop condition and in the
    sleep that follows it. *)
Record Poll := {
  btEnabled : bool;
  wifiEnabled : bool;
  interrupted : bool
}.

(** What [call()] returns, with the milliseconds it has slept. *)
Record Called := { returned : bool; slept : Z }.

(** The loop of [call()], the tests of the condition numbered from
    [poll]; [fuel] bounds the iterations. *)
Fixpoint checkRadios (fuel : nat) (device : nat -> Poll) (poll : nat)
    (counter sleeping : Z) : option Called :=
  match fuel with
  | O => None
  | S fuel' =>
      if negb (btEnabled (device poll))
         && negb (wifiEnabled (device poll))
         && (counter <? counterLimit)%Z
      then
        if interrupted (device poll)
        then Some {| returned := false; slept := sleeping |}
        else checkRadios fuel' device (S poll) (counter + 1)%Z
               (sleeping + timeoutLimit)%Z
      else Some {| returned := negb (counter >=? counterLimit)%Z;
                   slept := sleeping |}
  end.

(** [createCheckRadiosThread().call()]: the counter starts at 0. *)
Definition call (fuel : nat) (device : nat -> Poll) : option Called :=
  checkRadios fuel device 0 0 0.

End ThaliTestRunner.

(** * Properties *)

(** ** Promises settle once *)

Module PromiseFacts.

Import Promise.

Lemma settle_settled s c : settled c = true -> settle s c = state c.
Proof. unfold settled, settle. by destruct (state c). Qed.

Lemma resolve_settled c : settled c = true -> state (resolve c) = state c.
Proof. unfold settled, resolve, settle; simpl. by destruct (state c). Qed.

Lemma reject_settled e c : settled c = true -> state (reject e c) = state c.
Proof. unfold settled, reject, settle; simpl. by destruct (state c). Qed.

Lemma settled_resolve c : settled (resolve c) = true.
Proof. unfold settled, resolve, settle; simpl. by destruct (state c). Qed.

Lemma settled_reject e c : settled (reject e c) = true.
Proof. unfold settled, reject, settle; simpl. by destruct (state c). Qed.

Lemma reject_not_resolved e c :
  state c <> Resolved -> state (reject e c) <> Resolved.
Proof. unfold reject, settle; simpl. by destruct (state c). Qed.

End PromiseFacts.

(** ** The notification server *)

Module NotificationServerFacts.

Import Promise NotificationServer PromiseFacts.

Section Start.

Variable ECDH : Type.
Variable generate : list PublicKey -> ECDH -> Z -> Error + Buffer.

Abbreviation start := (start ECDH generate).
Abbreviation checkPublicKey := (checkPublicKey ECDH).

(** The loop over the keys touches the promise only. *)
Lemma forEach_checkPublicKey keys : forall w,
  self ECDH (fold_left checkPublicKey keys w) = self ECDH w /\
  refreshCalls ECDH (fold_left checkPublicKey keys w) = refreshCalls ECDH w /\
  state (promise ECDH (fold_left checkPublicKey keys w)) =
    (if existsb malformed keys
     then settle (Rejected bad_public_keys) (promise ECDH w)
     else state (promise ECDH w)).
Proof.
  induction keys as [|k keys IH]; intros w; simpl; [done|].
  destruct (IH (checkPublicKey w k)) as (Hs & Hr & Hp).
  rewrite Hs, Hr, Hp. unfold NotificationServer.checkPublicKey.
  destruct (malformed k); simpl; [|done].
  repeat split; unfold settle; simpl; unfold settle;
    destruct (existsb malformed keys), (state (promise ECDH w)); done.
Qed.

(** How the promise of [start] settles does not depend on how the
    transport call settles: [resolve()] has run before its callbacks. *)
Lemma start_state_ignores_transport arg transport transport' srv :
  state (promise ECDH (start arg transport srv)) =
  state (promise ECDH (start arg transport' srv)).
Proof.
  unfold NotificationServer.start.
  destruct arg as [|keys]; [done|].
  destruct (0 <? length keys)%nat; simpl.
  - destruct (generate _ _ _); simpl; [done|].
    destruct (_firstStartCall _ _); simpl;
      destruct transport, transport'; simpl;
      rewrite !settle_settled by apply settled_resolve; done.
  - destruct (_firstStartCall _ _); simpl;
      destruct (_preambleAndBeacons ECDH srv); simpl; try done;
      destruct transport, transport'; simpl;
      rewrite ?settle_settled by apply settled_resolve; done.
Qed.

(** [stop], the sibling of [start], hands the transport error on. *)
Lemma stop_rejects_with_transport_error error srv :
  state (promise ECDH (stop ECDH (Some error) srv)) = Rejected error.
Proof. reflexivity. Qed.

(** A call of [start] whose promise resolved reached the end of the
    queued operation: the beacons are those of a generation that
    succeeded, or none for no keys. *)
Lemma start_resolved_inv keys transport srv :
  state (promise ECDH (start (KeysArray keys) transport srv)) = Resolved ->
  (keys = [] /\
   _preambleAndBeacons ECDH
     (self ECDH (start (KeysArray keys) transport srv)) = None) \/
  (keys <> [] /\ exists blob,
     generate keys (_ecdhForLocalDevice ECDH srv)
       (_millisecondsUntilExpiration ECDH srv) = inr blob /\
     _preambleAndBeacons ECDH
       (self ECDH (start (KeysArray keys) transport srv)) = Some blob).
Proof.
  unfold NotificationServer.start.
  destruct keys as [|k keys]; simpl.
  - intros _. left. split; [done|].
    destruct (_firstStartCall ECDH srv); simpl;
      destruct (_preambleAndBeacons ECDH srv); simpl;
      destruct transport; done.
  - set (w := enqueued ECDH srv).
    destruct (forEach_checkPublicKey keys (checkPublicKey w k))
      as (Hs & _ & Hp).
    assert (Hself : self ECDH (checkPublicKey w k) = srv)
      by (unfold NotificationServer.checkPublicKey;
          destruct (malformed k); done).
    rewrite Hs, Hself.
    destruct (generate _ _ _) as [error|blob] eqn:Hgen; simpl.
    + intros Hres. exfalso. revert Hres.
      apply reject_not_resolved. rewrite Hp.
      unfold NotificationServer.checkPublicKey, settle.
      destruct (existsb malformed keys), (malformed k); done.
    + intros _. right. split; [done|]. exists blob. split; [done|].
      rewrite Hs, Hself.
      destruct (_firstStartCall ECDH srv); simpl;
        destruct transport; done.
Qed.

(** The number of transport calls of a [start] that reached the end. *)
Lemma start_refreshCalls_empty transport srv :
  refreshCalls ECDH (start (KeysArray []) transport srv) =
  if notNull (_preambleAndBeacons ECDH srv) then 1 else 0.
Proof.
  unfold NotificationServer.start; simpl.
  destruct (_firstStartCall ECDH srv); simpl;
    destruct (_preambleAndBeacons ECDH srv); simpl;
    destruct transport; done.
Qed.

Lemma start_refreshCalls_generated k keys transport srv blob :
  generate (k :: keys) (_ecdhForLocalDevice ECDH srv)
    (_millisecondsUntilExpiration ECDH srv) = inr blob ->
  refreshCalls ECDH (start (KeysArray (k :: keys)) transport srv) = 1.
Proof.
  intros Hgen. unfold NotificationServer.start; simpl.
  set (w := enqueued ECDH srv).
  destruct (forEach_checkPublicKey keys (checkPublicKey w k))
    as (Hs & Hr & _).
  assert (Hself : self ECDH (checkPublicKey w k) = srv)
    by (unfold NotificationServer.checkPublicKey;
        destruct (malformed k); done).
  assert (Hcalls : refreshCalls ECDH (checkPublicKey w k) = 0)
    by (unfold NotificationServer.checkPublicKey;
        destruct (malformed k); done).
  rewrite Hs, Hself, Hgen; simpl. rewrite Hs, Hself.
  destruct (_firstStartCall ECDH srv); simpl;
    destruct transport; simpl; rewrite Hr, Hcalls; done.
Qed.

(** C2.  When the generator of beacons refuses malformed keys (the
    spec of BeaconCodec.generate), a [start] with an array that holds a
    malformed key (not an object, or of length zero) rejects its promise
    with 'bad public keys' and leaves the server object as it was: the
    beacons are the former ones, a GET on the beacon path is answered as
    before, and the transport is not called. *)
Theorem start_malformed_key_rejects_and_keeps_beacons
    keys transport srv :
  refusesMalformedKeys generate ->
  existsb malformed keys = true ->
  let w := start (KeysArray keys) transport srv in
  state (promise ECDH w) = Rejected bad_public_keys /\
  self ECDH w = srv /\
  _preambleAndBeacons ECDH (self ECDH w) = _preambleAndBeacons ECDH srv /\
  GET ECDH (self ECDH w) = GET ECDH srv /\
  refreshCalls ECDH w = 0.
Proof.
  intros generate_refuses_malformed Hbad.
  destruct (generate_refuses_malformed keys (_ecdhForLocalDevice ECDH srv)
              (_millisecondsUntilExpiration ECDH srv) Hbad)
    as [error Hgen].
  destruct keys as [|k keys]; [done|].
  unfold NotificationServer.start.
  change (0 <? length (k :: keys))%nat with true. cbv iota.
  destruct (forEach_checkPublicKey (k :: keys) (enqueued ECDH srv))
    as (Hs & Hr & Hp).
  rewrite Hbad in Hp.
  rewrite Hs. change (self ECDH (enqueued ECDH srv)) with srv.
  rewrite Hgen. cbv zeta iota.
  assert (Hself : self ECDH
            (rejectW ECDH error
               (warn ECDH error
                  (fold_left checkPublicKey (k :: keys)
                     (enqueued ECDH srv)))) = srv) by (simpl in *; done).
  rewrite Hself. repeat split; try done.
  simpl in *. unfold settle. rewrite Hp. done.
Qed.

(** The rejection in the loop does not end the operation: were the
    generator to accept the keys, the beacons would be replaced under a
    rejected promise. *)
Remark start_malformed_key_goes_on_to_generate k keys transport srv blob :
  existsb malformed (k :: keys) = true ->
  generate (k :: keys) (_ecdhForLocalDevice ECDH srv)
    (_millisecondsUntilExpiration ECDH srv) = inr blob ->
  let w := start (KeysArray (k :: keys)) transport srv in
  state (promise ECDH w) = Rejected bad_public_keys /\
  _preambleAndBeacons ECDH (self ECDH w) = Some blob.
Proof.
  intros Hbad Hgen. unfold NotificationServer.start.
  change (0 <? length (k :: keys))%nat with true. cbv iota.
  destruct (forEach_checkPublicKey (k :: keys) (enqueued ECDH srv))
    as (Hs & Hr & Hp).
  rewrite Hbad in Hp.
  rewrite Hs. change (self ECDH (enqueued ECDH srv)) with srv.
  rewrite Hgen. cbv zeta iota.
  set (w1 := fold_left checkPublicKey (k :: keys) (enqueued ECDH srv)) in *.
  assert (Hsettled : settled (promise ECDH w1) = true)
    by (unfold settled; rewrite Hp; done).
  change (_firstStartCall ECDH
            (self ECDH
               (withSelf ECDH (setPreambleAndBeacons ECDH (Some blob)) w1)))
    with (_firstStartCall ECDH (self ECDH w1)).
  destruct (_firstStartCall ECDH (self ECDH w1)); simpl;
    destruct transport; simpl;
    rewrite settle_settled by apply settled_resolve;
    rewrite resolve_settled by done; rewrite Hp; done.
Qed.

(** C7, as the code has it.  A [start] whose promise resolved calls
    [startUpdateAdvertisingAndListening] once when the former or the new
    beacons are not [null], and not at all when both are [null].  So a
    [start([])] that follows a resolved [start(keys)] makes no call when
    [keys] was empty and exactly one when it was not. *)
Theorem start_refreshes_iff_old_or_new_beacons keys transport srv :
  let w := start (KeysArray keys) transport srv in
  state (promise ECDH w) = Resolved ->
  (refreshCalls ECDH w = 1 <->
     (_preambleAndBeacons ECDH srv <> None \/
      _preambleAndBeacons ECDH (self ECDH w) <> None)) /\
  (refreshCalls ECDH w = 0 <->
     (_preambleAndBeacons ECDH srv = None /\
      _preambleAndBeacons ECDH (self ECDH w) = None)) /\
  (forall transport',
     refreshCalls ECDH (start (KeysArray []) transport' (self ECDH w)) =
     match keys with [] => 0 | _ :: _ => 1 end).
Proof.
  intros w Hres. subst w.
  destruct (start_resolved_inv keys transport srv Hres)
    as [[-> Hnew] | [Hne (blob & Hgen & Hnew)]].
  - rewrite Hnew. rewrite start_refreshCalls_empty.
    split; [|split].
    + destruct (_preambleAndBeacons ECDH srv); simpl;
        intuition congruence.
    + destruct (_preambleAndBeacons ECDH srv); simpl;
        intuition congruence.
    + intros transport'. rewrite start_refreshCalls_empty, Hnew. done.
  - destruct keys as [|k keys]; [done|].
    rewrite Hnew, (start_refreshCalls_generated k keys transport srv blob Hgen).
    split; [|split].
    + intuition congruence.
    + intuition congruence.
    + intros transport'. rewrite start_refreshCalls_empty, Hnew. done.
Qed.

End Start.

(** C1, at a failing input: [start([k])] on a new server calls the
    transport, whose promise rejects with 'Failed'; the handles are called
    as [resolve()] and then [reject('Failed')], and the promise of [start]
    is resolved, not rejected with the transport error. *)
Theorem start_resolves_although_transport_failed :
  let w := start unit strictGenerator (KeysArray [KeyBuffer [x02]])
             (Some "Failed") fresh_server in
  refreshCalls unit w = 1 /\
  calls (promise unit w) = [CallResolve; CallReject "Failed"] /\
  state (promise unit w) = Resolved /\
  state (promise unit w) <> Rejected "Failed".
Proof. vm_compute. repeat split; discriminate. Qed.

Lemma start_malformed_key_witness :
  let w := start unit strictGenerator
             (KeysArray [KeyBuffer [x02]; KeyBuffer []]) None
             (self unit (start unit strictGenerator
                           (KeysArray [KeyBuffer [x02]]) None fresh_server))
  in
  state (promise unit w) = Rejected bad_public_keys /\
  self unit w =
    self unit (start unit strictGenerator (KeysArray [KeyBuffer [x02]])
                 None fresh_server) /\
  _preambleAndBeacons unit (self unit w) = Some [x01] /\
  GET unit (self unit w) =
    Some {| status := 200;
            headers := [("Content-Type", "application/octet-stream");
                        ("Cache-Control", "no-cache")];
            body := Some [x01] |} /\
  refreshCalls unit w = 0.
Proof.
  apply (start_malformed_key_rejects_and_keeps_beacons unit strictGenerator).
  - intros keys ecdh ms H. unfold strictGenerator. rewrite H. eauto.
  - reflexivity.
Defined.

Lemma start_refreshes_witness :
  let w := start unit strictGenerator (KeysArray [KeyBuffer [x02]]) None
             fresh_server in
  (refreshCalls unit w = 1 <->
     (_preambleAndBeacons unit fresh_server <> None \/
      _preambleAndBeacons unit (self unit w) <> None)) /\
  (refreshCalls unit w = 0 <->
     (_preambleAndBeacons unit fresh_server = None /\
      _preambleAndBeacons unit (self unit w) = None)) /\
  (forall transport',
     refreshCalls unit
       (start unit strictGenerator (KeysArray []) transport' (self unit w))
     = 1).
Proof.
  apply (start_refreshes_iff_old_or_new_beacons unit strictGenerator
           [KeyBuffer [x02]] None fresh_server).
  reflexivity.
Defined.

(** C7, as it is stated, fails: a second [start] with a key, after a first
    one with a key, resolves and calls the transport, although neither the
    former nor the new beacons are [null]. *)
Lemma start_refreshes_without_nil_transition :
  let srv := self unit (start unit strictGenerator
                          (KeysArray [KeyBuffer [x02]]) None fresh_server) in
  let w := start unit strictGenerator (KeysArray [KeyBuffer [x03]]) None srv
  in
  state (promise unit w) = Resolved /\
  ~ (refreshCalls unit w = 1 <->
       ((_preambleAndBeacons unit srv = None /\
         _preambleAndBeacons unit (self unit w) <> None) \/
        (_preambleAndBeacons unit srv <> None /\
         _preambleAndBeacons unit (self unit w) = None))).
Proof.
  split; [reflexivity|].
  intros [H _]. destruct (H eq_refl) as [[Hold _] | [_ Hnew]]; discriminate.
Qed.

End NotificationServerFacts.

(** ** The quit signal *)

Module QuitSignalFacts.

Import QuitSignal.

Lemma with_no_events h : withEvents [] h = h.
Proof. destruct h. unfold withEvents; simpl. by rewrite app_nil_r. Qed.

Lemma with_more_events es es' h :
  withEvents es' (withEvents es h) = withEvents (es ++ es') h.
Proof. unfold withEvents; simpl. by rewrite app_assoc. Qed.

(** A loop whose body only makes calls makes the calls of each element in
    turn. *)
Lemma forEach_emits {A} (body : A -> M unit) (calls : A -> list Event) l :
  (forall x h, body x h = (Returned tt, withEvents (calls x) h)) ->
  forall h, forEach l body h = (Returned tt, withEvents (flat_map calls l) h).
Proof.
  intros Hbody. induction l as [|x l IH]; intros h; simpl.
  - by rewrite with_no_events.
  - unfold mbind, M_bind. rewrite Hbody, IH, with_more_events. done.
Qed.

(** What one [raiseSignal] does. *)
Lemma raiseSignal_run h :
  run raiseSignal h =
  (Returned tt,
   if raised (signal h) then h
   else withEvents (raiseEvents (signal h))
          (withSignal {| raised := true;
                         timeOuts := timeOuts (signal h);
                         cancelCalls := cancelCalls (signal h) |} h)).
Proof.
  unfold run, raiseSignal, mbind, M_bind, this.
  destruct (raised (signal h)) eqn:Hraised; [done|].
  unfold update at 1.
  rewrite (forEach_emits _
             (fun ts => [ClearTimeout (timeOut ts);
                         SuccessCb (successCb ts) JsNull JsNull])).
  2: { intros x h'. unfold emit, withEvents; simpl.
       by rewrite <- app_assoc. }
  rewrite (forEach_emits _ (fun c => [CancelCall c])) by done.
  rewrite with_more_events. unfold raiseEvents, withSignal.
  assert (Hmap : forall l : list Callback,
            flat_map (fun c => [CancelCall c]) l = map CancelCall l)
    by (induction l; simpl; congruence).
  by rewrite Hmap.
Qed.

Lemma raiseSignal_raised h :
  raised (signal (snd (run raiseSignal h))) = true.
Proof.
  rewrite raiseSignal_run; simpl.
  destruct (raised (signal h)) eqn:Hraised; done.
Qed.

Lemma raiseSignal_again h :
  raised (signal h) = true -> run raiseSignal h = (Returned tt, h).
Proof. intros Hraised. by rewrite raiseSignal_run, Hraised. Qed.

Lemma raiseSignalTimes_raised n : forall h,
  raised (signal h) = true -> run (raiseSignalTimes n) h = (Returned tt, h).
Proof.
  induction n as [|n IH]; intros h Hraised; [done|].
  pose proof (raiseSignal_again h Hraised) as Hagain.
  unfold run in *; simpl. unfold mbind, M_bind.
  rewrite Hagain. by apply IH.
Qed.

(** The records that the loop of [raiseSignal] visits are those in the
    slots of [timeOuts] that are not holes. *)
Lemma raiseEvents_slots q :
  raiseEvents q =
  flat_map
    (fun slot : option (ref * TimeOutStruct) =>
       match slot with
       | Some (_, fields) =>
           [ClearTimeout (timeOut fields);
            SuccessCb (successCb fields) JsNull JsNull]
       | None => []
       end)
    (timeOuts q)
  ++ map CancelCall (cancelCalls q).
Proof.
  unfold raiseEvents, visited. f_equal.
  induction (timeOuts q) as [|[[r fields]|] slots IH]; [done| |done].
  simpl. by rewrite <- IH.
Qed.

(** The calls for the slots, counted. *)
Lemma slots_calls_counted slots cancels e :
  length
    (filter (fun e' => e' = e)
       (flat_map
          (fun slot : option (ref * TimeOutStruct) =>
             match slot with
             | Some (_, fields) =>
                 [ClearTimeout (timeOut fields);
                  SuccessCb (successCb fields) JsNull JsNull]
             | None => []
             end)
          slots
        ++ map CancelCall cancels)) =
  match e with
  | ClearTimeout handle =>
      length
        (List.filter
           (fun slot : option (ref * TimeOutStruct) =>
              match slot with
              | Some (_, fields) => bool_decide (timeOut fields = handle)
              | None => false
              end)
           slots)
  | SuccessCb cb JsNull JsNull =>
      length
        (List.filter
           (fun slot : option (ref * TimeOutStruct) =>
              match slot with
              | Some (_, fields) => Nat.eqb (successCb fields) cb
              | None => false
              end)
           slots)
  | SuccessCb _ _ _ => 0
  | CancelCall cancelCall =>
      length (List.filter (Nat.eqb cancelCall) cancels)
  end.
Proof.
  rewrite filter_app, length_app.
  assert (Hcancels :
    length (filter (fun e' => e' = e) (map CancelCall cancels)) =
    match e with
    | CancelCall cancelCall =>
        length (List.filter (Nat.eqb cancelCall) cancels)
    | _ => 0
    end).
  { induction cancels as [|c cancels IH]; [by destruct e|].
    cbn [map List.filter]. rewrite filter_cons.
    destruct e as [handle|cb err result|cancelCall];
      try (rewrite decide_False by done; exact IH).
    destruct (Nat.eqb_spec cancelCall c) as [->|Hne].
    - rewrite decide_True by done. cbn [length]. by rewrite IH.
    - rewrite decide_False by congruence. exact IH. }
  rewrite Hcancels. clear Hcancels.
  induction slots as [|[[r fields]|] slots IH].
  - by destruct e as [|? [] []|].
  - cbn [flat_map List.filter app]. rewrite !filter_cons.
    destruct e as [handle|cb err result|cancelCall].
    + rewrite (decide_False (P := SuccessCb _ _ _ = ClearTimeout _))
        by done.
      destruct (decide (timeOut fields = handle)) as [->|Hne].
      * rewrite decide_True, bool_decide_true by done.
        cbn [length Nat.add] in *. by rewrite IH.
      * rewrite decide_False, bool_decide_false by congruence. exact IH.
    + rewrite (decide_False (P := ClearTimeout _ = SuccessCb _ _ _))
        by done.
      destruct err, result;
        try (rewrite decide_False by congruence; exact IH).
      destruct (Nat.eqb_spec (successCb fields) cb) as [->|Hne].
      * rewrite decide_True by done. cbn [length Nat.add] in *.
        by rewrite IH.
      * rewrite decide_False by congruence. exact IH.
    + rewrite !decide_False by done. exact IH.
  - cbn [flat_map List.filter app]. exact IH.
Qed.

(** Once raised, a signal stays raised and makes no further call, whatever
    is called on it. *)
Lemma raised_for_good calls : forall h,
  raised (signal h) = true ->
  raised (signal (performAll calls h)) = true /\
  events (performAll calls h) = events h.
Proof.
  induction calls as [|call calls IH]; intros h Hraised; [done|].
  unfold performAll in *; simpl.
  assert (Hsame : snd (run (perform call) h) = h).
  { destruct call; simpl;
      [ unfold run, addCancelCall | unfold run, addTimeout
      | unfold run, removeTimeout | by rewrite raiseSignal_again ];
      unfold mbind, M_bind, this, assert; by rewrite Hraised. }
  rewrite Hsame. by apply IH.
Qed.

(** C5.  Any number of calls of [raiseSignal] in a row, at least one, on
    any signal, does what the first of them does: the heap and the calls
    made are those of one [raiseSignal], which returns; [raised] is true
    afterwards, the registrations are kept, and [raised] stays true, with
    no further call made, whatever is called on the signal later.  On a
    signal that was not raised the calls made are, for each slot of
    [timeOuts] that holds a timer, in the order of the slots,
    [clearTimeout] of its handle and its callback with [(null, null)],
    and then each cancel call; on a raised signal no call is made.  So
    [clearTimeout] is called for a handle as often as slots hold it, a
    callback is called with [(null, null)] as often as slots hold it and
    with no other arguments, and a cancel call is called as often as it
    is in [cancelCalls], however many raises follow the first. *)
Theorem raiseSignal_idempotent h n :
  let h' := snd (run (raiseSignalTimes (S n)) h) in
  let made :=
    flat_map
      (fun slot : option (ref * TimeOutStruct) =>
         match slot with
         | Some (_, fields) =>
             [ClearTimeout (timeOut fields);
              SuccessCb (successCb fields) JsNull JsNull]
         | None => []
         end)
      (timeOuts (signal h))
    ++ map CancelCall (cancelCalls (signal h)) in
  run (raiseSignalTimes (S n)) h = run raiseSignal h /\
  fst (run (raiseSignalTimes (S n)) h) = Returned tt /\
  raised (signal h') = true /\
  timeOuts (signal h') = timeOuts (signal h) /\
  cancelCalls (signal h') = cancelCalls (signal h) /\
  (forall calls,
     raised (signal (performAll calls h')) = true /\
     events (performAll calls h') = events h') /\
  events h' = events h ++ (if raised (signal h) then [] else made) /\
  (forall handle,
     length (filter (fun e => e = ClearTimeout handle) made) =
     length
       (List.filter
          (fun slot : option (ref * TimeOutStruct) =>
             match slot with
             | Some (_, fields) => bool_decide (timeOut fields = handle)
             | None => false
             end)
          (timeOuts (signal h)))) /\
  (forall cb err result,
     length (filter (fun e => e = SuccessCb cb err result) made) =
     match err, result with
     | JsNull, JsNull =>
         length
           (List.filter
              (fun slot : option (ref * TimeOutStruct) =>
                 match slot with
                 | Some (_, fields) => Nat.eqb (successCb fields) cb
                 | None => false
                 end)
              (timeOuts (signal h)))
     | _, _ => 0
     end) /\
  (forall cancelCall,
     length (filter (fun e => e = CancelCall cancelCall) made) =
     length (List.filter (Nat.eqb cancelCall) (cancelCalls (signal h)))).
Proof.
  cbv zeta.
  assert (Hsame : run (raiseSignalTimes (S n)) h = run raiseSignal h).
  { pose proof (raiseSignal_raised h) as Hraised.
    pose proof (raiseSignalTimes_raised n _ Hraised) as Hrest.
    pose proof (raiseSignal_run h) as Hfirst.
    unfold run in *; simpl. unfold mbind, M_bind.
    rewrite Hfirst in *. simpl in *. by rewrite Hrest. }
  rewrite Hsame. split; [done|].
  split; [by rewrite raiseSignal_run|].
  split; [apply raiseSignal_raised|].
  split; [rewrite raiseSignal_run; simpl; by destruct (raised (signal h))|].
  split; [rewrite raiseSignal_run; simpl; by destruct (raised (signal h))|].
  split; [intros calls; apply raised_for_good, raiseSignal_raised|].
  split; [|split; [|split]].
  - rewrite raiseSignal_run; simpl.
    destruct (raised (signal h)); simpl; [by rewrite app_nil_r|].
    by rewrite raiseEvents_slots.
  - intros handle.
    apply (slots_calls_counted _ _ (ClearTimeout handle)).
  - intros cb err result.
    rewrite (slots_calls_counted _ _ (SuccessCb cb err result)).
    by destruct err, result.
  - intros cancelCall.
    apply (slots_calls_counted _ _ (CancelCall cancelCall)).
Qed.

(** What a registration does, by the state of [raised]. *)
Lemma addTimeout_run h timeOut successCb :
  run (addTimeout timeOut successCb) h =
  if raised (signal h) then
    (AssertionError "No calling addTimeout after signal is raised", h)
  else
    (Returned tt,
     {| signal :=
          {| raised := false;
             timeOuts := timeOuts (signal h) ++
               [Some (nextRef h,
                      {| timeOut := timeOut; successCb := successCb |})];
             cancelCalls := cancelCalls (signal h) |};
        nextRef := S (nextRef h);
        events := events h |}).
Proof.
  unfold run, addTimeout, mbind, M_bind, this, assert, allocate, update.
  destruct (raised (signal h)) eqn:Hraised; simpl; rewrite ?Hraised; done.
Qed.

Lemma addCancelCall_run h cancelCall :
  run (addCancelCall cancelCall) h =
  if raised (signal h) then
    (AssertionError "No calling addCancelCall after signal is raised", h)
  else
    (Returned tt,
     {| signal :=
          {| raised := false;
             timeOuts := timeOuts (signal h);
             cancelCalls := cancelCalls (signal h) ++ [cancelCall] |};
        nextRef := nextRef h;
        events := events h |}).
Proof.
  unfold run, addCancelCall, mbind, M_bind, this, assert, update.
  destruct (raised (signal h)) eqn:Hraised; simpl; rewrite ?Hraised; done.
Qed.

(** C6.  On a raised signal [addTimeout] and [addCancelCall] throw the
    assertion error and leave the signal as it is; on a signal that is not
    raised they return and add the registration at the end. *)
Theorem registration_fails_once_raised h timeOut successCb cancelCall :
  if raised (signal h) then
    run (addTimeout timeOut successCb) h =
      (AssertionError "No calling addTimeout after signal is raised", h) /\
    run (addCancelCall cancelCall) h =
      (AssertionError "No calling addCancelCall after signal is raised", h)
  else
    run (addTimeout timeOut successCb) h =
      (Returned tt,
       {| signal :=
            {| raised := false;
               timeOuts := timeOuts (signal h) ++
                 [Some (nextRef h,
                        {| timeOut := timeOut; successCb := successCb |})];
               cancelCalls := cancelCalls (signal h) |};
          nextRef := S (nextRef h);
          events := events h |}) /\
    run (addCancelCall cancelCall) h =
      (Returned tt,
       {| signal :=
            {| raised := false;
               timeOuts := timeOuts (signal h);
               cancelCalls := cancelCalls (signal h) ++ [cancelCall] |};
          nextRef := nextRef h;
          events := events h |}).
Proof.
  rewrite addTimeout_run, addCancelCall_run.
  destruct (raised (signal h)); done.
Qed.

#[local] Arguments removeIfSame : simpl never.

(** [removeTimeout] deletes no slot whose object is not its argument. *)
Lemma removeIfSame_other timeOut r fields :
  timeOut <> JsObject r ->
  removeIfSame timeOut (Some (r, fields)) = Some (r, fields).
Proof.
  intros Hne. unfold removeIfSame, strictEquals.
  destruct timeOut as [| |r']; try done.
  destruct (Nat.eqb_spec r r'); [congruence|done].
Qed.

Lemma removeTimeout_handle_only timeOut slots :
  Forall (fun slot => forall r fields,
            slot = Some (r, fields) -> timeOut <> JsObject r) slots ->
  map (removeIfSame timeOut) slots = slots.
Proof.
  induction 1 as [|slot slots Hslot _ IH]; simpl; [done|].
  rewrite IH. f_equal. destruct slot as [[r fields]|]; [|done].
  apply removeIfSame_other. by eapply Hslot.
Qed.

(** C10.  On a signal that is not raised, [addTimeout(t, cb)] followed by
    [removeTimeout(t)] leaves the slot of the registration as it was: the
    object in the slot was created by [addTimeout], after [t], and is not
    [t].  A [raiseSignal] afterwards calls [clearTimeout(t)] and
    [cb(null, null)]. *)
Theorem removeTimeout_keeps_registration h t cb :
  raised (signal h) = false ->
  allocated h t ->
  exists h1 h2 h3,
    run (addTimeout t cb) h = (Returned tt, h1) /\
    run (removeTimeout t) h1 = (Returned tt, h2) /\
    timeOuts (signal h2) !! length (timeOuts (signal h)) =
      Some (Some (nextRef h, {| timeOut := t; successCb := cb |})) /\
    length (timeOuts (signal h2)) = S (length (timeOuts (signal h))) /\
    run raiseSignal h2 = (Returned tt, h3) /\
    exists earlier,
      events h3 =
        events h ++ earlier
        ++ [ClearTimeout t; SuccessCb cb JsNull JsNull]
        ++ map CancelCall (cancelCalls (signal h)).
Proof.
  intros Hraised Halloc.
  pose proof (addTimeout_run h t cb) as Hadd.
  rewrite Hraised in Hadd.
  eexists _, _, _. split; [exact Hadd|].
  assert (Hkept : removeIfSame t
            (Some (nextRef h, {| timeOut := t; successCb := cb |})) =
            Some (nextRef h, {| timeOut := t; successCb := cb |})).
  { apply removeIfSame_other. intros ->. simpl in Halloc. lia. }
  split; [|split; [|split; [|split]]].
  - unfold run, removeTimeout, mbind, M_bind, this, assert, update; simpl.
    reflexivity.
  - simpl. rewrite map_app; simpl. rewrite Hkept.
    rewrite lookup_app_r by (by rewrite length_map).
    by rewrite length_map, Nat.sub_diag.
  - simpl. rewrite length_map, length_app; simpl. lia.
  - rewrite raiseSignal_run; simpl. reflexivity.
  - simpl. unfold raiseEvents; simpl.
    rewrite map_app; simpl. rewrite Hkept.
    unfold visited. rewrite omap_app; simpl.
    rewrite flat_map_app; simpl.
    exists (flat_map
              (fun ts => [ClearTimeout (timeOut ts);
                          SuccessCb (successCb ts) JsNull JsNull])
              (omap (fun slot => snd <$> slot)
                 (map (removeIfSame t) (timeOuts (signal h))))).
    by rewrite <- !app_assoc.
Qed.

Lemma removeTimeout_keeps_registration_witness :
  exists h1 h2 h3,
    run (addTimeout (JsObject 0) 7)
      {| signal := new; nextRef := 1; events := [] |} = (Returned tt, h1) /\
    run (removeTimeout (JsObject 0)) h1 = (Returned tt, h2) /\
    timeOuts (signal h2) !! length (timeOuts new) =
      Some (Some (1, {| timeOut := JsObject 0; successCb := 7 |})) /\
    length (timeOuts (signal h2)) = S (length (timeOuts new)) /\
    run raiseSignal h2 = (Returned tt, h3) /\
    exists earlier,
      events h3 =
        [] ++ earlier
        ++ [ClearTimeout (JsObject 0); SuccessCb 7 JsNull JsNull]
        ++ map CancelCall (cancelCalls new).
Proof.
  apply (removeTimeout_keeps_registration
           {| signal := new; nextRef := 1; events := [] |} (JsObject 0) 7).
  - reflexivity.
  - simpl. lia.
Defined.

End QuitSignalFacts.

(** ** The round protocol *)

Module RoundProtocolFacts.

Import RoundProtocol RoundSpec.

#[local] Opaque bulkMessage.

Lemma Buffer_compare_eq buf1 : forall buf2,
  Buffer_compare buf1 buf2 = 0%Z <-> buf1 = buf2.
Proof.
  induction buf1 as [|x buf1 IH]; intros [|y buf2]; simpl; try done.
  destruct (N.compare_spec (Byte.to_N x) (Byte.to_N y)) as [Heq|Hlt|Hgt].
  - assert (x = y) as ->.
    { pose proof (Byte.of_to_N x) as Hx. rewrite Heq, Byte.of_to_N in Hx.
      congruence. }
    rewrite IH. split; congruence.
  - split; [done|]. intros [= -> _]. lia.
  - split; [done|]. intros [= -> _]. lia.
Qed.

Lemma Buffer_compare_eqb buf1 buf2 :
  negb (Buffer_compare buf1 buf2 =? 0)%Z = false <-> buf1 = buf2.
Proof.
  rewrite negb_false_iff, Z.eqb_eq. apply Buffer_compare_eq.
Qed.

Lemma peerInTestList_participant t uuid :
  peerInTestList t uuid = true <-> participant t uuid.
Proof.
  unfold peerInTestList, participant.
  induction (participants t) as [|p l IH]; simpl; [done|].
  destruct (String.eqb_spec (Participant.uuid p) uuid); [tauto|].
  rewrite IH. tauto.
Qed.

Lemma length_list_byte_of_string s :
  length (list_byte_of_string s) = String.length s.
Proof.
  unfold list_byte_of_string. rewrite length_map.
  induction s; simpl; congruence.
Qed.

Lemma protocolResult_code_length r :
  String.length (protocolResult_code r) = 1.
Proof. by destruct r. Qed.

Lemma protocolResult_code_inj r r' :
  protocolResult_code r = protocolResult_code r' -> r = r'.
Proof. by destruct r, r'. Qed.

(** The tests of the two validation functions, as propositions. *)
Lemma not_in_list t uuid :
  negb (peerInTestList t uuid) = true <-> ~ participant t uuid.
Proof.
  rewrite negb_true_iff, <- peerInTestList_participant.
  destruct (peerInTestList t uuid); split; congruence.
Qed.

Lemma in_list t uuid :
  negb (peerInTestList t uuid) = false <-> participant t uuid.
Proof. rewrite negb_false_iff. apply peerInTestList_participant. Qed.

Lemma bulk_differs buf1 buf2 :
  negb (Buffer_compare buf1 buf2 =? 0)%Z = true <-> buf1 <> buf2.
Proof.
  rewrite <- Buffer_compare_eqb.
  destruct (negb (Buffer_compare buf1 buf2 =? 0)%Z); split; congruence.
Qed.

(** C3.  [validateRequest] returns the outcome that the five rules of
    server-side validation give, taken in their order, and the rules give
    no other outcome: WRONG_TEST when the uuid is not in the participant
    set; else WRONG_SYNTAX when the bulk data is not the canonical payload;
    else WRONG_ME when the uuid is the local one; else WRONG_GEN when the
    code is not the string of the round number; else SUCCESS. *)
Theorem validateRequest_follows_rules tape_uuid t roundNumber m :
  ServerValidation t roundNumber tape_uuid m
    (validateRequest tape_uuid t roundNumber m) /\
  (forall outcome,
     ServerValidation t roundNumber tape_uuid m outcome ->
     outcome = validateRequest tape_uuid t roundNumber m).
Proof.
  unfold validateRequest.
  destruct (negb (peerInTestList t (Message.uuid m))) eqn:Hin.
  { apply not_in_list in Hin. split; [by constructor|].
    intros outcome H; inversion H; done. }
  apply in_list in Hin.
  destruct (negb (Buffer_compare (Message.bulkData m) bulkMessage =? 0)%Z)
    eqn:Hbulk.
  { apply bulk_differs in Hbulk. split; [by constructor|].
    intros outcome H; inversion H; done. }
  apply Buffer_compare_eqb in Hbulk.
  destruct (String.eqb_spec (Message.uuid m) tape_uuid) as [Hme|Hme].
  { split; [by constructor|]. intros outcome H; inversion H; done. }
  destruct (String.eqb_spec (Message.code m) (toString roundNumber))
    as [Hgen|Hgen]; simpl.
  - split; [by constructor|]. intros outcome H; inversion H; done.
  - split; [by constructor|]. intros outcome H; inversion H; done.
Qed.

Lemma validateRequest_witness :
  validateRequest "A"
    {| participants := [{| Participant.uuid := "A" |};
                        {| Participant.uuid := "B" |}] |} 1
    {| Message.uuid := "B"; Message.code := "1";
       Message.bulkData := bulkMessage |} = SUCCESS.
Proof.
  symmetry.
  apply (validateRequest_follows_rules "A"
           {| participants := [{| Participant.uuid := "A" |};
                               {| Participant.uuid := "B" |}] |} 1
           {| Message.uuid := "B"; Message.code := "1";
              Message.bulkData := bulkMessage |}).
  apply success; simpl.
  - unfold participant; simpl. right; left; reflexivity.
  - reflexivity.
  - discriminate.
  - reflexivity.
Defined.

(** C4.  [validateServerResponse] classifies a parsed response as the
    rules of client-side interpretation do, and they give no other class:
    not fatal when the responder is not a participant; else fatal when the
    bulk data is not the canonical payload; else not fatal for the codes
    of WRONG_ME and WRONG_GEN, fatal for those of WRONG_TEST and
    WRONG_SYNTAX, OK for that of SUCCESS and fatal for any other code.
    [clientSuccessConnect] marks the responder in [peersWeSucceededWith]
    and resolves on OK, and rejects without a mark otherwise, with
    [fatal] set as classified. *)
Theorem validateServerResponse_follows_rules tape_uuid t m :
  ClientInterpretation t m (validateServerResponse t m) /\
  (forall class,
     ClientInterpretation t m class -> class = validateServerResponse t m) /\
  (forall dataBuffer peers,
     clientSuccessConnect_response tape_uuid t dataBuffer peers =
     match validateServerResponse t (parseMessage tape_uuid dataBuffer) with
     | OK =>
         (<[Message.uuid (parseMessage tape_uuid dataBuffer) := true]> peers,
          inr tt, [End])
     | NON_FATAL =>
         (peers,
          inl {| message := "Got non-fatal error, see logs";
                 fatal := false |}, [Destroy])
     | FATAL =>
         (peers,
          inl {| message := "Got fatal error, see logs"; fatal := true |},
          [Destroy])
     end).
Proof.
  split; [|split].
  3: { intros dataBuffer peers. unfold clientSuccessConnect_response.
       by destruct (validateServerResponse _ _). }
  all: unfold validateServerResponse.
  all: destruct (negb (peerInTestList t (Message.uuid m))) eqn:Hin;
    [apply not_in_list in Hin | apply in_list in Hin].
  all: try destruct (negb (Buffer_compare bulkMessage (Message.bulkData m)
                             =? 0)%Z) eqn:Hbulk;
    [apply bulk_differs in Hbulk | apply Buffer_compare_eqb in Hbulk |..].
  all: try (by constructor).
  all: try (intros class H; inversion H; done).
  all: destruct (String.eqb_spec (Message.code m)
                   (protocolResult_code WRONG_ME)) as [H3|H3];
    destruct (String.eqb_spec (Message.code m)
                (protocolResult_code WRONG_GEN)) as [H0|H0];
    destruct (String.eqb_spec (Message.code m)
                (protocolResult_code WRONG_TEST)) as [H1|H1];
    destruct (String.eqb_spec (Message.code m)
                (protocolResult_code WRONG_SYNTAX)) as [H4|H4];
    destruct (String.eqb_spec (Message.code m)
                (protocolResult_code SUCCESS)) as [H2|H2]; simpl.
  all: try (rewrite H3 in *); try (rewrite H0 in *); try (rewrite H1 in *);
    try (rewrite H4 in *); try (rewrite H2 in *); try discriminate.
  all: try (by (apply retry_code; auto)).
  all: try (by (apply abort_code; auto)).
  all: try (by (apply success_code; auto)).
  all: try (by (apply unrecognized_code; auto; intros []; auto)).
  all: intros class H; inversion H as [| | ? ? [?|?] | ? ? [?|?] | |
                                         ? ? Hnone];
    subst; try done; try congruence.
  all: try (by destruct (Hnone WRONG_ME)); try (by destruct (Hnone WRONG_GEN));
    try (by destruct (Hnone WRONG_TEST));
    try (by destruct (Hnone WRONG_SYNTAX));
    try (by destruct (Hnone SUCCESS)).
Qed.

Lemma validateServerResponse_witness :
  validateServerResponse
    {| participants := [{| Participant.uuid := "A" |};
                        {| Participant.uuid := "B" |}] |}
    {| Message.uuid := "B"; Message.code := "2";
       Message.bulkData := bulkMessage |} = OK.
Proof.
  symmetry.
  apply (validateServerResponse_follows_rules "A"
           {| participants := [{| Participant.uuid := "A" |};
                               {| Participant.uuid := "B" |}] |}
           {| Message.uuid := "B"; Message.code := "2";
              Message.bulkData := bulkMessage |}).
  apply success_code; simpl.
  - unfold participant; simpl. right; left; reflexivity.
  - reflexivity.
  - reflexivity.
Defined.

(** *** The server round *)

Section ServerRound.

Variable tape_uuid : string.
Variable t : Test.
Variable roundNumber : N.

Abbreviation step := (serverRound_step tape_uuid t roundNumber).

(** The response to a validation result has the right size. *)
Lemma createMessage_code r :
  createMessage tape_uuid (protocolResult_code r) =
  Value (list_byte_of_string tape_uuid
         ++ list_byte_of_string (protocolResult_code r) ++ bulkMessage).
Proof.
  unfold createMessage, messageLength.
  rewrite !length_app, !length_list_byte_of_string,
    protocolResult_code_length.
  by rewrite Nat.add_assoc, Nat.eqb_refl.
Qed.

(** It carries the local uuid, the code and the canonical payload. *)
Lemma parseMessage_response code :
  String.length code = 1 ->
  parseMessage tape_uuid
    (list_byte_of_string tape_uuid ++ list_byte_of_string code
     ++ bulkMessage) =
  {| Message.uuid := tape_uuid; Message.code := code;
     Message.bulkData := bulkMessage |}.
Proof.
  intros Hcode. unfold parseMessage, slice.
  rewrite Nat.sub_0_r, drop_0.
  rewrite take_app_length' by (by rewrite length_list_byte_of_string).
  rewrite drop_app_length' by (by rewrite length_list_byte_of_string).
  replace (String.length tape_uuid + 1 - String.length tape_uuid)
    with 1 by lia.
  rewrite take_app_length'
    by (by rewrite length_list_byte_of_string).
  rewrite app_assoc, drop_app_length'
    by (rewrite length_app, !length_list_byte_of_string; lia).
  by rewrite !string_of_list_byte_of_string.
Qed.

Lemma endListener_pushes u st :
  validPeersForThisRound (endListener t u st) =
    validPeersForThisRound st ++ [u] /\
  endListeners (endListener t u st) = endListeners st /\
  socketCalls (endListener t u st) = socketCalls st /\
  connectionFlags (endListener t u st) = connectionFlags st /\
  Promise.state (promise (endListener t u st)) =
    if (Z.of_nat (length (validPeersForThisRound st) + 1)
        =? Z.of_nat (length (participants t)) - 1)%Z
    then Promise.settle Promise.Resolved (promise st)
    else Promise.state (promise st).
Proof.
  unfold endListener; simpl. rewrite length_app; simpl.
  by destruct (_ =? _)%Z.
Qed.

(** The listeners of the socket that ended run in turn: each pushes its
    uuid, and the round resolves, if it is pending, at the push that
    brings the array to one less than the participants. *)
Lemma endListeners_run socket listeners : forall st,
  let st' :=
    fold_left
      (fun st' listener =>
         if Nat.eqb (fst listener) socket
         then endListener t (snd listener) st' else st')
      listeners st in
  validPeersForThisRound st' =
    validPeersForThisRound st
    ++ map snd (filter (fun l => fst l = socket) listeners) /\
  endListeners st' = endListeners st /\
  socketCalls st' = socketCalls st /\
  connectionFlags st' = connectionFlags st /\
  (Promise.state (promise st') = Promise.Resolved <->
   Promise.state (promise st) = Promise.Resolved \/
   (Promise.state (promise st) = Promise.Pending /\
    (Z.of_nat (length (validPeersForThisRound st))
     < Z.of_nat (length (participants t)) - 1
     <= Z.of_nat (length (validPeersForThisRound st')))%Z)).
Proof.
  induction listeners as [|[s u] listeners IH]; intros st.
  { simpl. rewrite app_nil_r. repeat split; try tauto.
    intros [?|[_ ?]]; [done|lia]. }
  rewrite filter_cons. cbn [fold_left fst snd].
  destruct (Nat.eqb_spec s socket) as [->|Hne].
  - rewrite decide_True by done.
    specialize (IH (endListener t u st)). cbv zeta in *.
    set (st' := fold_left _ listeners (endListener t u st)) in *.
    destruct (endListener_pushes u st) as (Ev & El & Ec & Ef & Ep).
    destruct IH as (Hv & Hl & Hc & Hf & Hp).
    rewrite Ev in Hv, Hp. rewrite El in Hl. rewrite Ec in Hc.
    rewrite Ef in Hf.
    rewrite Ep in Hp. rewrite length_app in Hp. simpl in Hp.
    assert (Hlen : length (validPeersForThisRound st) + 1
                   <= length (validPeersForThisRound st'))
      by (rewrite Hv, !length_app; simpl; lia).
    split; [by rewrite Hv, <- app_assoc|]. split; [done|]. split; [done|].
    split; [done|].
    rewrite Hp. clear Hp Hv Hl Hc Hf Ev El Ec Ef Ep.
    unfold Promise.settle.
    destruct (Z.eqb_spec
                (Z.of_nat (length (validPeersForThisRound st) + 1))
                (Z.of_nat (length (participants t)) - 1));
      destruct (Promise.state (promise st));
      split; intros H; try done; try (left; done);
      try (destruct H as [H|[H H']]; try done; try lia);
      try (right; split; [done|lia]).
  - rewrite decide_False by done. apply IH.
Qed.

(** The handler of [connectionDiesClean] for ['end'] passes on a socket
    that has emitted neither ['end'] nor ['error']. *)
Lemma diesClean_end st socket :
  diesClean st socket ConnectionEvents.SocketEnd =
  negb (ConnectionEvents.endFired (flagsOf st socket))
  && negb (ConnectionEvents.errorFired (flagsOf st socket)).
Proof.
  unfold diesClean.
  destruct (flagsOf st socket) as [[] [] closed failed]; cbn;
    rewrite ?length_app; cbn;
    try (apply Nat.eqb_neq; lia); apply Nat.eqb_refl.
Qed.

(** The ['end'] listeners a step adds, and the uuids it pushes. *)
Lemma step_endListeners st input :
  endListeners (step st input) =
  endListeners st ++
  match input with
  | MessageRead socket dataBuffer =>
      match validateRequest tape_uuid t roundNumber
              (parseMessage tape_uuid dataBuffer) with
      | SUCCESS =>
          [(socket, Message.uuid (parseMessage tape_uuid dataBuffer))]
      | _ => []
      end
  | _ => []
  end.
Proof.
  destruct input
    as [socket dataBuffer|socket err|socket|socket|socket|socket| |[err|]];
    simpl; rewrite ?app_nil_r; try done.
  - rewrite createMessage_code.
    destruct (validateRequest _ _ _ _); simpl; by rewrite ?app_nil_r.
  - by destruct (existsb _ _).
  - destruct (diesClean _ _ _); [|done].
    by destruct (endListeners_run socket (endListeners st)
                   (connectionHandler socket ConnectionEvents.SocketEnd st))
      as (_ & -> & _).
Qed.

Lemma step_validPeers st input :
  validPeersForThisRound (step st input) =
  validPeersForThisRound st ++
  match input with
  | SocketEnded socket =>
      if diesClean st socket ConnectionEvents.SocketEnd
      then map snd (filter (fun l => fst l = socket) (endListeners st))
      else []
  | _ => []
  end.
Proof.
  destruct input
    as [socket dataBuffer|socket err|socket|socket|socket|socket| |[err|]];
    simpl; rewrite ?app_nil_r; try done.
  - rewrite createMessage_code.
    by destruct (validateRequest _ _ _ _).
  - by destruct (existsb _ _).
  - destruct (diesClean _ _ _); [|by rewrite app_nil_r].
    by destruct (endListeners_run socket (endListeners st)
                   (connectionHandler socket ConnectionEvents.SocketEnd st))
      as (-> & _).
Qed.

(** The promise of the round over a step. *)
Lemma step_promise st input :
  Promise.state (promise (step st input)) = Promise.Resolved <->
  Promise.state (promise st) = Promise.Resolved \/
  (Promise.state (promise st) = Promise.Pending /\
   (Z.of_nat (length (validPeersForThisRound st))
    < Z.of_nat (length (participants t)) - 1
    <= Z.of_nat (length (validPeersForThisRound (step st input))))%Z).
Proof.
  destruct input
    as [socket dataBuffer|socket err|socket|socket|socket|socket| |[err|]];
    simpl.
  - rewrite createMessage_code.
    destruct (validateRequest _ _ _ _); simpl;
      (split; [tauto|intros [?|[_ ?]]; [done|lia]]).
  - split; [tauto|intros [?|[_ ?]]; [done|lia]].
  - destruct (existsb _ _); simpl;
      (split; [tauto|intros [?|[_ ?]]; [done|lia]]).
  - destruct (diesClean _ _ _).
    + by destruct (endListeners_run socket (endListeners st)
                     (connectionHandler socket ConnectionEvents.SocketEnd
                        st)) as (_ & _ & _ & _ & Hp).
    + simpl. split; [tauto|intros [?|[_ ?]]; [done|lia]].
  - split; [tauto|intros [?|[_ ?]]; [done|lia]].
  - split; [tauto|intros [?|[_ ?]]; [done|lia]].
  - unfold Promise.settle.
    destruct (Promise.state (promise st));
      (split; [try done; tauto|intros [?|[? ?]]; [done|lia]]).
  - unfold Promise.settle.
    destruct (Promise.state (promise st));
      (split; [try done; tauto|intros [?|[? ?]]; [done|lia]]).
  - split; [tauto|intros [?|[_ ?]]; [done|lia]].
Qed.

(** Every ['end'] listener was put on its socket for a message that
    validated as SUCCESS, and holds the uuid of that message. *)
Lemma endListeners_validated inputs :
  Forall
    (fun listener =>
       exists dataBuffer,
         In (MessageRead (fst listener) dataBuffer) inputs /\
         validateRequest tape_uuid t roundNumber
           (parseMessage tape_uuid dataBuffer) = SUCCESS /\
         Message.uuid (parseMessage tape_uuid dataBuffer) = snd listener)
    (endListeners (serverRound_run tape_uuid t roundNumber inputs)).
Proof.
  induction inputs as [|input inputs IH] using rev_ind; [by constructor|].
  unfold serverRound_run in *. rewrite fold_left_app; simpl.
  rewrite step_endListeners. apply Forall_app. split.
  - eapply Forall_impl; [exact IH|]. intros listener (buf & Hin & Hok).
    exists buf. split; [|done]. apply in_or_app. by left.
  - destruct input as [socket dataBuffer| | | | | | |]; try by constructor.
    destruct (validateRequest _ _ _ _) eqn:Hvalid; try by constructor.
    constructor; [|by constructor]. exists dataBuffer; simpl.
    split; [|done]. apply in_or_app. right. by left.
Qed.

(** A connection whose message cannot be read is answered by a line in
    the log only. *)
Lemma read_failure_only_logs st socket err :
  let st' := step st (MessageReadFailed socket err) in
  socketCalls st' = socketCalls st /\
  validPeersForThisRound st' = validPeersForThisRound st /\
  promise st' = promise st /\
  endListeners st' = endListeners st /\
  debugLog st' =
    debugLog st ++ ["Got a non-fatal error in server " +:+ err].
Proof. done. Qed.

(** The variables of [connectionDiesClean] over a step. *)
Lemma step_connectionFlags st input :
  connectionFlags (step st input) =
  match input with
  | SocketEnded socket =>
      <[socket := ConnectionEvents.handle (flagsOf st socket)
                    ConnectionEvents.SocketEnd]> (connectionFlags st)
  | SocketErrored socket =>
      <[socket := ConnectionEvents.handle (flagsOf st socket)
                    ConnectionEvents.SocketError]> (connectionFlags st)
  | SocketClosed socket =>
      <[socket := ConnectionEvents.handle (flagsOf st socket)
                    ConnectionEvents.SocketClose]> (connectionFlags st)
  | _ => connectionFlags st
  end.
Proof.
  destruct input
    as [socket dataBuffer|socket err|socket|socket|socket|socket| |[err|]];
    simpl; try done.
  - rewrite createMessage_code.
    by destruct (validateRequest _ _ _ _).
  - by destruct (existsb _ _).
  - destruct (diesClean _ _ _); [|done].
    by destruct (endListeners_run socket (endListeners st)
                   (connectionHandler socket ConnectionEvents.SocketEnd st))
      as (_ & _ & _ & -> & _).
Qed.

(** A settled promise of the round stays as it is. *)
Lemma step_promise_settled st input :
  Promise.state (promise st) <> Promise.Pending ->
  Promise.state (promise (step st input)) = Promise.state (promise st).
Proof.
  intros Hsettled.
  assert (Hlisteners : forall socket listeners st0,
    Promise.state (promise st0) <> Promise.Pending ->
    Promise.state
      (promise
         (fold_left
            (fun st' listener =>
               if Nat.eqb (fst listener) socket
               then endListener t (snd listener) st' else st')
            listeners st0)) = Promise.state (promise st0)).
  { intros socket listeners.
    induction listeners as [|[s u] listeners IH]; intros st0 Hst0; [done|].
    cbn [fold_left fst snd]. destruct (Nat.eqb s socket); [|by apply IH].
    assert (Hsame : Promise.state (promise (endListener t u st0)) =
                    Promise.state (promise st0)).
    { destruct (endListener_pushes u st0) as (_ & _ & _ & _ & ->).
      destruct (_ =? _)%Z; [|done]. unfold Promise.settle.
      by destruct (Promise.state (promise st0)). }
    rewrite IH; by rewrite Hsame. }
  destruct input
    as [socket dataBuffer|socket err|socket|socket|socket|socket| |[err|]];
    simpl; try done.
  - rewrite createMessage_code.
    by destruct (validateRequest _ _ _ _).
  - by destruct (existsb _ _).
  - destruct (diesClean _ _ _); [|done]. by rewrite Hlisteners.
  - unfold Promise.settle. by destruct (Promise.state (promise st)).
  - unfold Promise.settle. by destruct (Promise.state (promise st)).
Qed.

(** C8, as the code has it.  When the message of a connection is read,
    the server writes a response that parses to its own uuid, the code of
    the validation result and the canonical payload, and calls
    [socket.end()] when the write has been flushed; the step pushes no
    uuid and leaves the promise, and puts an ['end'] listener on the
    socket only for SUCCESS.  Over any run, every ['end'] listener belongs
    to a message validated as SUCCESS; a step pushes uuids only when a
    socket ends that has emitted neither ['end'] nor ['error'] before,
    those of the listeners of that socket.  And as long as no uuid is in
    the array twice, the promise of the round becomes resolved in a step
    exactly when it was pending and the pushes of the step bring the set
    of the validated uuids to [participants.length - 1] entries. *)
Theorem serverRound_answers_then_counts_validated_peers :
  (forall st socket dataBuffer,
     let parsedMessage := parseMessage tape_uuid dataBuffer in
     let validationResult :=
       validateRequest tape_uuid t roundNumber parsedMessage in
     let st' := step st (MessageRead socket dataBuffer) in
     exists response,
       parseMessage tape_uuid response =
         {| Message.uuid := tape_uuid;
            Message.code := protocolResult_code validationResult;
            Message.bulkData := bulkMessage |} /\
       socketCalls st' = socketCalls st ++ [(socket, Write response)] /\
       socketCalls (step st' (WriteFlushed socket)) =
         socketCalls st
         ++ [(socket, Write response); (socket, EndCall)] /\
       validPeersForThisRound st' = validPeersForThisRound st /\
       promise st' = promise st /\
       endListeners st' =
         endListeners st ++
         match validationResult with
         | SUCCESS => [(socket, Message.uuid parsedMessage)]
         | _ => []
         end) /\
  (forall inputs,
     Forall
       (fun listener =>
          exists dataBuffer,
            In (MessageRead (fst listener) dataBuffer) inputs /\
            validateRequest tape_uuid t roundNumber
              (parseMessage tape_uuid dataBuffer) = SUCCESS /\
            Message.uuid (parseMessage tape_uuid dataBuffer)
              = snd listener)
       (endListeners (serverRound_run tape_uuid t roundNumber inputs))) /\
  (forall st input,
     let st' := step st input in
     let validated (st : ServerRound) : gset string :=
       list_to_set (validPeersForThisRound st) in
     validPeersForThisRound st' =
       validPeersForThisRound st ++
       match input with
       | SocketEnded socket =>
           if negb (ConnectionEvents.endFired (flagsOf st socket))
              && negb (ConnectionEvents.errorFired (flagsOf st socket))
           then map snd (filter (fun l => fst l = socket) (endListeners st))
           else []
       | _ => []
       end /\
     (List.NoDup (validPeersForThisRound st') ->
      (Promise.state (promise st') = Promise.Resolved <->
       Promise.state (promise st) = Promise.Resolved \/
       (Promise.state (promise st) = Promise.Pending /\
        (Z.of_nat (size (validated st))
         < Z.of_nat (length (participants t)) - 1
         <= Z.of_nat (size (validated st')))%Z)))).
Proof.
  split; [|split].
  - intros st socket dataBuffer parsedMessage validationResult st'.
    exists (list_byte_of_string tape_uuid
            ++ list_byte_of_string (protocolResult_code validationResult)
            ++ bulkMessage).
    split; [apply parseMessage_response, protocolResult_code_length|].
    assert (Hcalls : socketCalls st' =
              socketCalls st
              ++ [(socket,
                   Write (list_byte_of_string tape_uuid
                          ++ list_byte_of_string
                               (protocolResult_code validationResult)
                          ++ bulkMessage))]).
    { subst st'; simpl. fold parsedMessage. fold validationResult.
      rewrite createMessage_code. by destruct validationResult. }
    assert (Hpending : existsb (Nat.eqb socket) (writeCallbacks st')
                       = true).
    { subst st'; simpl. fold parsedMessage. fold validationResult.
      rewrite createMessage_code. apply existsb_exists. exists socket.
      split; [|apply Nat.eqb_refl].
      destruct validationResult; simpl; apply in_or_app; right; by left. }
    split; [done|]. split.
    { simpl. rewrite Hpending; simpl. rewrite Hcalls.
      by rewrite <- app_assoc. }
    split; [|split].
    + subst st'. rewrite step_validPeers. by rewrite app_nil_r.
    + subst st'; simpl. fold parsedMessage. fold validationResult.
      rewrite createMessage_code. by destruct validationResult.
    + subst st'. by rewrite step_endListeners.
  - apply endListeners_validated.
  - intros st input st' validated. split.
    { subst st'. rewrite step_validPeers.
      destruct input; try done. by rewrite diesClean_end. }
    intros Hnodup.
    assert (Hnodup' : List.NoDup (validPeersForThisRound st)).
    { subst st'. rewrite step_validPeers in Hnodup.
      by apply List.NoDup_app_remove_r in Hnodup. }
    subst validated. cbv beta.
    apply NoDup_ListNoDup in Hnodup, Hnodup'.
    rewrite !size_list_to_set by done.
    apply step_promise.
Qed.

End ServerRound.

End RoundProtocolFacts.

(** ** The peer identifier *)

Module PeerIdentifierFacts.

Import PeerIdentifier.

Lemma append_nil_l s : EmptyString +:+ s = s.
Proof. reflexivity. Qed.

Lemma append_cons c s1 s2 : String c s1 +:+ s2 = String c (s1 +:+ s2).
Proof. reflexivity. Qed.

Lemma append_nil_r s : s +:+ EmptyString = s.
Proof.
  induction s as [|c s IH]; [done|]. by rewrite append_cons, IH.
Qed.

Lemma append_assoc s1 s2 s3 : (s1 +:+ s2) +:+ s3 = s1 +:+ (s2 +:+ s3).
Proof.
  induction s1 as [|c s1 IH]; [done|]. by rewrite !append_cons, IH.
Qed.

(** A stretch without separator is read into the current subsequence. *)
Lemma splitFrom_no_colon s : forall subSequence rest,
  noColon s = true ->
  splitFrom (Ascii.eqb ":") subSequence (s +:+ rest) =
  splitFrom (Ascii.eqb ":") (subSequence +:+ s) rest.
Proof.
  induction s as [|c s IH]; intros subSequence rest Hs.
  - by rewrite append_nil_l, append_nil_r.
  - cbn [noColon] in Hs. apply andb_prop in Hs as [Hc Hs].
    apply negb_true_iff in Hc. rewrite append_cons. cbn [splitFrom].
    rewrite Hc, IH by done.
    by rewrite append_assoc, append_cons, append_nil_l.
Qed.

Lemma split_two part0 part1 :
  part0 <> EmptyString -> part1 <> EmptyString ->
  noColon part0 = true -> noColon part1 = true ->
  split (Ascii.eqb ":") (part0 +:+ ":" +:+ part1) = [part0; part1].
Proof.
  intros Hne0 Hne1 Hc0 Hc1. unfold split.
  rewrite splitFrom_no_colon by done.
  rewrite append_nil_l, append_cons, append_nil_l. cbn [splitFrom].
  change (Ascii.eqb ":" ":") with true. cbv iota.
  destruct part0 as [|c0 part0]; [done|].
  rewrite <- (append_nil_r part1) at 1.
  rewrite splitFrom_no_colon by done.
  rewrite append_nil_l. cbn [splitFrom].
  by destruct part1.
Qed.

(** Digits. *)
Lemma digit_cases (d : N) :
  (d < 16)%N ->
  d = 0%N \/ d = 1%N \/ d = 2%N \/ d = 3%N \/ d = 4%N \/ d = 5%N \/
  d = 6%N \/ d = 7%N \/ d = 8%N \/ d = 9%N \/ d = 10%N \/ d = 11%N \/
  d = 12%N \/ d = 13%N \/ d = 14%N \/ d = 15%N.
Proof. lia. Qed.

Lemma digitValue_digitChar d :
  (d < 16)%N ->
  digitValue (digitChar d) = Some d /\
  Ascii.eqb ":" (digitChar d) = false /\
  digitChar d <> "-"%char /\ digitChar d <> "+"%char.
Proof.
  intros Hd. destruct (digit_cases d Hd) as
    [->|[->|[->|[->|[->|[->|[->|[->|[->|[->|[->|[->|[->|[->|[->| ->]]]]]]]]]]]]]]];
    by vm_compute.
Qed.

Lemma mod_16_digit (value : N) : (value mod 16 < 16)%N.
Proof. apply N.mod_lt. lia. Qed.

(** Reading the digits of a value gives the value back. *)
Lemma parseDigits_toDigits fuel : forall value suffix,
  (value < 16 ^ N.of_nat fuel)%N ->
  parseDigits (toDigits fuel value suffix) 0 = parseDigits suffix value.
Proof.
  induction fuel as [|fuel IH]; intros value suffix Hvalue.
  - simpl in *. by replace value with 0%N by lia.
  - cbn [toDigits].
    destruct (digitValue_digitChar (value mod 16) (mod_16_digit value))
      as (Hdigit & _).
    pose proof (N.div_mod value 16 ltac:(lia)) as Hdivmod.
    destruct (N.eqb_spec (value / 16) 0) as [Hzero|Hmore].
    + simpl. rewrite Hdigit. f_equal. lia.
    + rewrite IH.
      * simpl. rewrite Hdigit. f_equal. lia.
      * rewrite Nat2N.inj_succ, N.pow_succ_r' in Hvalue.
        apply N.Div0.div_lt_upper_bound. lia.
Qed.

Lemma toDigits_head fuel : forall value suffix,
  exists d rest,
    (d < 16)%N /\
    toDigits (S fuel) value suffix = String (digitChar d) rest.
Proof.
  induction fuel as [|fuel IH]; intros value suffix.
  - exists (value mod 16)%N, suffix. split; [apply mod_16_digit|].
    simpl. by destruct (_ =? _)%N.
  - cbn [toDigits]. destruct (value / 16 =? 0)%N.
    + exists (value mod 16)%N, suffix. split; [apply mod_16_digit|done].
    + apply IH.
Qed.

Lemma toDigits_noColon fuel : forall value suffix,
  noColon suffix = true -> noColon (toDigits fuel value suffix) = true.
Proof.
  induction fuel as [|fuel IH]; intros value suffix Hsuffix; [done|].
  cbn [toDigits].
  assert (Hcons : noColon (String (digitChar (value mod 16)) suffix) = true).
  { cbn [noColon].
    destruct (digitValue_digitChar _ (mod_16_digit value)) as (_ & -> & _).
    done. }
  destruct (value / 16 =? 0)%N; [done|]. by apply IH.
Qed.

Lemma toDigits_lowerHex fuel : forall value suffix,
  lowerHex suffix = true -> lowerHex (toDigits fuel value suffix) = true.
Proof.
  induction fuel as [|fuel IH]; intros value suffix Hsuffix; [done|].
  cbn [toDigits].
  assert (Hcons : lowerHex (String (digitChar (value mod 16)) suffix) = true).
  { cbn [lowerHex].
    destruct (digitValue_digitChar _ (mod_16_digit value)) as (-> & _).
    by rewrite Ascii.eqb_refl. }
  destruct (value / 16 =? 0)%N; [done|]. by apply IH.
Qed.

(** [Int(String(value, radix: 16), radix: 16)] for a value that is not
    negative. *)
Lemma Int_radix16_String_radix16 value :
  (0 <= value <= Int_max)%Z ->
  Int_radix16 (String_radix16 value) = Some value.
Proof.
  intros Hrange. unfold String_radix16.
  destruct (Z.ltb_spec value 0) as [Hneg|_]; [lia|].
  destruct (toDigits_head 15 (Z.to_N value) EmptyString)
    as (d & rest & Hd & Hhead).
  destruct (digitValue_digitChar d Hd) as (_ & _ & Hminus & Hplus).
  pose proof (parseDigits_toDigits 16 (Z.to_N value) EmptyString) as Hparse.
  unfold Int_radix16. rewrite Hhead in *.
  assert (Hsign :
    match String (digitChar d) rest with
    | String "-" rest0 => (rest0, true)
    | String "+" rest0 => (rest0, false)
    | _ => (String (digitChar d) rest, false)
    end = (String (digitChar d) rest, false)).
  { destruct (digitChar d) as [[] [] [] [] [] [] [] []]; try done. }
  rewrite Hsign. unfold parseUnsigned. rewrite Hparse.
  - simpl. rewrite Z2N.id by lia.
    destruct (Z.leb_spec Int_min value), (Z.leb_spec value Int_max);
      simpl; try done; unfold Int_min in *; lia.
  - change (16 ^ N.of_nat 16)%N with 18446744073709551616%N.
    unfold Int_max in Hrange. lia.
Qed.

(** C9, as the code has it.  For a peer identifier whose uuid is not
    empty and holds no [":"] and whose generation is between 0 and
    [Int.max]: [stringValue] is the uuid, [":"] and the generation in
    lower-case digits of radix 16; [init(stringValue:)] of it succeeds
    and gives the identifier back; [nextGenerationPeer()] gives the same
    uuid with the generation plus one when the generation is below
    [Int.max], and no identifier at [Int.max]. *)
Theorem stringValue_round_trip p :
  uuid p <> EmptyString ->
  noColon (uuid p) = true ->
  (0 <= generation p <= Int_max)%Z ->
  exists digits,
    stringValue p = uuid p +:+ ":" +:+ digits /\
    digits <> EmptyString /\
    lowerHex digits = true /\
    parseUnsigned digits = Some (Z.to_N (generation p)) /\
    init_stringValue (stringValue p) = inr p /\
    nextGenerationPeer p =
      if (generation p <? Int_max)%Z
      then Some {| uuid := uuid p; generation := generation p + 1 |}
      else None.
Proof.
  intros Huuid Hcolon Hrange.
  pose proof (Int_radix16_String_radix16 _ Hrange) as Hint.
  unfold stringValue, String_radix16 in *.
  destruct (Z.ltb_spec (generation p) 0) as [Hneg|_]; [lia|].
  set (digits := toDigits 16 (Z.to_N (generation p)) EmptyString) in *.
  assert (Hne : digits <> EmptyString).
  { destruct (toDigits_head 15 (Z.to_N (generation p)) EmptyString)
      as (d & rest & _ & Hhead).
    subst digits. by rewrite Hhead. }
  exists digits. split; [done|]. split; [done|].
  split; [by apply toDigits_lowerHex|]. split.
  - unfold parseUnsigned. destruct digits eqn:Hdigits; [done|].
    rewrite <- Hdigits. subst digits.
    rewrite parseDigits_toDigits; [done|].
    change (16 ^ N.of_nat 16)%N with 18446744073709551616%N.
    unfold Int_max in Hrange. lia.
  - split.
    + unfold init_stringValue.
      rewrite split_two by (done || by apply toDigits_noColon).
      simpl. rewrite Hint. by destruct p.
    + unfold nextGenerationPeer.
      destruct (Z.leb_spec (generation p + 1) Int_max),
        (Z.ltb_spec (generation p) Int_max); try done; lia.
Qed.

Lemma stringValue_round_trip_witness :
  exists digits,
    stringValue {| uuid := "F6C3-01"; generation := 26 |} =
      "F6C3-01" +:+ ":" +:+ digits /\
    digits <> EmptyString /\
    lowerHex digits = true /\
    parseUnsigned digits = Some 26%N /\
    init_stringValue (stringValue {| uuid := "F6C3-01"; generation := 26 |})
      = inr {| uuid := "F6C3-01"; generation := 26 |} /\
    nextGenerationPeer {| uuid := "F6C3-01"; generation := 26 |} =
      Some {| uuid := "F6C3-01"; generation := 27 |}.
Proof.
  apply (stringValue_round_trip {| uuid := "F6C3-01"; generation := 26 |}).
  - discriminate.
  - reflexivity.
  - unfold Int_max; simpl; lia.
Defined.

(** C9, as it is stated, fails.  The identifier with the empty uuid and
    generation 0 has no [":"] in its uuid; its [stringValue] is [":0"],
    which [init(stringValue:)] refuses, the empty part being omitted by
    [split].  The identifier that [init(stringValue:)] reads from
    ["A:7fffffffffffffff"] has generation [Int.max], and its
    [nextGenerationPeer()] returns no identifier. *)
Lemma round_trip_fails_on_empty_uuid_and_next_on_Int_max :
  (let p := {| uuid := EmptyString; generation := 0 |} in
   noColon (uuid p) = true /\ (0 <= generation p)%Z /\
   stringValue p = ":0" /\
   init_stringValue (stringValue p) = inl WrongDataFormat) /\
  (let p := {| uuid := "A"; generation := Int_max |} in
   noColon (uuid p) = true /\ (0 <= generation p)%Z /\
   init_stringValue "A:7fffffffffffffff" = inr p /\
   stringValue p = "A:7fffffffffffffff" /\
   nextGenerationPeer p = None).
Proof. by vm_compute. Qed.

End PeerIdentifierFacts.

(** ** The notification server over a series of operations *)

Module NotificationServerOpsFacts.

Import Promise NotificationServer NotificationServerOps PromiseFacts.
Import NotificationServerFacts.

Section Ops.

Variable ECDH : Type.
Variable generate : list PublicKey -> ECDH -> Z -> Error + Buffer.

Abbreviation start := (NotificationServer.start ECDH generate).
Abbreviation stop := (NotificationServer.stop ECDH).
Abbreviation performAll := (NotificationServerOps.performAll ECDH generate).

(** The server object after a [start], by the way the operation went. *)
Lemma start_self publicKeysToNotify transport srv :
  self ECDH (start publicKeysToNotify transport srv) =
  match publicKeysToNotify with
  | NotAnArray => srv
  | KeysArray [] =>
      let cleared := setPreambleAndBeacons ECDH None srv in
      if _firstStartCall ECDH srv
      then registerNotificationPath ECDH cleared else cleared
  | KeysArray keys =>
      match generate keys (_ecdhForLocalDevice ECDH srv)
              (_millisecondsUntilExpiration ECDH srv) with
      | inl _ => srv
      | inr blob =>
          let replaced := setPreambleAndBeacons ECDH (Some blob) srv in
          if _firstStartCall ECDH srv
          then registerNotificationPath ECDH replaced else replaced
      end
  end.
Proof.
  unfold NotificationServer.start.
  destruct publicKeysToNotify as [|[|k keys]]; [done| |].
  - simpl. destruct (_firstStartCall ECDH srv); simpl;
      destruct (_preambleAndBeacons ECDH srv); simpl;
      destruct transport; done.
  - change (0 <? length (k :: keys))%nat with true. cbv iota.
    destruct (forEach_checkPublicKey ECDH (k :: keys) (enqueued ECDH srv))
      as (Hs & _ & _).
    rewrite Hs. change (self ECDH (enqueued ECDH srv)) with srv.
    destruct (generate _ _ _) as [error|blob]; cbv zeta iota.
    + simpl in *. done.
    + set (w1 := fold_left (checkPublicKey ECDH) (k :: keys)
                   (enqueued ECDH srv)) in *.
      change (_firstStartCall ECDH
                (self ECDH
                   (withSelf ECDH (setPreambleAndBeacons ECDH (Some blob)) w1)))
        with (_firstStartCall ECDH (self ECDH w1)).
      rewrite Hs. change (self ECDH (enqueued ECDH srv)) with srv.
      destruct (_firstStartCall ECDH srv); simpl;
        destruct transport; simpl; rewrite Hs; done.
Qed.

Lemma perform_registeredOnce op srv :
  registeredOnce ECDH srv ->
  registeredOnce ECDH (self ECDH (perform ECDH generate op srv)).
Proof.
  unfold registeredOnce. intros Hsrv. destruct op as [arg transport|transport].
  - simpl. rewrite start_self.
    destruct arg as [|[|k keys]]; [done| |].
    + cbv zeta. destruct (_firstStartCall ECDH srv) eqn:Hfirst; simpl;
        rewrite ?Hfirst; congruence.
    + destruct (generate _ _ _); [done|]. cbv zeta.
      destruct (_firstStartCall ECDH srv) eqn:Hfirst; simpl;
        rewrite ?Hfirst; congruence.
  - simpl. destruct transport; done.
Qed.

Lemma performAll_registeredOnce ops : forall srv,
  registeredOnce ECDH srv -> registeredOnce ECDH (performAll ops srv).
Proof.
  induction ops as [|op ops IH]; intros srv Hsrv; [done|].
  simpl. apply IH. by apply perform_registeredOnce.
Qed.

(** X1.  Whatever series of [start] and [stop] calls a new server has run,
    with whatever arguments and transport results, the GET handler is on
    the router at most once: not at all while [_firstStartCall] is set, and
    once afterwards. *)
Theorem handler_registered_once ops ecdhForLocalDevice ms :
  let srv := performAll ops (new ECDH ecdhForLocalDevice ms) in
  _routerGets ECDH srv = (if _firstStartCall ECDH srv then 0 else 1) /\
  _routerGets ECDH srv <= 1.
Proof.
  intros srv.
  assert (Hsrv : registeredOnce ECDH srv)
    by (by apply performAll_registeredOnce).
  unfold registeredOnce in Hsrv. split; [done|].
  rewrite Hsrv. destruct (_firstStartCall ECDH srv); lia.
Qed.

(** The promise and the transport calls of a [start], by the way the
    operation went. *)
Lemma start_outcome publicKeysToNotify transport srv :
  let w := start publicKeysToNotify transport srv in
  match publicKeysToNotify with
  | NotAnArray =>
      state (promise ECDH w) = Rejected bad_public_keys /\
      refreshCalls ECDH w = 0
  | KeysArray [] =>
      state (promise ECDH w) = Resolved /\
      refreshCalls ECDH w =
        if notNull (_preambleAndBeacons ECDH srv) then 1 else 0
  | KeysArray keys =>
      match generate keys (_ecdhForLocalDevice ECDH srv)
              (_millisecondsUntilExpiration ECDH srv) with
      | inl error =>
          state (promise ECDH w) =
            Rejected (if existsb malformed keys then bad_public_keys
                      else error) /\
          refreshCalls ECDH w = 0
      | inr blob =>
          state (promise ECDH w) =
            (if existsb malformed keys then Rejected bad_public_keys
             else Resolved) /\
          refreshCalls ECDH w = 1
      end
  end.
Proof.
  cbv zeta.
  destruct publicKeysToNotify as [|[|k keys]]; [done| |].
  - split; [|apply start_refreshCalls_empty].
    unfold NotificationServer.start; simpl.
    destruct (_firstStartCall ECDH srv); simpl;
      destruct (_preambleAndBeacons ECDH srv); simpl;
      destruct transport; done.
  - destruct (generate _ _ _) as [error|blob] eqn:Hgen.
    + unfold NotificationServer.start.
      change (0 <? length (k :: keys))%nat with true. cbv iota.
      destruct (forEach_checkPublicKey ECDH (k :: keys) (enqueued ECDH srv))
        as (Hs & Hr & Hp).
      rewrite Hs. change (self ECDH (enqueued ECDH srv)) with srv.
      rewrite Hgen. cbv zeta iota. split; [|by simpl in *].
      simpl in *. unfold settle. rewrite Hp.
      destruct (malformed k || existsb malformed keys); done.
    + split; [|by eapply start_refreshCalls_generated].
      destruct (existsb malformed (k :: keys)) eqn:Hbad.
      * by destruct (start_malformed_key_goes_on_to_generate ECDH generate
                       k keys transport srv blob Hbad Hgen).
      * unfold NotificationServer.start.
        change (0 <? length (k :: keys))%nat with true. cbv iota.
        destruct (forEach_checkPublicKey ECDH (k :: keys) (enqueued ECDH srv))
          as (Hs & Hr & Hp).
        rewrite Hbad in Hp.
        rewrite Hs. change (self ECDH (enqueued ECDH srv)) with srv.
        rewrite Hgen. cbv zeta iota.
        set (w1 := fold_left (checkPublicKey ECDH) (k :: keys)
                     (enqueued ECDH srv)) in *.
        change (_firstStartCall ECDH
                  (self ECDH
                     (withSelf ECDH (setPreambleAndBeacons ECDH (Some blob))
                        w1)))
          with (_firstStartCall ECDH (self ECDH w1)).
        destruct (_firstStartCall ECDH (self ECDH w1)); simpl;
          destruct transport; simpl;
          rewrite settle_settled by apply settled_resolve;
          simpl; unfold settle; rewrite Hp; done.
Qed.

(** How the promise of [start] ends up. *)
Lemma start_settled_cases publicKeysToNotify transport srv :
  let w := start publicKeysToNotify transport srv in
  state (promise ECDH w) <> Pending /\
  (state (promise ECDH w) = Resolved <->
   exists keys,
     publicKeysToNotify = KeysArray keys /\
     existsb malformed keys = false /\
     (keys = [] \/
      exists blob,
        generate keys (_ecdhForLocalDevice ECDH srv)
          (_millisecondsUntilExpiration ECDH srv) = inr blob)).
Proof.
  pose proof (start_outcome publicKeysToNotify transport srv) as Hout.
  cbv zeta in *.
  destruct publicKeysToNotify as [|[|k keys]].
  - destruct Hout as [-> _]. split; [done|].
    split; [done|]. by intros (keys & ? & _).
  - destruct Hout as [-> _]. split; [done|].
    split; [|done]. intros _. exists []. auto.
  - destruct (generate _ _ _) as [error|blob] eqn:Hgen;
      destruct Hout as [-> _].
    + split; [done|]. split; [done|].
      intros (keys' & [= <-] & _ & [?|[blob Hblob]]); [done|congruence].
    + destruct (existsb malformed (k :: keys)) eqn:Hbad.
      * split; [done|]. split; [done|].
        intros (keys' & [= <-] & ? & _). congruence.
      * split; [done|]. split; [|done]. intros _.
        exists (k :: keys). eauto.
Qed.

(** X2.  The promise of [start] is settled when the operation and the
    callbacks of its transport call have run, whatever the argument, the
    server and the transport result; it is resolved exactly for an array
    without malformed key that is empty or for which the generation of
    beacons succeeds. *)
Theorem start_settles publicKeysToNotify transport srv :
  let w := start publicKeysToNotify transport srv in
  state (promise ECDH w) <> Pending /\
  (state (promise ECDH w) = Resolved <->
   exists keys,
     publicKeysToNotify = KeysArray keys /\
     existsb malformed keys = false /\
     (keys = [] \/
      exists blob,
        generate keys (_ecdhForLocalDevice ECDH srv)
          (_millisecondsUntilExpiration ECDH srv) = inr blob)).
Proof. apply start_settled_cases. Qed.



(** X5.  On a server that has run any series of operations, [stop] clears
    the beacons whatever the transport answers, calls
    [stopAdvertisingAndListening] once and never
    [startUpdateAdvertisingAndListening], and settles its promise as the
    transport call did.  It does not register the GET handler: a GET
    afterwards is answered with 204 when a [start] had gone through and is
    not answered by this server otherwise.  A [start([])] that follows
    makes no transport call. *)
Theorem stop_clears_beacons ops ecdhForLocalDevice ms transport :
  let srv := performAll ops (new ECDH ecdhForLocalDevice ms) in
  let w := stop transport srv in
  _preambleAndBeacons ECDH (self ECDH w) = None /\
  stopCalls ECDH w = 1 /\ refreshCalls ECDH w = 0 /\
  state (promise ECDH w) =
    match transport with None => Resolved | Some error => Rejected error end /\
  GET ECDH (self ECDH w) =
    (if _firstStartCall ECDH srv then None else Some noContent) /\
  (forall transport',
     refreshCalls ECDH (start (KeysArray []) transport' (self ECDH w)) = 0).
Proof.
  intros srv w. subst w.
  assert (Hreg : registeredOnce ECDH srv)
    by (by apply performAll_registeredOnce).
  unfold registeredOnce in Hreg.
  split; [by destruct transport|]. split; [by destruct transport|].
  split; [by destruct transport|]. split; [by destruct transport|].
  split.
  - unfold GET, getBeaconNotifications, NotificationServer.stop.
    destruct transport; simpl; rewrite Hreg;
      by destruct (_firstStartCall ECDH srv).
  - intros transport'. rewrite start_refreshCalls_empty.
    by destruct transport.
Qed.

End Ops.



End NotificationServerOpsFacts.

(** ** The quit signal over a series of calls *)

Module QuitSignalRunsFacts.

Import QuitSignal QuitSignalRuns QuitSignalFacts.

Lemma visited_snoc slots r fields :
  visited (slots ++ [Some (r, fields)]) = visited slots ++ [fields].
Proof. unfold visited. by rewrite omap_app. Qed.

(** On a raised signal no call changes the heap. *)
Lemma perform_raised call h :
  raised (signal h) = true -> snd (run (perform call) h) = h.
Proof.
  intros Hraised.
  destruct call; simpl;
    [ unfold run, addCancelCall | unfold run, addTimeout
    | unfold run, removeTimeout | by rewrite raiseSignal_again ];
    unfold mbind, M_bind, this, assert; by rewrite Hraised.
Qed.

Lemma performAll_raised calls : forall h,
  raised (signal h) = true -> performAll calls h = h.
Proof.
  induction calls as [|call calls IH]; intros h Hraised; [done|].
  unfold performAll in *; simpl. rewrite perform_raised by done.
  by apply IH.
Qed.

(** [removeTimeout] with a value of the callers changes nothing. *)
Lemma removeTimeout_external base h timeOut :
  intact base h -> external base timeOut ->
  run (removeTimeout timeOut) h = (Returned tt, h).
Proof.
  intros (Hraised & Hnext & Hslots) Hext.
  unfold run, removeTimeout, mbind, M_bind, this, assert, update.
  rewrite Hraised; simpl.
  rewrite removeTimeout_handle_only.
  - destruct h as [[] ? ?]; simpl in *. by subst.
  - eapply Forall_impl; [exact Hslots|].
    intros slot (r & fields & -> & Hr) r' fields' [= <- <-] ->.
    simpl in Hext. lia.
Qed.

Lemma performAll_cons call calls h :
  performAll (call :: calls) h =
  performAll calls (snd (run (perform call) h)).
Proof. reflexivity. Qed.

Lemma performAll_intact base calls : forall h,
  intact base h ->
  Forall (externalCall base) calls ->
  let h' := performAll calls h in
  visited (timeOuts (signal h')) =
    visited (timeOuts (signal h)) ++ registeredTimers calls /\
  cancelCalls (signal h') =
    cancelCalls (signal h) ++ registeredCancelCalls calls /\
  raised (signal h') = existsb isRaiseSignal calls /\
  events h' =
    events h ++
    (if existsb isRaiseSignal calls
     then callsAtRaise
            (visited (timeOuts (signal h)) ++ registeredTimers calls)
            (cancelCalls (signal h) ++ registeredCancelCalls calls)
     else []).
Proof.
  induction calls as [|call calls IH]; intros h Hintact Hcalls; cbv zeta in *.
  { destruct Hintact as (Hraised & _). simpl.
    by rewrite !app_nil_r. }
  apply Forall_cons in Hcalls as [Hcall Hcalls].
  pose proof Hintact as (Hraised & Hnext & Hslots).
  rewrite performAll_cons.
  destruct call as [cancelCall|timeOut successCb|timeOut|]; cbn [perform].
  - rewrite addCancelCall_run, Hraised. cbn [snd].
    match goal with
    | |- context [performAll calls ?h1] =>
        destruct (IH h1) as (Hv & Hc & Hr & He);
          [by repeat split|done|]
    end.
    rewrite Hv, Hc, Hr, He. simpl. by rewrite <- !app_assoc.
  - rewrite addTimeout_run, Hraised. cbn [snd].
    match goal with
    | |- context [performAll calls ?h1] =>
        destruct (IH h1) as (Hv & Hc & Hr & He);
          [repeat split; simpl;
             [lia|apply Forall_app; split;
                    [exact Hslots|repeat constructor; eauto]]
          |done|]
    end.
    rewrite Hv, Hc, Hr, He. simpl. rewrite visited_snoc.
    by rewrite <- !app_assoc.
  - rewrite (removeTimeout_external base) by done. cbn [snd].
    destruct (IH h Hintact Hcalls) as (Hv & Hc & Hr & He).
    by rewrite Hv, Hc, Hr, He.
  - rewrite raiseSignal_run, Hraised. cbn [snd].
    rewrite performAll_raised by done. simpl.
    rewrite !app_nil_r. done.
Qed.

(** X6.  On a new signal, whatever series of calls is made with values of
    the callers (numbers, [null], or objects that are not the records the
    signal keeps), [removeTimeout] unregisters nothing: the timers the
    signal holds are all those handed to [addTimeout] before the first
    raise, in their order, and when the series holds a [raiseSignal] the
    calls made are exactly [clearTimeout] and the callback with
    [(null, null)] for each of them, then each cancel call; without a
    raise no call is made. *)
Theorem removeTimeout_unregisters_nothing base calls :
  Forall (externalCall base) calls ->
  let h := performAll calls (fresh base) in
  visited (timeOuts (signal h)) = registeredTimers calls /\
  cancelCalls (signal h) = registeredCancelCalls calls /\
  raised (signal h) = existsb isRaiseSignal calls /\
  events h =
    if existsb isRaiseSignal calls
    then callsAtRaise (registeredTimers calls) (registeredCancelCalls calls)
    else [].
Proof.
  intros Hcalls.
  assert (Hfresh : intact base (fresh base))
    by (repeat split; simpl; [lia|constructor]).
  exact (performAll_intact base calls (fresh base) Hfresh Hcalls).
Qed.

Lemma removeTimeout_unregisters_nothing_witness :
  let calls := [AddTimeout (JsObject 0) 7; AddCancelCall 9;
                RemoveTimeout (JsObject 0); RaiseSignal;
                AddTimeout (JsNumber 3) 8] in
  let h := performAll calls (fresh 1) in
  visited (timeOuts (signal h)) =
    [{| timeOut := JsObject 0; successCb := 7 |}] /\
  cancelCalls (signal h) = [9] /\
  raised (signal h) = true /\
  events h =
    [ClearTimeout (JsObject 0); SuccessCb 7 JsNull JsNull; CancelCall 9].
Proof.
  apply (removeTimeout_unregisters_nothing 1
           [AddTimeout (JsObject 0) 7; AddCancelCall 9;
            RemoveTimeout (JsObject 0); RaiseSignal;
            AddTimeout (JsNumber 3) 8]).
  repeat constructor.
Defined.

Lemma run_then {A} (m : M unit) (k : M A) h :
  run (m ;; k) h =
  match run m h with
  | (Returned _, h') => run k h'
  | (AssertionError message, h') => (AssertionError message, h')
  end.
Proof. reflexivity. Qed.

Lemma removeTimeout_run h timeOut :
  run (removeTimeout timeOut) h =
  if raised (signal h) then
    (AssertionError "No calling removeTimeout after signal is raised", h)
  else
    (Returned tt,
     {| signal :=
          {| raised := false;
             timeOuts := map (removeIfSame timeOut) (timeOuts (signal h));
             cancelCalls := cancelCalls (signal h) |};
        nextRef := nextRef h;
        events := events h |}).
Proof.
  unfold run, removeTimeout, mbind, M_bind, this, assert, update.
  destruct (raised (signal h)) eqn:Hraised; simpl; rewrite ?Hraised; done.
Qed.

(** X7.  [removeTimeout] does delete a registration when it is given the
    record that [addTimeout] stored, as read from [timeOuts]: on a signal
    that is not raised and whose records are older, [addTimeout(t, cb)],
    [removeTimeout] of the new record and [raiseSignal] make the calls
    that [raiseSignal] alone would have made. *)
Theorem removeTimeout_of_record_unregisters h t cb :
  raised (signal h) = false ->
  Forall (fun slot => forall r fields,
            slot = Some (r, fields) -> r < nextRef h)
    (timeOuts (signal h)) ->
  events (snd (run (addTimeout t cb ;;
                    removeTimeout (JsObject (nextRef h)) ;;
                    raiseSignal) h)) =
  events (snd (run raiseSignal h)).
Proof.
  intros Hraised Hslots.
  rewrite run_then, addTimeout_run, Hraised. cbv iota.
  rewrite run_then, removeTimeout_run.
  cbn [signal raised nextRef timeOuts cancelCalls events]. cbv iota.
  rewrite !raiseSignal_run, Hraised.
  cbn [signal raised nextRef timeOuts cancelCalls events snd withEvents
       withSignal].
  unfold raiseEvents. cbn [timeOuts cancelCalls]. do 2 f_equal.
  rewrite map_app. cbn [map]. unfold removeIfSame at 2.
  cbn [strictEquals]. rewrite Nat.eqb_refl.
  rewrite removeTimeout_handle_only.
  - unfold visited. rewrite omap_app. cbn [omap]. by rewrite app_nil_r.
  - eapply Forall_impl; [exact Hslots|].
    intros slot Hslot r fields -> [= <-].
    specialize (Hslot _ _ eq_refl). lia.
Qed.

Lemma removeTimeout_of_record_unregisters_witness :
  events (snd (run (addTimeout (JsObject 0) 7 ;;
                    removeTimeout (JsObject 1) ;;
                    raiseSignal) (fresh 1))) =
  events (snd (run raiseSignal (fresh 1))).
Proof.
  apply (removeTimeout_of_record_unregisters (fresh 1) (JsObject 0) 7).
  - reflexivity.
  - constructor.
Defined.

End QuitSignalRunsFacts.

(** ** The exchange of one message and its response *)

Module HandshakeFacts.

Import RoundProtocol RoundSpec RoundProtocolFacts.

#[local] Opaque bulkMessage.

(** The string of a round number determines the number. *)
Lemma toString_inj n m : toString n = toString m -> n = m.
Proof.
  unfold toString. intros Heq.
  assert (Huint : N.to_uint n = N.to_uint m).
  { pose proof (NilEmpty.usu (N.to_uint n)) as Hn.
    rewrite Heq, NilEmpty.usu in Hn. congruence. }
  by rewrite <- (DecimalN.Unsigned.of_to n), Huint, DecimalN.Unsigned.of_to.
Qed.

Lemma toString_one_digit n :
  String.length (toString n) = 1 <-> (n < 10)%N.
Proof.
  split.
  - unfold toString. intros Hlen.
    rewrite <- (DecimalN.Unsigned.of_to n).
    destruct (N.to_uint n) as [|d|d|d|d|d|d|d|d|d|d]; simpl in Hlen;
      try done; destruct d; simpl in Hlen; try done; by vm_compute.
  - intros Hn. destruct n as [|p]; [reflexivity|].
    do 4 (try (destruct p as [p|p|]; try lia)); reflexivity.
Qed.

(** [createMessage] by the length of the code. *)
Lemma createMessage_by_length tape_uuid code :
  createMessage tape_uuid code =
  if Nat.eqb (String.length code) 1
  then Value (list_byte_of_string tape_uuid ++ list_byte_of_string code
              ++ bulkMessage)
  else AssertionError "Right size message".
Proof.
  unfold createMessage, messageLength.
  rewrite !length_app, !length_list_byte_of_string.
  destruct (Nat.eqb_spec (String.length code) 1) as [->|Hne].
  - by rewrite Nat.add_assoc, Nat.eqb_refl.
  - destruct (Nat.eqb_spec
                (String.length tape_uuid
                 + (String.length code + length bulkMessage))
                (String.length tape_uuid + 1 + length bulkMessage));
      [lia|done].
Qed.

(** X8.  [createMessage(code)] returns a message exactly when the code is
    one character long, and throws the assertion error otherwise.  The
    message has [messageLength()] bytes and [parseMessage] reads from it
    the local uuid, the code and the bulk message. *)
Theorem createMessage_parseMessage tape_uuid code :
  match createMessage tape_uuid code with
  | Value message =>
      String.length code = 1 /\
      length message = messageLength tape_uuid /\
      parseMessage tape_uuid message =
        {| Message.uuid := tape_uuid; Message.code := code;
           Message.bulkData := bulkMessage |}
  | AssertionError message =>
      String.length code <> 1 /\ message = "Right size message"
  end.
Proof.
  rewrite createMessage_by_length.
  destruct (Nat.eqb_spec (String.length code) 1) as [Hlen|Hlen]; [|done].
  split; [done|]. split; [|by apply parseMessage_response].
  unfold messageLength.
  rewrite !length_app, !length_list_byte_of_string, Hlen. lia.
Qed.

(** X9.  From round 10 on, the string of the round number has more than
    one character and [createMessage(roundNumber.toString())], the first
    step of [clientSuccessConnect], throws; up to round 9 it returns the
    message. *)
Theorem createMessage_round_number tape_uuid roundNumber :
  match createMessage tape_uuid (toString roundNumber) with
  | Value message => (roundNumber < 10)%N
  | AssertionError message => (10 <= roundNumber)%N
  end.
Proof.
  rewrite createMessage_by_length.
  destruct (Nat.eqb_spec (String.length (toString roundNumber)) 1)
    as [Hlen|Hlen].
  - by apply toString_one_digit.
  - rewrite toString_one_digit in Hlen. lia.
Qed.

(** The calls on sockets that a step of the server round makes. *)
Lemma step_socketCalls tape_uuid t roundNumber st input :
  socketCalls (serverRound_step tape_uuid t roundNumber st input) =
  socketCalls st ++
  match input with
  | MessageRead socket dataBuffer =>
      [(socket,
        Write (Handshake.message tape_uuid
                 (protocolResult_code
                    (validateRequest tape_uuid t roundNumber
                       (parseMessage tape_uuid dataBuffer)))))]
  | WriteFlushed socket =>
      if existsb (Nat.eqb socket) (writeCallbacks st)
      then [(socket, EndCall)] else []
  | _ => []
  end.
Proof.
  destruct input
    as [socket dataBuffer|socket err|socket|socket|socket|socket| |[err|]];
    simpl; rewrite ?app_nil_r; try done.
  - rewrite createMessage_code.
    by destruct (validateRequest _ _ _ _).
  - destruct (existsb _ _); simpl; by rewrite ?app_nil_r.
  - destruct (diesClean _ _ _); [|done].
    by destruct (endListeners_run t socket (endListeners st)
                   (connectionHandler socket ConnectionEvents.SocketEnd st))
      as (_ & _ & -> & _).
Qed.

Section TwoPeers.

(** The client and the server of an exchange: their uuids, their lists of
    participants and the rounds they are in. *)
Variables (client server : string).
Variables (clientTest serverTest : Test).
Variables (clientRound serverRound : N).

Hypothesis same_length : String.length client = String.length server.
Hypothesis one_digit : (clientRound < 10)%N.

Abbreviation request := (Handshake.request client clientRound).

Lemma request_created :
  createMessage client (toString clientRound) = Value request.
Proof.
  rewrite createMessage_by_length.
  by rewrite (proj2 (toString_one_digit clientRound) one_digit).
Qed.

Lemma request_parsed :
  parseMessage server request =
  {| Message.uuid := client; Message.code := toString clientRound;
     Message.bulkData := bulkMessage |}.
Proof.
  pose proof (parseMessage_response client (toString clientRound)
                (proj2 (toString_one_digit clientRound) one_digit)) as Hparse.
  unfold parseMessage, Handshake.request in *. by rewrite <- same_length.
Qed.

Abbreviation outcome :=
  (Handshake.outcome client server serverTest clientRound serverRound).
Abbreviation response :=
  (Handshake.response client server serverTest clientRound serverRound).

Lemma response_parsed :
  createMessage server (protocolResult_code outcome) = Value response /\
  parseMessage client response =
  {| Message.uuid := server; Message.code := protocolResult_code outcome;
     Message.bulkData := bulkMessage |}.
Proof.
  split; [apply createMessage_code|].
  pose proof (parseMessage_response server (protocolResult_code outcome)
                (protocolResult_code_length outcome)) as Hparse.
  unfold parseMessage, Handshake.response, Handshake.message in *.
  by rewrite same_length.
Qed.

Lemma bulkMessage_same :
  negb (Buffer_compare bulkMessage bulkMessage =? 0)%Z = false.
Proof. by apply Buffer_compare_eqb. Qed.

Lemma outcome_cases :
  outcome =
    (if negb (peerInTestList serverTest client) then WRONG_TEST
     else if String.eqb client server then WRONG_ME
     else if N.eqb clientRound serverRound then SUCCESS
     else WRONG_GEN).
Proof.
  unfold Handshake.outcome, validateRequest. rewrite request_parsed.
  cbn [Message.uuid Message.code Message.bulkData].
  rewrite bulkMessage_same.
  destruct (negb (peerInTestList serverTest client)); [done|].
  destruct (String.eqb client server); [done|].
  destruct (String.eqb_spec (toString clientRound) (toString serverRound))
    as [Heq|Hne].
  - apply toString_inj in Heq. subst. by rewrite N.eqb_refl.
  - destruct (N.eqb_spec clientRound serverRound); [congruence|done].
Qed.

Lemma class_cases :
  validateServerResponse clientTest (parseMessage client response) =
    (if negb (peerInTestList clientTest server) then NON_FATAL
     else match outcome with
          | SUCCESS => OK
          | WRONG_ME | WRONG_GEN => NON_FATAL
          | WRONG_TEST | WRONG_SYNTAX => FATAL
          end).
Proof.
  destruct response_parsed as [_ Hparsed].
  unfold validateServerResponse. rewrite Hparsed.
  cbn [Message.uuid Message.code Message.bulkData].
  rewrite bulkMessage_same.
  destruct (negb (peerInTestList clientTest server)); [done|].
  by destruct outcome.
Qed.

(** X10.  Between a client and a server whose uuids have the same length,
    for a client round below ten: the client builds its request; the
    server answers WRONG_TEST when the client is not on its list, else
    WRONG_ME when the client has its own uuid, else SUCCESS when the rounds
    are the same and WRONG_GEN when they are not, and never WRONG_SYNTAX;
    the server builds its response, which the client classifies as not
    fatal when the server is not on its list, and else as OK for SUCCESS,
    not fatal for WRONG_ME and WRONG_GEN, and fatal for WRONG_TEST. *)
Theorem exchange_outcomes :
  createMessage client (toString clientRound) = Value request /\
  outcome =
    (if negb (peerInTestList serverTest client) then WRONG_TEST
     else if String.eqb client server then WRONG_ME
     else if N.eqb clientRound serverRound then SUCCESS
     else WRONG_GEN) /\
  createMessage server (protocolResult_code outcome) = Value response /\
  validateServerResponse clientTest (parseMessage client response) =
    (if negb (peerInTestList clientTest server) then NON_FATAL
     else match outcome with
          | SUCCESS => OK
          | WRONG_ME | WRONG_GEN => NON_FATAL
          | WRONG_TEST | WRONG_SYNTAX => FATAL
          end).
Proof.
  split; [apply request_created|]. split; [apply outcome_cases|].
  split; [apply response_parsed|apply class_cases].
Qed.

(** X11.  Two different participants of the same list, with uuids of the
    same length and in the same round below ten, complete the exchange: on
    a socket without ['end'] listener, that has emitted neither ['end']
    nor ['error'], the server writes its response, ends the socket after
    the write and, when the client has ended its side, pushes the uuid of
    the client; the client, for that response, marks the server in
    [peersWeSucceededWith], resolves and ends the connection. *)
Theorem exchange_succeeds st socket peersWeSucceededWith :
  peerInTestList serverTest client = true ->
  peerInTestList clientTest server = true ->
  client <> server ->
  clientRound = serverRound ->
  filter (fun listener => fst listener = socket) (endListeners st) = [] ->
  ConnectionEvents.endFired (flagsOf st socket) = false ->
  ConnectionEvents.errorFired (flagsOf st socket) = false ->
  let step := serverRound_step server serverTest serverRound in
  let st' :=
    step (step (step st (MessageRead socket request)) (WriteFlushed socket))
      (SocketEnded socket) in
  socketCalls st' =
    socketCalls st ++ [(socket, Write response); (socket, EndCall)] /\
  validPeersForThisRound st' = validPeersForThisRound st ++ [client] /\
  clientSuccessConnect_response client clientTest response
    peersWeSucceededWith =
    (<[server := true]> peersWeSucceededWith, inr tt, [End]).
Proof.
  intros Hclient Hserver Hne Hround Hfresh Hend Herror step st'.
  pose proof outcome_cases as Houtcome. pose proof class_cases as Hclass.
  rewrite Hclient, (proj2 (N.eqb_eq _ _) Hround) in Houtcome.
  rewrite Hserver in Hclass. cbn [negb] in Houtcome, Hclass.
  destruct (String.eqb_spec client server) as [?|_]; [done|].
  rewrite Houtcome in Hclass.
  destruct response_parsed as [_ Hparsed].
  assert (Hread : endListeners (step st (MessageRead socket request)) =
                  endListeners st ++ [(socket, client)]).
  { subst step. rewrite step_endListeners.
    fold outcome. rewrite Houtcome. by rewrite request_parsed. }
  split; [|split].
  - subst st' step. rewrite !step_socketCalls.
    fold outcome. rewrite app_nil_r.
    assert (Hpending :
      existsb (Nat.eqb socket)
        (writeCallbacks
           (serverRound_step server serverTest serverRound st
              (MessageRead socket request))) = true).
    { simpl. rewrite createMessage_code.
      apply existsb_exists. exists socket.
      split; [|apply Nat.eqb_refl].
      destruct (validateRequest _ _ _ _); simpl; apply in_or_app;
        right; by left. }
    rewrite Hpending. by rewrite <- app_assoc.
  - subst st' step. rewrite step_validPeers.
    rewrite step_validPeers, app_nil_r.
    rewrite step_validPeers, app_nil_r.
    f_equal.
    rewrite diesClean_end. unfold flagsOf.
    rewrite !step_connectionFlags. fold (flagsOf st socket).
    rewrite Hend, Herror. cbn [negb andb].
    assert (Hflushed :
      endListeners
        (serverRound_step server serverTest serverRound
           (serverRound_step server serverTest serverRound st
              (MessageRead socket request)) (WriteFlushed socket)) =
      endListeners st ++ [(socket, client)])
      by (rewrite step_endListeners, app_nil_r; exact Hread).
    rewrite Hflushed, filter_app, Hfresh. simpl.
    rewrite filter_cons, decide_True by done. done.
  - unfold clientSuccessConnect_response. rewrite Hclass, Hparsed. done.
Qed.

End TwoPeers.

Lemma exchange_outcomes_witness :
  createMessage "A" (toString 1) = Value (Handshake.request "A" 1) /\
  Handshake.outcome "A" "B" TwoPeersExample.peers 1 1 = SUCCESS /\
  createMessage "B"
    (protocolResult_code
       (Handshake.outcome "A" "B" TwoPeersExample.peers 1 1)) =
    Value (Handshake.response "A" "B" TwoPeersExample.peers 1 1) /\
  validateServerResponse TwoPeersExample.peers
    (parseMessage "A" (Handshake.response "A" "B" TwoPeersExample.peers 1 1))
    = OK.
Proof.
  pose proof (exchange_outcomes "A" "B" TwoPeersExample.peers
                TwoPeersExample.peers 1 1 eq_refl eq_refl)
    as (Hrequest & Houtcome & Hresponse & Hclass).
  rewrite Houtcome in Hclass.
  split; [exact Hrequest|]. split; [exact Houtcome|].
  split; [exact Hresponse|exact Hclass].
Defined.

Lemma exchange_succeeds_witness :
  let step := serverRound_step "B" TwoPeersExample.peers 1 in
  let st' :=
    step (step (step (serverRound_new)
                  (MessageRead 5 (Handshake.request "A" 1)))
            (WriteFlushed 5))
      (SocketEnded 5) in
  socketCalls st' =
    [(5, Write (Handshake.response "A" "B" TwoPeersExample.peers 1 1));
     (5, EndCall)] /\
  validPeersForThisRound st' = ["A"] /\
  clientSuccessConnect_response "A" TwoPeersExample.peers
    (Handshake.response "A" "B" TwoPeersExample.peers 1 1) ∅ =
    (<["B" := true]> ∅, inr tt, [End]).
Proof.
  apply (exchange_succeeds "A" "B" TwoPeersExample.peers
           TwoPeersExample.peers 1 1 eq_refl eq_refl serverRound_new 5 ∅).
  - reflexivity.
  - reflexivity.
  - discriminate.
  - reflexivity.
  - reflexivity.
  - reflexivity.
  - reflexivity.
Defined.

End HandshakeFacts.

(** ** Runs of the server round *)

Module ServerRoundRunFacts.

Import RoundProtocol RoundSpec RoundProtocolFacts ServerRoundRuns.

#[local] Opaque bulkMessage.

Section Round.

Variable tape_uuid : string.
Variable t : Test.
Variable roundNumber : N.

Abbreviation step := (serverRound_step tape_uuid t roundNumber).
Abbreviation run := (serverRound_run tape_uuid t roundNumber).

(** What SUCCESS says of the message. *)
Lemma validateRequest_success m :
  validateRequest tape_uuid t roundNumber m = SUCCESS ->
  participant t (Message.uuid m) /\ Message.uuid m <> tape_uuid /\
  Message.code m = toString roundNumber /\
  Message.bulkData m = bulkMessage.
Proof.
  unfold validateRequest.
  destruct (negb (peerInTestList t (Message.uuid m))) eqn:Hin; [done|].
  apply in_list in Hin.
  destruct (negb (Buffer_compare (Message.bulkData m) bulkMessage =? 0)%Z)
    eqn:Hbulk; [done|].
  apply Buffer_compare_eqb in Hbulk.
  destruct (String.eqb_spec (Message.uuid m) tape_uuid); [done|].
  destruct (String.eqb_spec (Message.code m) (toString roundNumber));
    [done|done].
Qed.

Lemma run_snoc inputs input :
  run (inputs ++ [input]) = step (run inputs) input.
Proof. unfold serverRound_run. by rewrite fold_left_app. Qed.

(** X12.  In every run of a server round, each uuid in
    [validPeersForThisRound] is the uuid of a participant of the list
    that is not the local one. *)
Theorem validPeers_are_other_participants inputs :
  Forall (fun uuid => participant t uuid /\ uuid <> tape_uuid)
    (validPeersForThisRound (run inputs)).
Proof.
  induction inputs as [|input inputs IH] using rev_ind; [by constructor|].
  rewrite run_snoc, step_validPeers. apply Forall_app. split; [exact IH|].
  destruct input as [| | |socket| | | |]; try by constructor.
  destruct (diesClean _ _ _); [|by constructor].
  pose proof (endListeners_validated tape_uuid t roundNumber inputs)
    as Hlisteners.
  induction Hlisteners as [|[s u] listeners (buf & _ & Hok & Huuid) _ IHl];
    [by constructor|].
  rewrite filter_cons. case_decide; [|exact IHl].
  simpl. constructor; [|exact IHl].
  simpl in Huuid. subst u.
  by destruct (validateRequest_success _ Hok) as (? & ? & _).
Qed.

Lemma step_validPeers_grow st input :
  length (validPeersForThisRound st)
  <= length (validPeersForThisRound (step st input)).
Proof. rewrite step_validPeers, length_app. lia. Qed.

(** X13.  A server round whose promise is resolved has at least two
    participants and holds at least [participants.length - 1] uuids in
    [validPeersForThisRound]: with fewer than two participants no run
    resolves the round. *)
Theorem resolved_round_has_counted inputs :
  Promise.state (promise (run inputs)) = Promise.Resolved ->
  2 <= length (participants t) /\
  length (participants t) - 1
  <= length (validPeersForThisRound (run inputs)).
Proof.
  induction inputs as [|input inputs IH] using rev_ind; [done|].
  rewrite run_snoc. intros Hres.
  pose proof (step_validPeers_grow (run inputs) input).
  apply (step_promise tape_uuid t roundNumber) in Hres
    as [Hres|[_ Hreach]].
  - specialize (IH Hres). lia.
  - lia.
Qed.

(** The listeners of an ended socket leave the promise or resolve it. *)
Lemma ended_keeps_or_resolves socket listeners : forall st,
  let st' :=
    fold_left
      (fun st' listener =>
         if Nat.eqb (fst listener) socket
         then endListener t (snd listener) st' else st')
      listeners st in
  Promise.state (promise st') = Promise.state (promise st) \/
  (Promise.state (promise st) = Promise.Pending /\
   Promise.state (promise st') = Promise.Resolved).
Proof.
  induction listeners as [|[s u] listeners IH]; intros st; cbv zeta;
    [by left|].
  cbn [fold_left fst snd].
  destruct (Nat.eqb s socket); [|apply IH].
  destruct (IH (endListener t u st)) as [Hkeep|[Hpending Hres]].
  - rewrite Hkeep. clear.
    destruct (endListener_pushes t u st) as (_ & _ & _ & _ & ->).
    destruct (_ =? _)%Z; [|by left].
    unfold Promise.settle.
    destruct (Promise.state (promise st)); auto.
  - right. split; [|done]. revert Hpending.
    destruct (endListener_pushes t u st) as (_ & _ & _ & _ & ->).
    destruct (_ =? _)%Z; [|done].
    unfold Promise.settle.
    by destruct (Promise.state (promise st)).
Qed.

(** A series of connections with one and the same validated message, on
    sockets that have no ['end'] listener and have emitted no event. *)
Lemma connections_of_one_peer dataBuffer sockets : forall st,
  validateRequest tape_uuid t roundNumber (parseMessage tape_uuid dataBuffer)
    = SUCCESS ->
  List.NoDup sockets ->
  (forall socket, In socket sockets ->
     filter (fun listener => fst listener = socket) (endListeners st) = []
     /\ connectionFlags st !! socket = None) ->
  let st' := fold_left step (connections dataBuffer sockets) st in
  validPeersForThisRound st' =
    validPeersForThisRound st
    ++ repeat (Message.uuid (parseMessage tape_uuid dataBuffer))
         (length sockets) /\
  (Promise.state (promise st') = Promise.Resolved <->
   Promise.state (promise st) = Promise.Resolved \/
   (Promise.state (promise st) = Promise.Pending /\
    (Z.of_nat (length (validPeersForThisRound st))
     < Z.of_nat (length (participants t)) - 1
     <= Z.of_nat (length (validPeersForThisRound st) + length sockets))%Z)).
Proof.
  induction sockets as [|socket sockets IH]; intros st Hok Hnodup Hfresh;
    cbv zeta.
  { simpl. rewrite app_nil_r, Nat.add_0_r. split; [done|].
    split; [tauto|intros [?|[_ ?]]; [done|lia]]. }
  apply List.NoDup_cons_iff in Hnodup as [Hnotin Hnodup].
  cbn [connections flat_map connection app fold_left].
  fold (connections dataBuffer sockets).
  set (st1 := step st (MessageRead socket dataBuffer)).
  set (st2 := step st1 (SocketEnded socket)).
  destruct (Hfresh socket ltac:(by left)) as [Hlisteners Hflags].
  assert (Hl1 : endListeners st1 =
                endListeners st
                ++ [(socket, Message.uuid (parseMessage tape_uuid dataBuffer))]).
  { subst st1. rewrite step_endListeners. by rewrite Hok. }
  assert (Hv1 : validPeersForThisRound st1 = validPeersForThisRound st).
  { subst st1. rewrite step_validPeers. by rewrite app_nil_r. }
  assert (Hp1 : promise st1 = promise st).
  { subst st1. simpl. rewrite createMessage_code. by rewrite Hok. }
  assert (Hf1 : connectionFlags st1 = connectionFlags st).
  { subst st1. by rewrite step_connectionFlags. }
  assert (Hclean : diesClean st1 socket ConnectionEvents.SocketEnd = true).
  { rewrite diesClean_end. unfold flagsOf. by rewrite Hf1, Hflags. }
  assert (Hv2 : validPeersForThisRound st2 =
                validPeersForThisRound st
                ++ [Message.uuid (parseMessage tape_uuid dataBuffer)]).
  { subst st2. rewrite step_validPeers, Hclean, Hv1, Hl1, filter_app.
    rewrite Hlisteners. simpl.
    rewrite filter_cons, decide_True by done. done. }
  assert (Hl2 : endListeners st2 = endListeners st1).
  { subst st2. rewrite step_endListeners. by rewrite app_nil_r. }
  assert (Hf2 : connectionFlags st2 =
                <[socket := ConnectionEvents.handle (flagsOf st1 socket)
                              ConnectionEvents.SocketEnd]>
                  (connectionFlags st)).
  { subst st2. by rewrite step_connectionFlags, Hf1. }
  pose proof (step_promise tape_uuid t roundNumber st1 (SocketEnded socket))
    as Hp2.
  fold st2 in Hp2. rewrite Hp1, Hv1, Hv2 in Hp2.
  destruct (IH st2 Hok Hnodup) as (Hv & Hp).
  { intros socket' Hin.
    destruct (Hfresh socket' ltac:(by right)) as [Hlisteners' Hflags'].
    assert (Hother : socket <> socket') by (intros <-; by apply Hnotin).
    split.
    - rewrite Hl2, Hl1, filter_app, Hlisteners'. simpl.
      rewrite filter_cons, decide_False; done.
    - rewrite Hf2, lookup_insert_ne by done. exact Hflags'. }
  split.
  - rewrite Hv, Hv2, <- app_assoc. done.
  - assert (Hkeep :
      Promise.state (promise st2) = Promise.state (promise st) \/
      (Promise.state (promise st) = Promise.Pending /\
       Promise.state (promise st2) = Promise.Resolved)).
    { destruct (Promise.state (promise st)) eqn:Hstate.
      - destruct (Promise.state (promise st2)) eqn:Hstate2;
          [by left|by right|].
        exfalso. revert Hstate2. subst st2. cbn [serverRound_step].
        rewrite Hclean.
        pose proof (ended_keeps_or_resolves socket
                      (endListeners
                         (connectionHandler socket
                            ConnectionEvents.SocketEnd st1))
                      (connectionHandler socket
                         ConnectionEvents.SocketEnd st1)) as Hfold.
        cbv zeta in Hfold. cbn [connectionHandler promise] in Hfold.
        rewrite Hp1, Hstate in Hfold.
        destruct Hfold as [->|[_ ->]]; done.
      - left. subst st2.
        rewrite step_promise_settled; by rewrite Hp1, ?Hstate.
      - left. subst st2.
        rewrite step_promise_settled; by rewrite Hp1, ?Hstate. }
    rewrite Hp, Hv2. rewrite !length_app in *. simpl in *.
    clear -Hkeep Hp2.
    destruct Hkeep as [Hkeep|[Hpending Hres]].
    + rewrite Hkeep in *.
      destruct (Z_le_gt_dec (Z.of_nat (length (participants t)) - 1)
                  (Z.of_nat (length (validPeersForThisRound st) + 1)));
        destruct (Promise.state (promise st));
        intuition (try discriminate; try lia).
    + rewrite Hres in *. rewrite Hpending in *.
      destruct (Z_le_gt_dec (Z.of_nat (length (participants t)) - 1)
                  (Z.of_nat (length (validPeersForThisRound st) + 1)));
        intuition (try discriminate; try lia).
Qed.

(** X14.  [validPeersForThisRound] counts connections, not peers: when
    there are at least two participants, [participants.length - 1]
    connections on different sockets that all bring one and the same
    validated message, each ended by its peer, resolve the round, and the
    array holds the uuid of that one peer that many times. *)
Theorem one_peer_resolves_round dataBuffer sockets :
  validateRequest tape_uuid t roundNumber (parseMessage tape_uuid dataBuffer)
    = SUCCESS ->
  List.NoDup sockets ->
  2 <= length (participants t) ->
  length sockets = length (participants t) - 1 ->
  let st := run (connections dataBuffer sockets) in
  Promise.state (promise st) = Promise.Resolved /\
  validPeersForThisRound st =
    repeat (Message.uuid (parseMessage tape_uuid dataBuffer))
      (length (participants t) - 1).
Proof.
  intros Hok Hnodup Htwo Hlen st. subst st.
  destruct (connections_of_one_peer dataBuffer sockets serverRound_new
              Hok Hnodup ltac:(done)) as (Hv & Hp).
  unfold serverRound_run. split.
  - apply Hp. right. split; [done|]. simpl. lia.
  - rewrite Hv, Hlen. done.
Qed.

End Round.

(** The request of "A" in round 1 is validated by "B". *)
Lemma request_of_A_validated :
  validateRequest "B" TwoPeersExample.peers 1
    (parseMessage "B" (Handshake.request "A" 1)) = SUCCESS.
Proof.
  exact (HandshakeFacts.outcome_cases "A" "B" TwoPeersExample.peers 1 1
           eq_refl eq_refl).
Qed.

Lemma resolved_round_has_counted_witness :
  2 <= length (participants TwoPeersExample.peers) /\
  length (participants TwoPeersExample.peers) - 1
  <= length (validPeersForThisRound
               (serverRound_run "B" TwoPeersExample.peers 1
                  (connections (Handshake.request "A" 1) [5]))).
Proof.
  apply (resolved_round_has_counted "B" TwoPeersExample.peers 1
           (connections (Handshake.request "A" 1) [5])).
  apply (connections_of_one_peer "B" TwoPeersExample.peers 1
           (Handshake.request "A" 1) [5] serverRound_new
           request_of_A_validated).
  - repeat constructor. intros [].
  - done.
  - right. split; [reflexivity|]. simpl. lia.
Defined.

Lemma request_of_A_validated_of_three :
  validateRequest "B" TwoPeersExample.three 1
    (parseMessage "B" (Handshake.request "A" 1)) = SUCCESS.
Proof.
  exact (HandshakeFacts.outcome_cases "A" "B" TwoPeersExample.three 1 1
           eq_refl eq_refl).
Qed.

Lemma one_peer_resolves_round_witness :
  let st := serverRound_run "B" TwoPeersExample.three 1
              (connections (Handshake.request "A" 1) [5; 6]) in
  Promise.state (promise st) = Promise.Resolved /\
  validPeersForThisRound st =
    repeat (Message.uuid (parseMessage "B" (Handshake.request "A" 1)))
      (length (participants TwoPeersExample.three) - 1).
Proof.
  apply (one_peer_resolves_round "B" TwoPeersExample.three 1
           (Handshake.request "A" 1) [5; 6]
           request_of_A_validated_of_three).
  - repeat constructor; simpl; intuition discriminate.
  - simpl. lia.
  - reflexivity.
Defined.

(** The uuid that "B" reads from the request of "A". *)
Lemma request_of_A_parsed :
  Message.uuid (parseMessage "B" (Handshake.request "A" 1)) = "A".
Proof.
  by rewrite (HandshakeFacts.request_parsed "A" "B" 1 eq_refl eq_refl).
Qed.

Lemma serverRound_counts_witness :
  let step := serverRound_step "B" TwoPeersExample.peers 1 in
  let st := step serverRound_new (MessageRead 5 (Handshake.request "A" 1)) in
  let st' := step st (SocketEnded 5) in
  let validated (st : ServerRound) : gset string :=
    list_to_set (validPeersForThisRound st) in
  validPeersForThisRound st' = ["A"] /\
  (Promise.state (promise st') = Promise.Resolved <->
   Promise.state (promise st) = Promise.Resolved \/
   (Promise.state (promise st) = Promise.Pending /\
    (Z.of_nat (size (validated st))
     < Z.of_nat (length (participants TwoPeersExample.peers)) - 1
     <= Z.of_nat (size (validated st')))%Z)).
Proof.
  cbv zeta.
  destruct (serverRound_answers_then_counts_validated_peers
              "B" TwoPeersExample.peers 1) as (_ & _ & Hstep).
  destruct (Hstep (serverRound_step "B" TwoPeersExample.peers 1
                     serverRound_new
                     (MessageRead 5 (Handshake.request "A" 1)))
              (SocketEnded 5)) as [Hpushed Hresolved].
  assert (Hvalid :
    validPeersForThisRound
      (serverRound_step "B" TwoPeersExample.peers 1
         (serverRound_step "B" TwoPeersExample.peers 1 serverRound_new
            (MessageRead 5 (Handshake.request "A" 1)))
         (SocketEnded 5)) = ["A"]).
  { rewrite Hpushed, step_validPeers, step_endListeners.
    rewrite request_of_A_validated, request_of_A_parsed.
    unfold flagsOf. rewrite step_connectionFlags. reflexivity. }
  split; [exact Hvalid|].
  apply Hresolved. rewrite Hvalid. repeat constructor. intros [].
Defined.

(** C8, as it is stated, fails.  A connection whose message cannot be
    read gets no response and no [socket.end()].  With the three
    participants "A", "B" and "C", two validated connections of "A" to "B"
    resolve the round of "B", whose validated uuids are "A" and "A": a set
    of one entry, not of two.  And a round that the quit signal has
    rejected stays rejected when its validated uuids reach
    [participants.length - 1]. *)
Lemma serverRound_resolves_without_all_peers_validated :
  socketCalls
    (serverRound_run "B" TwoPeersExample.three 1
       [MessageReadFailed 5 "socket closed"; SocketEnded 5]) = [] /\
  (let st := serverRound_run "B" TwoPeersExample.three 1
               (connections (Handshake.request "A" 1) [5; 6]) in
   Promise.state (promise st) = Promise.Resolved /\
   validPeersForThisRound st = ["A"; "A"] /\
   size (list_to_set (validPeersForThisRound st) : gset string) = 1 /\
   length (participants TwoPeersExample.three) - 1 = 2) /\
  (let st := serverRound_run "B" TwoPeersExample.peers 1
               (CancelCalled :: connections (Handshake.request "A" 1) [5]) in
   Promise.state (promise st) = Promise.Rejected undefined /\
   validPeersForThisRound st = ["A"] /\
   size (list_to_set (validPeersForThisRound st) : gset string) = 1 /\
   length (participants TwoPeersExample.peers) - 1 = 1).
Proof.
  split; [reflexivity|]. split.
  - cbv zeta.
    destruct (connections_of_one_peer "B" TwoPeersExample.three 1
                (Handshake.request "A" 1) [5; 6] serverRound_new
                request_of_A_validated_of_three) as (Hv & Hp).
    { repeat constructor; simpl; intuition discriminate. }
    { done. }
    unfold serverRound_run.
    assert (Hpushed :
      validPeersForThisRound
        (fold_left (serverRound_step "B" TwoPeersExample.three 1)
           (connections (Handshake.request "A" 1) [5; 6]) serverRound_new)
      = ["A"; "A"]).
    { rewrite Hv. cbn [serverRound_new validPeersForThisRound app length
                       repeat].
      by rewrite (HandshakeFacts.request_parsed "A" "B" 1 eq_refl eq_refl). }
    split; [apply Hp; right; split; [reflexivity|simpl; lia]|].
    split; [exact Hpushed|]. rewrite Hpushed. split; reflexivity.
  - cbv zeta. unfold serverRound_run. cbn [fold_left].
    set (st0 := serverRound_step "B" TwoPeersExample.peers 1 serverRound_new
                  CancelCalled).
    destruct (connections_of_one_peer "B" TwoPeersExample.peers 1
                (Handshake.request "A" 1) [5] st0
                request_of_A_validated) as (Hv & _).
    { repeat constructor. intros []. }
    { done. }
    assert (Hpushed :
      validPeersForThisRound
        (fold_left (serverRound_step "B" TwoPeersExample.peers 1)
           (connections (Handshake.request "A" 1) [5]) st0) = ["A"]).
    { rewrite Hv. subst st0.
      cbn [serverRound_step settleRound serverRound_new
           validPeersForThisRound app length repeat].
      by rewrite request_of_A_parsed. }
    split; [|split; [exact Hpushed|rewrite Hpushed; split; reflexivity]].
    assert (Hst0 : Promise.state (promise st0)
                   = Promise.Rejected undefined) by reflexivity.
    cbn [connections flat_map connection app fold_left].
    rewrite step_promise_settled.
    + rewrite step_promise_settled; [exact Hst0|].
      rewrite Hst0. discriminate.
    + rewrite step_promise_settled; rewrite Hst0; discriminate.
Qed.

End ServerRoundRunFacts.

(** ** The client round *)

Module RoundClientFacts.

Import RoundProtocol RoundClient.

#[local] Opaque bulkMessage.

Lemma Ascii_compare_lt_trans a b c :
  Ascii.compare a b = Lt -> Ascii.compare b c = Lt -> Ascii.compare a c = Lt.
Proof.
  unfold Ascii.compare. rewrite !N.compare_lt_iff. lia.
Qed.

Lemma String_compare_lt_trans s1 : forall s2 s3,
  String.compare s1 s2 = Lt -> String.compare s2 s3 = Lt ->
  String.compare s1 s3 = Lt.
Proof.
  induction s1 as [|a s1 IH]; intros [|b s2] [|c s3]; simpl; try done.
  destruct (Ascii.compare a b) eqn:Hab; try done;
    destruct (Ascii.compare b c) eqn:Hbc; try done.
  - apply Ascii.compare_eq_iff in Hab, Hbc. subst.
    assert (Hcc : Ascii.compare c c = Eq) by apply N.compare_refl.
    rewrite Hcc. apply IH.
  - apply Ascii.compare_eq_iff in Hab. subst. by rewrite Hbc.
  - apply Ascii.compare_eq_iff in Hbc. subst. by rewrite Hab.
  - by rewrite (Ascii_compare_lt_trans a b c).
Qed.

Lemma String_ltb_trans s1 s2 s3 :
  String.ltb s1 s2 = true -> String.ltb s2 s3 = true ->
  String.ltb s1 s3 = true.
Proof.
  unfold String.ltb.
  destruct (String.compare s1 s2) eqn:H12; try done.
  destruct (String.compare s2 s3) eqn:H23; try done.
  by rewrite (String_compare_lt_trans s1 s2 s3).
Qed.

(** [a < b] and [b <= c] give [a < c]. *)
Lemma String_ltb_leb_trans a b c :
  String.ltb a b = true -> String.ltb c b = false -> String.ltb a c = true.
Proof.
  intros Hab Hcb. unfold String.ltb in Hcb.
  destruct (String.compare c b) eqn:Hcmp; try done.
  - apply String.compare_eq_iff in Hcmp. by subst.
  - apply (String_ltb_trans a b c Hab). unfold String.ltb.
    by rewrite String.compare_antisym, Hcmp.
Qed.

Lemma findSmallestParticipant_from participants : forall s,
  s <> "" ->
  (forall p, In p participants -> Participant.uuid p <> "") ->
  exists s',
    fold_left
      (fun smallest participant =>
         if negb (truthyString smallest)
         then Some (Participant.uuid participant)
         else
           match smallest with
           | Some s =>
               if String.ltb (Participant.uuid participant) s
               then Some (Participant.uuid participant)
               else Some s
           | None => Some (Participant.uuid participant)
           end)
      participants (Some s) = Some s' /\
    In s' (s :: map Participant.uuid participants) /\
    forall x, In x (s :: map Participant.uuid participants) ->
      String.ltb x s' = false.
Proof.
  induction participants as [|p ps IH]; intros s Hs Hne.
  - exists s. split; [done|]. split; [by left|].
    intros x [<-|[]]. unfold String.ltb.
    destruct (String.compare s s) eqn:Hcmp; try done.
    pose proof (String.compare_antisym s s) as Hanti.
    rewrite Hcmp in Hanti. done.
  - cbn [fold_left].
    assert (Htruthy : truthyString (Some s) = true) by by destruct s.
    rewrite Htruthy. cbn [negb].
    assert (Hp : Participant.uuid p <> "") by (apply Hne; by left).
    assert (Hps : forall q, In q ps -> Participant.uuid q <> "")
      by (intros q Hq; apply Hne; by right).
    destruct (String.ltb (Participant.uuid p) s) eqn:Hlt.
    + destruct (IH (Participant.uuid p) Hp Hps) as (s' & -> & Hin & Hleast).
      exists s'. split; [done|]. split.
      { cbn [map]. destruct Hin as [<-|Hin]; [right; by left|].
        right. by right. }
      intros x [Hx|Hx]; [subst x|by apply Hleast].
      destruct (String.ltb s s') eqn:Hxs; [|done].
      rewrite <- (Hleast (Participant.uuid p)); [|by left].
      symmetry. by apply (String_ltb_trans _ s).
    + destruct (IH s Hs Hps) as (s' & -> & Hin & Hleast).
      exists s'. split; [done|]. split.
      { cbn [map]. destruct Hin as [<-|Hin]; [by left|]. right. by right. }
      intros x [Hx|[Hx|Hx]]; try subst x.
      * apply Hleast. by left.
      * destruct (String.ltb (Participant.uuid p) s') eqn:Hxs; [|done].
        rewrite <- Hlt. symmetry.
        apply (String_ltb_leb_trans _ s'); [done|]. apply Hleast. by left.
      * apply Hleast. by right.
Qed.

(** X15.  When no participant has the empty string as uuid,
    [findSmallestParticipant] returns [null] for no participants only, and
    else the uuid of a participant than which no participant's uuid is
    smaller. *)
Theorem findSmallestParticipant_least participants :
  (forall p, In p participants -> Participant.uuid p <> "") ->
  match findSmallestParticipant participants with
  | None => participants = []
  | Some s =>
      In s (map Participant.uuid participants) /\
      forall p, In p participants ->
        String.ltb (Participant.uuid p) s = false
  end.
Proof.
  intros Hne. unfold findSmallestParticipant.
  destruct participants as [|p ps]; [done|].
  cbn [fold_left truthyString negb].
  destruct (findSmallestParticipant_from ps (Participant.uuid p))
    as (s' & -> & Hin & Hleast).
  - apply Hne. by left.
  - intros q Hq. apply Hne. by right.
  - split; [done|]. intros q Hq. apply Hleast.
    change (In (Participant.uuid q) (map Participant.uuid (p :: ps))).
    by apply in_map.
Qed.

Lemma findSmallestParticipant_least_witness :
  (forall p, In p (participants TwoPeersExample.three) ->
     Participant.uuid p <> "") /\
  In "A" (map Participant.uuid (participants TwoPeersExample.three)) /\
  forall p, In p (participants TwoPeersExample.three) ->
    String.ltb (Participant.uuid p) "A" = false.
Proof.
  assert (Hne : forall p, In p (participants TwoPeersExample.three) ->
                  Participant.uuid p <> "").
  { intros p [<-|[<-|[<-|[]]]]; discriminate. }
  split; [exact Hne|].
  exact (findSmallestParticipant_least
           (participants TwoPeersExample.three) Hne).
Defined.

Section Tape.

Variable tape_uuid : string.

Lemma length_one {A} (l : list A) : length l = 1 -> exists x, l = [x].
Proof. destruct l as [|x [|y l]]; try done. by exists x. Qed.

Lemma verifyPeers_filter t hashTable :
  verifyPeers tape_uuid t hashTable = true <->
  exists p,
    List.filter
      (fun participant =>
         negb (truthy (hashTable !! Participant.uuid participant)))
      (participants t) = [p] /\
    Participant.uuid p = tape_uuid.
Proof.
  unfold verifyPeers. cbv zeta.
  destruct (List.filter _ (participants t)) as [|p [|q l]]; cbn.
  - split; [done|]. by intros (p & ? & _).
  - rewrite String.eqb_eq. split.
    + intros Hp. by exists p.
    + by intros (p' & [= <-] & Hp).
  - split; [done|]. by intros (p' & ? & _).
Qed.

(** X16.  [verifyPeers(t, hashTable)] is true exactly when one participant
    and no more has the local uuid, the local uuid has no true entry in
    [hashTable], and the uuid of every other participant has one. *)
Theorem verifyPeers_all_others_found t hashTable :
  verifyPeers tape_uuid t hashTable = true <->
  length (List.filter
            (fun participant =>
               String.eqb (Participant.uuid participant) tape_uuid)
            (participants t)) = 1 /\
  truthy (hashTable !! tape_uuid) = false /\
  forall p, In p (participants t) -> Participant.uuid p <> tape_uuid ->
    truthy (hashTable !! Participant.uuid p) = true.
Proof.
  rewrite verifyPeers_filter.
  assert (Hsame :
    truthy (hashTable !! tape_uuid) = false ->
    (forall p, In p (participants t) -> Participant.uuid p <> tape_uuid ->
       truthy (hashTable !! Participant.uuid p) = true) ->
    List.filter
      (fun participant =>
         negb (truthy (hashTable !! Participant.uuid participant)))
      (participants t) =
    List.filter
      (fun participant =>
         String.eqb (Participant.uuid participant) tape_uuid)
      (participants t)).
  { intros Hlocal Hothers. apply filter_ext_in. intros p Hp.
    destruct (String.eqb_spec (Participant.uuid p) tape_uuid) as [->|Hneq].
    - by rewrite Hlocal.
    - by rewrite (Hothers p Hp Hneq). }
  split.
  - intros (p0 & Hfilter & Hp0).
    assert (Hlocal : truthy (hashTable !! tape_uuid) = false).
    { assert (Hin : In p0 [p0]) by by left.
      rewrite <- Hfilter in Hin. apply filter_In in Hin as [_ Hin].
      rewrite Hp0 in Hin. by destruct (truthy _). }
    assert (Hothers : forall p, In p (participants t) ->
              Participant.uuid p <> tape_uuid ->
              truthy (hashTable !! Participant.uuid p) = true).
    { intros p Hp Hneq.
      destruct (truthy (hashTable !! Participant.uuid p)) eqn:Htruthy;
        [done|].
      assert (Hin : In p [p0]).
      { rewrite <- Hfilter. apply filter_In. by rewrite Htruthy. }
      destruct Hin as [<-|[]]. done. }
    split; [|done]. by rewrite <- Hsame, Hfilter.
  - intros (Hone & Hlocal & Hothers).
    rewrite (Hsame Hlocal Hothers).
    destruct (length_one _ Hone) as [p0 Hfilter]. exists p0.
    split; [done|].
    assert (Hin : In p0 [p0]) by by left.
    rewrite <- Hfilter in Hin. apply filter_In in Hin as [_ Hin].
    by apply String.eqb_eq.
Qed.

Lemma truthy_insert (m : gmap string bool) i j :
  truthy (<[i := true]> m !! j) = true <-> i = j \/ truthy (m !! j) = true.
Proof.
  destruct (decide (i = j)) as [->|Hneq].
  - rewrite lookup_insert_eq. cbn. by split; [left|].
  - rewrite lookup_insert_ne by done. split; [by right|]. by intros [?|?].
Qed.

Lemma considerPeer_accumulates peers : forall resolved connecting,
  fold_left considerPeer peers (resolved, connecting) =
  (fst (fold_left considerPeer peers (resolved, [])),
   connecting ++ snd (fold_left considerPeer peers (resolved, []))).
Proof.
  induction peers as [|peer peers IH]; intros resolved connecting.
  - cbn. by rewrite app_nil_r.
  - cbn [fold_left considerPeer].
    destruct (truthy (resolved !! peerIdentifier peer)); [apply IH|].
    destruct (peerAvailable peer); cbn [negb]; [|apply IH].
    rewrite IH. rewrite (IH _ ([] ++ [peer])). cbn [fst snd].
    by rewrite <- app_assoc.
Qed.

Lemma considerPeer_connects peers : forall resolved,
  let '(resolved', connecting) :=
    fold_left considerPeer peers (resolved, []) in
  (forall peer, In peer connecting ->
     In peer peers /\ peerAvailable peer = true /\
     truthy (resolved !! peerIdentifier peer) = false) /\
  List.NoDup (map peerIdentifier connecting) /\
  (forall i, truthy (resolved' !! i) = true <->
     truthy (resolved !! i) = true \/
     In i (map peerIdentifier connecting)) /\
  (forall peer, In peer peers -> peerAvailable peer = true ->
     truthy (resolved' !! peerIdentifier peer) = true).
Proof.
  induction peers as [|peer peers IH]; intros resolved.
  - cbn. split; [done|]. split; [constructor|]. split; [|done].
    intros i. split; [by left|]. by intros [?|[]].
  - cbn [fold_left considerPeer].
    destruct (truthy (resolved !! peerIdentifier peer)) eqn:Hresolved.
    { specialize (IH resolved).
      destruct (fold_left considerPeer peers (resolved, []))
        as [resolved' connecting].
      destruct IH as (Hnew & Hnodup & Hmarked & Hall).
      split; [|split; [done|split; [done|]]].
      - intros q Hq. destruct (Hnew q Hq) as (? & ? & ?).
        split; [by right|done].
      - intros q [<-|Hq] Havailable; [|by apply Hall].
        apply Hmarked. by left. }
    destruct (peerAvailable peer) eqn:Havailable; cbn [negb].
    2: { specialize (IH resolved).
      destruct (fold_left considerPeer peers (resolved, []))
        as [resolved' connecting].
      destruct IH as (Hnew & Hnodup & Hmarked & Hall).
      split; [|split; [done|split; [done|]]].
      - intros q Hq. destruct (Hnew q Hq) as (? & ? & ?).
        split; [by right|done].
      - intros q [<-|Hq] Hq'; [congruence|by apply Hall]. }
    rewrite considerPeer_accumulates.
    specialize (IH (<[peerIdentifier peer := true]> resolved)).
    destruct (fold_left considerPeer peers
                (<[peerIdentifier peer := true]> resolved, []))
      as [resolved' connecting].
    destruct IH as (Hnew & Hnodup & Hmarked & Hall).
    cbn [fst snd app].
    assert (Hfresh : ~ In (peerIdentifier peer)
                       (map peerIdentifier connecting)).
    { intros Hin. apply in_map_iff in Hin as (q & Heq & Hq).
      destruct (Hnew q Hq) as (_ & _ & Hfalse).
      rewrite <- Heq in Hfalse.
      assert (Htrue : truthy (<[peerIdentifier q := true]> resolved
                                !! peerIdentifier q) = true)
        by (apply truthy_insert; by left).
      congruence. }
    split; [|split; [|split]].
    + intros q [<-|Hq]; [by (split; [left|])|].
      destruct (Hnew q Hq) as (? & ? & Hfalse).
      split; [by right|]. split; [done|].
      destruct (truthy (resolved !! peerIdentifier q)) eqn:Hq'; [|done].
      rewrite <- Hfalse. symmetry. apply truthy_insert. by right.
    + cbn [map]. by constructor.
    + intros i. rewrite Hmarked, truthy_insert. cbn [map In]. tauto.
    + intros q [<-|Hq] Hq'; [|by apply Hall].
      apply Hmarked. left. apply truthy_insert. by left.
Qed.

Lemma considerPeer_nothing_new peers : forall resolved connecting,
  (forall peer, In peer peers -> peerAvailable peer = true ->
     truthy (resolved !! peerIdentifier peer) = true) ->
  fold_left considerPeer peers (resolved, connecting) =
  (resolved, connecting).
Proof.
  induction peers as [|peer peers IH]; intros resolved connecting Hall;
    [done|].
  cbn [fold_left considerPeer].
  destruct (truthy (resolved !! peerIdentifier peer)) eqn:Hresolved.
  { apply IH. intros q Hq. apply Hall. by right. }
  destruct (peerAvailable peer) eqn:Havailable; cbn [negb].
  - rewrite Hall in Hresolved; [done|by left|done].
  - apply IH. intros q Hq. apply Hall. by right.
Qed.

(** X17.  The listener of [clientRound] calls [connectToPeer] for no peer
    once [verifyPeers] holds of [peersWeSucceededWith].  Before that, it
    calls it for peers of the event that are available and were not
    marked in [peersWeAreOrHaveResolved], once for each identifier; the
    identifiers marked afterwards are those marked before and those of
    the peers connected to, and they include the identifier of every
    available peer of the event. *)
Theorem listener_connects_new_available_peers t peers resolved succeeded :
  let '(resolved', connecting) :=
    listener tape_uuid t peers resolved succeeded in
  if verifyPeers tape_uuid t succeeded
  then resolved' = resolved /\ connecting = []
  else
    (forall peer, In peer connecting ->
       In peer peers /\ peerAvailable peer = true /\
       truthy (resolved !! peerIdentifier peer) = false) /\
    List.NoDup (map peerIdentifier connecting) /\
    (forall i, truthy (resolved' !! i) = true <->
       truthy (resolved !! i) = true \/
       In i (map peerIdentifier connecting)) /\
    (forall peer, In peer peers -> peerAvailable peer = true ->
       truthy (resolved' !! peerIdentifier peer) = true).
Proof.
  unfold listener.
  destruct (verifyPeers tape_uuid t succeeded); [done|].
  apply considerPeer_connects.
Qed.

(** X18.  When the listener has handled an event, the same peers
    delivered again lead to no call of [connectToPeer] and leave
    [peersWeAreOrHaveResolved] as it is, as long as no entry has been
    deleted from it. *)
Theorem listener_same_peers_again t peers resolved succeeded succeeded' :
  verifyPeers tape_uuid t succeeded = false ->
  let resolved' := fst (listener tape_uuid t peers resolved succeeded) in
  listener tape_uuid t peers resolved' succeeded' = (resolved', []).
Proof.
  intros Hverify. cbv zeta. unfold listener. rewrite Hverify.
  destruct (verifyPeers tape_uuid t succeeded'); [done|].
  apply considerPeer_nothing_new.
  pose proof (considerPeer_connects peers resolved) as Hspec.
  destruct (fold_left considerPeer peers (resolved, []))
    as [resolved' connecting].
  by destruct Hspec as (_ & _ & _ & Hall).
Qed.

Lemma clientSuccessConnect_by_round t roundNumber exchange succeeded :
  clientSuccessConnect tape_uuid t roundNumber exchange succeeded =
  if (roundNumber <? 10)%N
  then
    match exchange with
    | inr dataBuffer =>
        clientSuccessConnect_response tape_uuid t dataBuffer succeeded
    | inl err =>
        (succeeded, inl {| message := err; fatal := false |}, [Destroy])
    end
  else
    (succeeded, inl {| message := "Right size message"; fatal := false |},
     []).
Proof.
  unfold clientSuccessConnect.
  rewrite HandshakeFacts.createMessage_by_length.
  destruct (Nat.eqb_spec (String.length (toString roundNumber)) 1)
    as [Hlen|Hlen]; rewrite HandshakeFacts.toString_one_digit in Hlen.
  - apply N.ltb_lt in Hlen. by rewrite Hlen.
  - apply N.ltb_nlt in Hlen. by rewrite Hlen.
Qed.

Lemma peerPromise_by_attempt t roundNumber peer attempt resolved succeeded :
  peerPromise tape_uuid t roundNumber peer attempt resolved succeeded =
  match attempt with
  | ConnectedAfterQuit => (resolved, succeeded, inr tt)
  | Responded dataBuffer =>
      if (roundNumber <? 10)%N
      then
        match validateServerResponse t
                (parseMessage tape_uuid dataBuffer) with
        | OK =>
            (resolved,
             <[Message.uuid (parseMessage tape_uuid dataBuffer) := true]>
               succeeded,
             inr tt)
        | FATAL =>
            (resolved, succeeded,
             inl {| message := "Got fatal error, see logs";
                    fatal := true |})
        | NON_FATAL =>
            (delete (peerIdentifier peer) resolved, succeeded, inr tt)
        end
      else (delete (peerIdentifier peer) resolved, succeeded, inr tt)
  | ConnectFailed _ | ExchangeFailed _ =>
      (delete (peerIdentifier peer) resolved, succeeded, inr tt)
  end.
Proof.
  unfold peerPromise.
  destruct attempt as [err| |err|dataBuffer]; try done;
    rewrite clientSuccessConnect_by_round.
  - by destruct (roundNumber <? 10)%N.
  - destruct (roundNumber <? 10)%N; [|done].
    unfold clientSuccessConnect_response.
    by destruct (validateServerResponse _ _).
Qed.

(** X19.  The promise that the listener of [clientRound] pushes for a
    peer rejects exactly when, in a round below ten, a response came that
    [validateServerResponse] classifies as fatal; the error is then fatal
    and neither dictionary has changed. *)
Theorem peerPromise_rejects_for_fatal_response_only
    t roundNumber peer attempt resolved succeeded :
  let '(resolved', succeeded', result) :=
    peerPromise tape_uuid t roundNumber peer attempt resolved succeeded in
  let fatalResponse :=
    (roundNumber < 10)%N /\
    exists dataBuffer,
      attempt = Responded dataBuffer /\
      validateServerResponse t
        (parseMessage tape_uuid dataBuffer) = FATAL in
  match result with
  | inl err =>
      fatalResponse /\ fatal err = true /\
      resolved' = resolved /\ succeeded' = succeeded
  | inr _ => ~ fatalResponse
  end.
Proof.
  rewrite peerPromise_by_attempt.
  destruct attempt as [err| |err|dataBuffer]; cbv zeta;
    try (by intros (_ & ? & ? & _)).
  destruct (roundNumber <? 10)%N eqn:Hround.
  - apply N.ltb_lt in Hround.
    destruct (validateServerResponse _ _) eqn:Hclass.
    + repeat split; try done. by exists dataBuffer.
    + intros (_ & ? & [= <-] & ?). congruence.
    + intros (_ & ? & [= <-] & ?). congruence.
  - apply N.ltb_nlt in Hround. by intros (? & _).
Qed.

(** X20.  A peer that the listener had marked and that a later event
    reports as available is connected to again exactly when the earlier
    attempt failed to connect, failed in the exchange, was made in round
    ten or later, or brought a response classified as not fatal; after
    a raised quit signal, an OK response or a fatal response it is not
    connected to again. *)
Theorem failed_attempt_is_made_again
    t roundNumber peer attempt resolved succeeded :
  truthy (resolved !! peerIdentifier peer) = true ->
  peerAvailable peer = true ->
  let '(resolved', succeeded', result) :=
    peerPromise tape_uuid t roundNumber peer attempt resolved succeeded in
  let again :=
    match attempt with
    | ConnectFailed _ | ExchangeFailed _ => true
    | ConnectedAfterQuit => false
    | Responded dataBuffer =>
        negb (roundNumber <? 10)%N
        || match validateServerResponse t
                   (parseMessage tape_uuid dataBuffer) with
           | NON_FATAL => true
           | _ => false
           end
    end in
  snd (listener tape_uuid t [peer] resolved' succeeded') =
  if verifyPeers tape_uuid t succeeded' then []
  else if again then [peer] else [].
Proof.
  intros Hmarked Havailable. rewrite peerPromise_by_attempt.
  assert (Hdeleted :
    forall succeeded',
      snd (listener tape_uuid t [peer]
             (delete (peerIdentifier peer) resolved) succeeded') =
      if verifyPeers tape_uuid t succeeded' then [] else [peer]).
  { intros succeeded'. unfold listener.
    destruct (verifyPeers tape_uuid t succeeded'); [done|].
    cbn [fold_left considerPeer]. rewrite lookup_delete_eq. cbn [truthy].
    by rewrite Havailable. }
  assert (Hkept :
    forall succeeded',
      snd (listener tape_uuid t [peer] resolved succeeded') =
      if verifyPeers tape_uuid t succeeded' then [] else []).
  { intros succeeded'. unfold listener.
    destruct (verifyPeers tape_uuid t succeeded'); [done|].
    cbn [fold_left considerPeer]. by rewrite Hmarked. }
  destruct attempt as [err| |err|dataBuffer]; cbv zeta;
    try apply Hdeleted; try apply Hkept.
  destruct (roundNumber <? 10)%N; cbn [negb orb]; [|apply Hdeleted].
  destruct (validateServerResponse _ _);
    try apply Hdeleted; apply Hkept.
Qed.

(** X21.  The promise for a peer only adds to [peersWeSucceededWith], and
    what it adds is the uuid of a participant: when every true entry is
    the uuid of a participant before, so it is afterwards. *)
Theorem peersWeSucceededWith_grows_by_participants
    t roundNumber peer attempt resolved succeeded :
  (forall uuid, truthy (succeeded !! uuid) = true ->
     peerInTestList t uuid = true) ->
  let '(resolved', succeeded', result) :=
    peerPromise tape_uuid t roundNumber peer attempt resolved succeeded in
  (forall uuid, truthy (succeeded !! uuid) = true ->
     truthy (succeeded' !! uuid) = true) /\
  (forall uuid, truthy (succeeded' !! uuid) = true ->
     peerInTestList t uuid = true).
Proof.
  intros Hparticipants. rewrite peerPromise_by_attempt.
  destruct attempt as [err| |err|dataBuffer]; try done.
  destruct (roundNumber <? 10)%N; [|done].
  destruct (validateServerResponse _ _) eqn:Hclass; try done.
  split.
  - intros uuid Huuid. apply truthy_insert. by right.
  - intros uuid [<-|Huuid]%truthy_insert; [|by apply Hparticipants].
    unfold validateServerResponse in Hclass.
    by destruct (peerInTestList t _).
Qed.

(** X22.  In a round numbered ten or more the promise for a peer never
    rejects and never adds to [peersWeSucceededWith], whatever comes of
    the connection; unless the quit signal was raised, the peer's mark
    is deleted. *)
Theorem round_ten_marks_no_success
    t roundNumber peer attempt resolved succeeded :
  (10 <= roundNumber)%N ->
  peerPromise tape_uuid t roundNumber peer attempt resolved succeeded =
  (match attempt with
   | ConnectedAfterQuit => resolved
   | _ => delete (peerIdentifier peer) resolved
   end,
   succeeded, inr tt).
Proof.
  intros Hround. rewrite peerPromise_by_attempt.
  apply N.ltb_ge in Hround. rewrite Hround. by destruct attempt.
Qed.

End Tape.

Lemma listener_same_peers_again_witness :
  let peers :=
    [{| peerIdentifier := "p1"; peerAvailable := true; generation := 0 |};
     {| peerIdentifier := "p2"; peerAvailable := false; generation := 0 |};
     {| peerIdentifier := "p1"; peerAvailable := true; generation := 1 |}]
  in
  verifyPeers "A" TwoPeersExample.peers ∅ = false /\
  listener "A" TwoPeersExample.peers peers
    (fst (listener "A" TwoPeersExample.peers peers ∅ ∅)) ∅ =
  (fst (listener "A" TwoPeersExample.peers peers ∅ ∅), []).
Proof.
  cbv zeta. split; [reflexivity|].
  apply (listener_same_peers_again "A" TwoPeersExample.peers).
  reflexivity.
Defined.

Lemma failed_attempt_is_made_again_witness :
  let peer :=
    {| peerIdentifier := "p1"; peerAvailable := true; generation := 0 |} in
  truthy (({["p1" := true]} : gmap string bool) !! "p1") = true /\
  snd (listener "A" TwoPeersExample.peers [peer]
         (delete "p1" {["p1" := true]}) ∅) = [peer].
Proof.
  cbv zeta. split; [reflexivity|].
  exact (failed_attempt_is_made_again "A" TwoPeersExample.peers 1
           {| peerIdentifier := "p1"; peerAvailable := true;
              generation := 0 |}
           (ConnectFailed "Connection could not be established")
           {["p1" := true]} ∅ eq_refl eq_refl).
Defined.

Lemma peersWeSucceededWith_grows_by_participants_witness :
  let peer :=
    {| peerIdentifier := "p1"; peerAvailable := true; generation := 0 |} in
  let '(resolved', succeeded', result) :=
    peerPromise "A" TwoPeersExample.three 1 peer
      (Responded (Handshake.response "A" "C" TwoPeersExample.three 1 1))
      {["p1" := true]} {["B" := true]} in
  (forall uuid, truthy (({["B" := true]} : gmap string bool) !! uuid) = true
     -> truthy (succeeded' !! uuid) = true) /\
  (forall uuid, truthy (succeeded' !! uuid) = true ->
     peerInTestList TwoPeersExample.three uuid = true).
Proof.
  cbv zeta.
  apply (peersWeSucceededWith_grows_by_participants "A"
           TwoPeersExample.three 1).
  intros uuid. destruct (decide (uuid = "B")) as [->|Hneq].
  - reflexivity.
  - rewrite lookup_singleton_ne by done. discriminate.
Defined.

Lemma round_ten_marks_no_success_witness :
  let peer :=
    {| peerIdentifier := "p1"; peerAvailable := true; generation := 0 |} in
  peerPromise "A" TwoPeersExample.peers 10 peer
    (Responded (Handshake.response "A" "B" TwoPeersExample.peers 1 1))
    {["p1" := true]} ∅ =
  (delete "p1" {["p1" := true]}, ∅, inr tt).
Proof.
  cbv zeta.
  apply (round_ten_marks_no_success "A" TwoPeersExample.peers 10).
  reflexivity.
Defined.

End RoundClientFacts.

(** ** Peer identifiers and their texts *)

Module PeerIdentifierTextFacts.

Import PeerIdentifier PeerIdentifierFacts.

Lemma noColon_app s1 s2 :
  noColon (s1 +:+ s2) = noColon s1 && noColon s2.
Proof.
  induction s1 as [|c s1 IH]; [done|].
  rewrite append_cons. cbn [noColon]. by rewrite IH, andb_assoc.
Qed.

(** The parts that [split] returns are not empty and hold no [":"]. *)
Lemma splitFrom_parts rest : forall subSequence part,
  noColon subSequence = true ->
  In part (splitFrom (Ascii.eqb ":") subSequence rest) ->
  part <> EmptyString /\ noColon part = true.
Proof.
  induction rest as [|c rest IH]; intros subSequence part Hsub Hin.
  - cbn [splitFrom] in Hin. destruct subSequence; [done|].
    destruct Hin as [<-|[]]. done.
  - cbn [splitFrom] in Hin. destruct (Ascii.eqb ":" c) eqn:Hc.
    + destruct subSequence as [|c' sub'].
      * by apply (IH EmptyString).
      * destruct Hin as [<-|Hin]; [done|]. by apply (IH EmptyString).
    + apply (IH (subSequence +:+ String c EmptyString)); [|done].
      rewrite noColon_app, Hsub. cbn [noColon]. by rewrite Hc.
Qed.

Lemma Int_radix16_range text value :
  Int_radix16 text = Some value -> (Int_min <= value <= Int_max)%Z.
Proof.
  unfold Int_radix16.
  destruct (match text with
            | String "-" rest => (rest, true)
            | String "+" rest => (rest, false)
            | _ => (text, false)
            end) as [digits hasMinus].
  destruct (parseUnsigned digits) as [absValue|]; [|done].
  destruct (_ && _) eqn:Hrange; [|done].
  intros [= <-]. apply andb_prop in Hrange as [Hmin Hmax]. lia.
Qed.

(** [Int(String(value, radix: 16), radix: 16)] for every [Int]. *)
Lemma Int_radix16_String_radix16_Int value :
  (Int_min <= value <= Int_max)%Z ->
  Int_radix16 (String_radix16 value) = Some value.
Proof.
  intros Hrange.
  destruct (Z.ltb_spec value 0) as [Hneg|Hpos].
  2: { apply Int_radix16_String_radix16. lia. }
  unfold String_radix16.
  destruct (Z.ltb_spec value 0) as [_|?]; [|lia].
  destruct (toDigits_head 15 (Z.to_N (- value)) EmptyString)
    as (d & rest & Hd & Hhead).
  pose proof (parseDigits_toDigits 16 (Z.to_N (- value)) EmptyString)
    as Hparse.
  unfold Int_radix16. change (Ascii.eqb "-" "-") with true.
  unfold parseUnsigned. rewrite Hhead in *. rewrite Hparse.
  2: { unfold Int_min in Hrange. change (16 ^ N.of_nat 16)%N
         with 18446744073709551616%N. lia. }
  cbn [parseDigits]. rewrite Z2N.id by lia.
  replace (- - value)%Z with value by lia.
  destruct (Z.leb_spec Int_min value); [|lia].
  destruct (Z.leb_spec value Int_max); [|lia]. done.
Qed.

Lemma String_radix16_parts value :
  (Int_min <= value <= Int_max)%Z ->
  String_radix16 value <> EmptyString /\
  noColon (String_radix16 value) = true.
Proof.
  intros Hrange. unfold String_radix16.
  destruct (value <? 0)%Z.
  - split; [done|]. cbn [noColon]. by rewrite toDigits_noColon.
  - destruct (toDigits_head 15 (Z.to_N value) EmptyString)
      as (d & rest & _ & Hhead).
    split; [by rewrite Hhead|]. by apply toDigits_noColon.
Qed.

Lemma init_stringValue_parts stringValue p :
  init_stringValue stringValue = inr p ->
  exists part1,
    split (Ascii.eqb ":") stringValue = [uuid p; part1] /\
    Int_radix16 part1 = Some (generation p).
Proof.
  unfold init_stringValue. cbv zeta.
  destruct (split (Ascii.eqb ":") stringValue)
    as [|part0 [|part1 [|part2 parts]]]; try done.
  cbn. destruct (Int_radix16 part1) as [generation|] eqn:Hint; [|done].
  intros [= <-]. by exists part1.
Qed.

(** X23.  An identifier that [init(stringValue:)] reads has a uuid that is
    not empty and holds no [":"] and a generation that is an [Int], and
    the text it is read from holds a [":"]: a text without one is
    refused. *)
Theorem init_stringValue_well_formed stringValue :
  match init_stringValue stringValue with
  | inr p =>
      uuid p <> EmptyString /\ noColon (uuid p) = true /\
      (Int_min <= generation p <= Int_max)%Z /\
      noColon stringValue = false
  | inl WrongDataFormat => True
  end.
Proof.
  destruct (init_stringValue stringValue) as [[]|p] eqn:Hinit; [done|].
  destruct (init_stringValue_parts _ _ Hinit) as (part1 & Hsplit & Hint).
  destruct (splitFrom_parts stringValue EmptyString (uuid p) eq_refl)
    as [Hne Hcolon].
  { unfold split in Hsplit. rewrite Hsplit. by left. }
  repeat split; try done; try by apply (Int_radix16_range part1).
  destruct (noColon stringValue) eqn:Hno; [|done].
  unfold split in Hsplit.
  rewrite <- (append_nil_r stringValue) in Hsplit.
  rewrite splitFrom_no_colon in Hsplit by done.
  rewrite append_nil_l in Hsplit. cbn in Hsplit. by destruct stringValue.
Qed.

(** X24.  The text of an identifier that [init(stringValue:)] has read is
    read as that identifier again, also for a negative generation: the
    [stringValue] of what was read from a text stands for the same
    identifier as the text. *)
Theorem stringValue_of_read_identifier stringValue p :
  init_stringValue stringValue = inr p ->
  init_stringValue (PeerIdentifier.stringValue p) = inr p.
Proof.
  intros Hinit.
  destruct (init_stringValue_parts _ _ Hinit) as (part1 & Hsplit & Hint).
  destruct (splitFrom_parts stringValue EmptyString (uuid p) eq_refl)
    as [Hne Hcolon].
  { unfold split in Hsplit. rewrite Hsplit. by left. }
  pose proof (Int_radix16_range _ _ Hint) as Hrange.
  destruct (String_radix16_parts _ Hrange) as [Hne' Hcolon'].
  unfold init_stringValue, PeerIdentifier.stringValue.
  rewrite split_two by done. cbn.
  rewrite Int_radix16_String_radix16_Int by done. by destruct p.
Qed.

Lemma stringValue_of_read_identifier_witness :
  init_stringValue "F6C3-01::-0001A" =
    inr {| uuid := "F6C3-01"; generation := -26 |} /\
  init_stringValue
    (PeerIdentifier.stringValue
       {| uuid := "F6C3-01"; generation := -26 |}) =
    inr {| uuid := "F6C3-01"; generation := -26 |}.
Proof.
  split; [reflexivity|].
  apply (stringValue_of_read_identifier "F6C3-01::-0001A"). reflexivity.
Defined.

Lemma splitFrom_separator_at_end rest : forall subSequence,
  splitFrom (Ascii.eqb ":") subSequence (rest +:+ ":") =
  splitFrom (Ascii.eqb ":") subSequence rest.
Proof.
  induction rest as [|c rest IH]; intros subSequence.
  - rewrite append_nil_l. cbn. by destruct subSequence.
  - rewrite append_cons. cbn [splitFrom]. rewrite !IH. done.
Qed.

Lemma splitFrom_separator_twice s1 : forall subSequence s2,
  splitFrom (Ascii.eqb ":") subSequence (s1 +:+ "::" +:+ s2) =
  splitFrom (Ascii.eqb ":") subSequence (s1 +:+ ":" +:+ s2).
Proof.
  induction s1 as [|c s1 IH]; intros subSequence s2.
  - rewrite !append_nil_l, !append_cons, !append_nil_l. cbn.
    by destruct subSequence.
  - rewrite (append_cons c s1 ("::" +:+ s2)),
      (append_cons c s1 (":" +:+ s2)).
    cbn [splitFrom]. rewrite !IH. done.
Qed.

(** X25.  [init(stringValue:)] passes over a [":"] that has nothing before
    it, nothing after it or another [":"] next to it: with such a [":"]
    added, a text is read as the same identifier or refused as before. *)
Theorem init_stringValue_ignores_empty_parts s1 s2 :
  init_stringValue (":" +:+ s1) = init_stringValue s1 /\
  init_stringValue (s1 +:+ ":") = init_stringValue s1 /\
  init_stringValue (s1 +:+ "::" +:+ s2) =
    init_stringValue (s1 +:+ ":" +:+ s2).
Proof.
  unfold init_stringValue, split. cbv zeta.
  rewrite splitFrom_separator_at_end, splitFrom_separator_twice.
  done.
Qed.

End PeerIdentifierTextFacts.

(** ** Socket events and data shifting *)

Module ConnectionEventsFacts.

Import ConnectionEvents.

Lemma handleAll_snoc events event :
  handleAll (events ++ [event]) = handle (handleAll events) event.
Proof. unfold handleAll. by rewrite fold_left_app. Qed.

(** What the variables say after any events, and after events of which no
    assertion has failed. *)
Lemma handleAll_flags events :
  let flags := handleAll events in
  (errorFired flags = true <-> In SocketError events) /\
  (closedFired flags = true <-> In SocketClose events) /\
  (endFired flags = true -> In SocketEnd events) /\
  (failed flags = [] -> In SocketEnd events -> endFired flags = true).
Proof.
  induction events as [|event events IH] using rev_ind.
  - cbn. repeat split; try done.
  - cbv zeta in *. rewrite handleAll_snoc.
    destruct IH as (Herror & Hclosed & Hend & Hend').
    destruct (handleAll events) as [errorFired endFired closedFired failed].
    cbn [ConnectionEvents.errorFired ConnectionEvents.endFired
         ConnectionEvents.closedFired ConnectionEvents.failed] in *.
    setoid_rewrite in_app_iff. cbn [In].
    destruct event, errorFired, endFired, closedFired; cbn;
      repeat split; intros; try done; try tauto;
      try (by destruct failed);
      try (exfalso; intuition congruence);
      try (intuition congruence).
Qed.

(** X26.  Of the events ['error'], ['end'] and ['close'] of a connection
    that [connectionDiesClean] watches, no assertion fails exactly when
    each of the three events comes at most once and no ['end'] comes after
    an ['error']. *)
Theorem connectionDiesClean_accepts events :
  failed (handleAll events) = [] <->
  List.NoDup events /\
  forall i j, events !! i = Some SocketError ->
    events !! j = Some SocketEnd -> j < i.
Proof.
  induction events as [|event events IH] using rev_ind.
  - cbn. split; [|done]. intros _. split; [constructor|]. by intros [] [].
  - rewrite handleAll_snoc.
    pose proof (handleAll_flags events) as
      (Herror & Hclosed & Hend & Hend').
    assert (Hnodup : List.NoDup (events ++ [event]) <->
                     List.NoDup events /\ ~ In event events).
    { rewrite <- !NoDup_ListNoDup, NoDup_app, <- list_elem_of_In.
      split.
      - intros (? & Hnot & _). split; [done|]. intros Hin.
        apply (Hnot _ Hin). by left.
      - intros (? & Hnot). split; [done|]. split.
        + intros x Hx Hx'. apply list_elem_of_singleton in Hx'.
          by subst.
        + apply NoDup_singleton. }
    assert (Horder :
      (forall i j, (events ++ [event]) !! i = Some SocketError ->
         (events ++ [event]) !! j = Some SocketEnd -> j < i) <->
      (forall i j, events !! i = Some SocketError ->
         events !! j = Some SocketEnd -> j < i) /\
      (event = SocketEnd -> ~ In SocketError events)).
    { setoid_rewrite lookup_snoc_Some. split.
      - intros Hall. split.
        + intros i j Hi Hj. apply Hall; left.
          * split; [by eapply lookup_lt_Some|done].
          * split; [by eapply lookup_lt_Some|done].
        + intros -> [i Hi]%list_elem_of_In%list_elem_of_lookup.
          pose proof (lookup_lt_Some _ _ _ Hi) as Hlt.
          assert (length events < i); [|lia].
          apply Hall; [left|right]; done.
      - intros [Hall Hlast] i j [[Hi Hi']|[-> Hi']] [[Hj Hj']|[-> Hj']].
        + by apply Hall.
        + exfalso. apply (Hlast Hj').
          apply list_elem_of_In, list_elem_of_lookup. by exists i.
        + done.
        + congruence. }
    rewrite Hnodup, Horder.
    destruct (handleAll events) as [errorFired endFired closedFired failed]
      eqn:Hflags.
    cbn [ConnectionEvents.errorFired ConnectionEvents.endFired
         ConnectionEvents.closedFired ConnectionEvents.failed] in *.
    assert (Hsnoc : forall message, failed ++ [message] <> [])
      by (intros message; by destruct failed).
    destruct event; cbn [handle ConnectionEvents.errorFired
      ConnectionEvents.endFired ConnectionEvents.closedFired
      ConnectionEvents.failed fail].
    + destruct errorFired; cbn.
      * split; [by intros ?%Hsnoc|]. intros ((_ & Hnot) & _).
        exfalso. apply Hnot. by apply Herror.
      * rewrite IH. split.
        -- intros (? & ?). repeat split; try done.
           intros Hin. apply Herror in Hin. done.
        -- by intros ((? & _) & (? & _)).
    + destruct endFired; cbn.
      * split; [by intros ?%Hsnoc|]. intros ((_ & Hnot) & _).
        exfalso. apply Hnot. by apply Hend.
      * destruct errorFired; cbn.
        -- split; [by intros ?%Hsnoc|]. intros (_ & _ & Hnot).
           exfalso. apply Hnot; [done|]. by apply Herror.
        -- rewrite IH. split.
           ++ intros (Hnd & Hord). repeat split; try done.
              ** intros Hin. assert (failed = []) as Hfailed
                   by (apply IH; done).
                 by specialize (Hend' Hfailed Hin).
              ** intros _ Hin. apply Herror in Hin. done.
           ++ by intros ((? & _) & (? & _)).
    + destruct closedFired; cbn.
      * split; [by intros ?%Hsnoc|]. intros ((_ & Hnot) & _).
        exfalso. apply Hnot. by apply Hclosed.
      * rewrite IH. split.
        -- intros (? & ?). repeat split; try done.
           intros Hin. apply Hclosed in Hin. done.
        -- by intros ((? & _) & (? & _)).
Qed.

End ConnectionEventsFacts.

Module ShiftDataFacts.

Import ShiftData.

Lemma string_of_list_byte_app l1 l2 :
  string_of_list_byte (l1 ++ l2) =
  string_of_list_byte l1 +:+ string_of_list_byte l2.
Proof.
  induction l1 as [|b l1 IH]; [done|].
  change (String (ascii_of_byte b) (string_of_list_byte (l1 ++ l2)) =
          String (ascii_of_byte b)
            (string_of_list_byte l1 +:+ string_of_list_byte l2)).
  by rewrite IH.
Qed.

Lemma length_string_of_list_byte l :
  String.length (string_of_list_byte l) = length l.
Proof.
  induction l as [|b l IH]; [done|].
  change (S (String.length (string_of_list_byte l)) = S (length l)).
  by rewrite IH.
Qed.

Lemma dataSize_positive : 0 < dataSize.
Proof. unfold dataSize. lia. Qed.

#[local] Opaque dataSize.

Lemma receive_snoc toSend chunks data :
  receive toSend (chunks ++ [data]) =
  onData toSend (receive toSend chunks) data.
Proof. unfold receive. by rewrite fold_left_app. Qed.

(** The handler takes the first [remaining] bytes and leaves the rest. *)
Lemma onData_split toSend st data :
  let remaining := dataSize - String.length (toRecv st) in
  let toRecv' :=
    toRecv st +:+ string_of_list_byte (firstn remaining data) in
  let data' := skipn remaining data in
  onData toSend st data =
  if Nat.eqb (String.length toRecv') dataSize then
    {| toRecv := toRecv';
       done := true;
       checked :=
         if done st then checked st
         else checked st ++ [String.eqb toSend toRecv'];
       written :=
         match data' with
         | [] => written st
         | _ => written st ++ [data']
         end |}
  else
    {| toRecv := toRecv'; done := done st; checked := checked st;
       written := written st |}.
Proof.
  cbv zeta. unfold onData. cbv zeta.
  destruct (Nat.leb_spec (length data)
              (dataSize - String.length (toRecv st))) as [Hle|Hgt].
  - rewrite (firstn_all2 _ Hle), (skipn_all2 _ Hle).
    cbn [firstn length Nat.eqb negb].
    destruct (Nat.eqb _ dataSize); [|done]. by destruct (done st).
  - destruct (Nat.eqb _ dataSize); [|done].
    assert (Hlen : length (skipn (dataSize - String.length (toRecv st)) data)
                   <> 0) by (rewrite length_skipn; lia).
    destruct (skipn _ data) as [|b rest]; [done|]. cbn.
    by destruct (done st).
Qed.

(** X27.  Whatever the chunks in which the data arrives, [shiftData] has
    in [toRecv] the first [dataSize] bytes of the data; it calls [t.ok]
    and [t.end] once, when the byte number [dataSize] has arrived, with
    the comparison of these bytes with [toSend]; and it writes back,
    after [toSend], the bytes that arrived beyond [dataSize], in their
    order and never as an empty buffer. *)
Theorem shiftData_reassembles toSend chunks :
  let st := receive toSend chunks in
  let stream := concat chunks in
  toRecv st = string_of_list_byte (firstn dataSize stream) /\
  done st = (dataSize <=? length stream)%nat /\
  checked st =
    (if (dataSize <=? length stream)%nat
     then [String.eqb toSend (string_of_list_byte (firstn dataSize stream))]
     else []) /\
  (exists surplus,
     written st = list_byte_of_string toSend :: surplus /\
     concat surplus = skipn dataSize stream /\
     Forall (fun data => data <> []) surplus).
Proof.
  cbv zeta. induction chunks as [|data chunks IH] using rev_ind.
  - cbn. pose proof dataSize_positive.
    destruct (Nat.leb_spec dataSize 0); [lia|].
    rewrite firstn_nil, skipn_nil. repeat split. by exists [].
  - destruct IH as (HtoRecv & Hdone & Hchecked & surplus & Hwritten
                    & Hsurplus & Hnonempty).
    rewrite receive_snoc, onData_split. cbv zeta.
    rewrite concat_app. cbn [concat]. rewrite app_nil_r.
    set (stream := concat chunks) in *.
    assert (Hremaining :
      dataSize - String.length (toRecv (receive toSend chunks)) =
      dataSize - length stream).
    { rewrite HtoRecv, length_string_of_list_byte, length_firstn. lia. }
    rewrite Hremaining.
    assert (HtoRecv' :
      toRecv (receive toSend chunks)
        +:+ string_of_list_byte (firstn (dataSize - length stream) data) =
      string_of_list_byte (firstn dataSize (stream ++ data))).
    { by rewrite HtoRecv, <- string_of_list_byte_app, firstn_app. }
    rewrite HtoRecv'.
    assert (Hskip :
      skipn dataSize (stream ++ data) =
      skipn dataSize stream ++ skipn (dataSize - length stream) data)
      by apply skipn_app.
    rewrite length_string_of_list_byte, length_firstn, length_app.
    destruct (Nat.eqb_spec (Nat.min dataSize (length stream + length data))
                dataSize) as [Hfull|Hshort].
    + cbn [toRecv done checked written].
      destruct (Nat.leb_spec dataSize (length stream + length data));
        [|lia].
      split; [done|]. split; [done|]. split.
      * rewrite Hdone, Hchecked.
        destruct (Nat.leb_spec dataSize (length stream)) as [Hle|Hlt];
          [|done].
        by rewrite firstn_app, (proj2 (Nat.sub_0_le _ _) Hle), firstn_O,
          app_nil_r.
      * destruct (skipn (dataSize - length stream) data) as [|b rest]
          eqn:Hrest.
        -- exists surplus. rewrite Hskip, app_nil_r. done.
        -- exists (surplus ++ [b :: rest]). rewrite Hwritten. split; [done|].
           split.
           ++ rewrite concat_app, Hsurplus, Hskip. cbn. by rewrite app_nil_r.
           ++ apply Forall_app. split; [done|]. by constructor.
    + cbn [toRecv done checked written].
      destruct (Nat.leb_spec dataSize (length stream + length data));
        [lia|].
      destruct (Nat.leb_spec dataSize (length stream)); [lia|].
      split; [done|]. split; [done|]. split; [done|].
      exists surplus. split; [done|]. split; [|done].
      rewrite Hskip, Hsurplus.
      rewrite (skipn_all2 data) by lia. by rewrite app_nil_r.
Qed.

End ShiftDataFacts.

(** ** Helpers of the notification test *)

Module NotificationTestFacts.

Import NotificationTest.

Lemma forEach_counts (dictionary : Dictionary) keys : forall counter,
  forEach keys
    (fun key counter =>
       if negb (isZero (dictionary !! key)) then (tt, S counter)
       else (tt, counter))
    counter =
  counter
  + length (List.filter (fun key => negb (isZero (dictionary !! key))) keys).
Proof.
  unfold forEach.
  induction keys as [|key keys IH]; intros counter; cbn [fold_left].
  - cbn. lia.
  - rewrite IH. cbn [List.filter].
    destruct (negb (isZero (dictionary !! key))); cbn [snd length]; lia.
Qed.

Lemma length_keys (dictionary : Dictionary) :
  length (keys dictionary) = size dictionary.
Proof.
  unfold keys, Dictionary in *. rewrite length_fmap.
  apply (length_map_to_list (M := gmap string)).
Qed.

Lemma In_keys (dictionary : Dictionary) key :
  In key (keys dictionary) <-> is_Some (dictionary !! key).
Proof.
  unfold keys. rewrite <- list_elem_of_In, list_elem_of_fmap. split.
  - intros ([key' entry] & -> & Hin).
    apply elem_of_map_to_list in Hin. by exists entry.
  - intros [entry Hentry]. exists (key, entry). split; [done|].
    by apply elem_of_map_to_list.
Qed.

(** X28.  [countNonZeroItems] is at most the number of entries of the
    dictionary, and it is that number exactly when no entry is 0;
    [allDictionaryItemsNonZero] returns true for every dictionary, with
    an entry 0 or without. *)
Theorem countNonZeroItems_counts (dictionary : Dictionary) :
  countNonZeroItems dictionary <= size dictionary /\
  (countNonZeroItems dictionary = size dictionary <->
   forall key, dictionary !! key <> Some (Num 0)) /\
  allDictionaryItemsNonZero dictionary = true.
Proof.
  unfold countNonZeroItems. cbv zeta.
  rewrite forEach_counts, <- length_keys. cbn [Nat.add].
  split; [apply filter_length_le|]. split; [|done].
  split.
  - intros Hall%filter_length_forallb key Hkey.
    rewrite forallb_forall in Hall.
    specialize (Hall key). rewrite Hkey in Hall. cbn in Hall.
    assert (Hin : In key (keys dictionary))
      by (apply In_keys; by rewrite Hkey).
    by specialize (Hall Hin).
  - intros Hnone. rewrite forallb_filter_id; [done|].
    apply forallb_forall. intros key _.
    specialize (Hnone key).
    destruct (dictionary !! key) as [[n|]|]; try done. cbn.
    destruct (Z.eqb_spec n 0) as [->|]; done.
Qed.

Lemma initiateHttpsRequestToPeer_from publicKeyHash outcomes :
  forall requestNumber st,
  (1 <= requestNumber <= 4)%Z ->
  let left := Z.to_nat (4 - requestNumber) in
  let st' :=
    initiateHttpsRequestToPeer publicKeyHash outcomes requestNumber st in
  requests st' = requests st + Nat.min left (S (failedFirst outcomes)) /\
  length (warnings st') =
    length (warnings st) + Nat.min left (failedFirst outcomes) /\
  peerRepliedToUs st' =
    if (failedFirst outcomes <? left)%nat
       && match nth_error outcomes (failedFirst outcomes) with
          | Some (ResponseEnd textChunk) => String.eqb textChunk HELLO
          | _ => false
          end
    then increment publicKeyHash (peerRepliedToUs st)
    else peerRepliedToUs st.
Proof.
  induction outcomes as [|outcome outcomes IH]; intros requestNumber st Hn;
    cbv zeta; cbn [initiateHttpsRequestToPeer].
  - destruct (Z.gtb_spec requestNumber 3) as [Hgt|Hle].
    + replace requestNumber with 4%Z by lia. cbn. rewrite andb_false_r.
      repeat split; lia.
    + cbn [requests warnings peerRepliedToUs failedFirst nth_error].
      rewrite andb_false_r. repeat split; lia.
  - destruct (Z.gtb_spec requestNumber 3) as [Hgt|Hle].
    + replace requestNumber with 4%Z by lia.
      change (Z.to_nat (4 - 4)) with 0. cbn [Nat.min Nat.ltb Nat.leb andb].
      unfold Nat.ltb. cbn [Nat.leb andb]. repeat split; lia.
    + destruct outcome as [message|textChunk].
      * specialize (IH (requestNumber + 1)%Z
          {| requests := S (requests st);
             peerRepliedToUs := peerRepliedToUs st;
             warnings := warnings st ++ [message] |}).
        cbv zeta in IH. destruct IH as (Hrequests & Hwarnings & Hreplied);
          [lia|].
        cbn [requests warnings peerRepliedToUs].
        rewrite Hrequests, Hwarnings, Hreplied.
        cbn [requests warnings peerRepliedToUs failedFirst nth_error].
        rewrite length_app. cbn [length].
        replace (Z.to_nat (4 - requestNumber))
          with (S (Z.to_nat (4 - (requestNumber + 1)))) by lia.
        change (S (failedFirst outcomes) <? S ?n)%nat
          with (failedFirst outcomes <? n)%nat.
        repeat split; lia.
      * cbn [failedFirst nth_error].
        assert (Hleft : (0 <? Z.to_nat (4 - requestNumber))%nat = true)
          by (apply Nat.ltb_lt; lia).
        rewrite Hleft. cbn [andb].
        destruct (String.eqb textChunk HELLO);
          cbn [requests warnings peerRepliedToUs];
          repeat split; lia.
Qed.

(** X29.  [initiateHttpsRequestToPeer(peerDetails, 1)] makes one request
    and one more after each failed request, three at the most; it logs a
    warning for each failed one of them; and it increments the peer's
    entry of [peerRepliedToUs] once, when the first request that does not
    fail is one of the three and its response is ['Hello world'], and
    leaves the dictionary as it is otherwise. *)
Theorem initiateHttpsRequestToPeer_tries_three_times
    publicKeyHash outcomes st :
  let st' := initiateHttpsRequestToPeer publicKeyHash outcomes 1 st in
  requests st' = requests st + Nat.min 3 (S (failedFirst outcomes)) /\
  length (warnings st') =
    length (warnings st) + Nat.min 3 (failedFirst outcomes) /\
  peerRepliedToUs st' =
    if (failedFirst outcomes <? 3)%nat
       && match nth_error outcomes (failedFirst outcomes) with
          | Some (ResponseEnd textChunk) => String.eqb textChunk HELLO
          | _ => false
          end
    then increment publicKeyHash (peerRepliedToUs st)
    else peerRepliedToUs st.
Proof.
  apply (initiateHttpsRequestToPeer_from publicKeyHash outcomes 1 st).
  lia.
Qed.

End NotificationTestFacts.

(** ** The radios check *)

Module ThaliTestRunnerFacts.

Import ThaliTestRunner.

(** A radio is seen enabled at the test numbered [k] from [poll], no radio
    and no interrupt before. *)
Lemma checkRadios_from fuel device : forall poll counter sleeping,
  (0 <= counter <= counterLimit)%Z ->
  (counterLimit - counter < Z.of_nat fuel)%Z ->
  exists called,
    checkRadios fuel device poll counter sleeping = Some called /\
    (sleeping <= slept called
       <= sleeping + timeoutLimit * (counterLimit - counter))%Z /\
    (returned called = true <->
     exists k,
       (counter + Z.of_nat k < counterLimit)%Z /\
       slept called = (sleeping + timeoutLimit * Z.of_nat k)%Z /\
       btEnabled (device (poll + k)) || wifiEnabled (device (poll + k))
         = true /\
       forall j, j < k ->
         btEnabled (device (poll + j)) = false /\
         wifiEnabled (device (poll + j)) = false /\
         interrupted (device (poll + j)) = false).
Proof.
  unfold counterLimit, timeoutLimit.
  induction fuel as [|fuel IH]; intros poll counter sleeping Hcounter Hfuel;
    [lia|].
  cbn [checkRadios]. unfold counterLimit, timeoutLimit.
  destruct (btEnabled (device poll)) eqn:Hbt;
    [|destruct (wifiEnabled (device poll)) eqn:Hwifi];
    cbn [negb andb].
  1, 2: eexists; split; [done|]; cbn [returned slept]; split; [lia|];
    destruct (Z.geb_spec counter 10) as [Hge|Hlt]; cbn [negb];
    [ split; [done|];
      intros (k & Hk & _); lia
    | split; [|done]; intros _; exists 0;
      rewrite Nat.add_0_r, Hbt, ?Hwifi;
      repeat split; try done; try lia ].
  destruct (Z.ltb_spec counter 10) as [Hlt|Hge].
  - destruct (interrupted (device poll)) eqn:Hinterrupted.
    + eexists. split; [done|]. cbn [returned slept]. split; [lia|].
      split; [done|]. intros (k & Hk & _ & Hon & Hbefore).
      destruct k as [|k].
      * rewrite Nat.add_0_r, Hbt, Hwifi in Hon. done.
      * destruct (Hbefore 0 ltac:(lia)) as (_ & _ & Hint).
        rewrite Nat.add_0_r in Hint. congruence.
    + destruct (IH (S poll) (counter + 1)%Z (sleeping + 500)%Z
                  ltac:(lia) ltac:(lia))
        as (called & -> & Hslept & Hreturned).
      exists called. split; [done|]. split; [lia|].
      rewrite Hreturned. split.
      * intros (k & Hk & Hsleep & Hon & Hbefore). exists (S k).
        split; [lia|]. split; [lia|].
        rewrite <- Nat.add_succ_comm. split; [done|].
        intros [|j] Hj.
        -- by rewrite Nat.add_0_r.
        -- rewrite <- Nat.add_succ_comm. apply Hbefore. lia.
      * intros (k & Hk & Hsleep & Hon & Hbefore).
        destruct k as [|k].
        { rewrite Nat.add_0_r, Hbt, Hwifi in Hon. done. }
        exists k. split; [lia|]. split; [lia|].
        rewrite Nat.add_succ_comm. split; [done|].
        intros j Hj. rewrite Nat.add_succ_comm. apply Hbefore. lia.
  - eexists. split; [done|]. cbn [returned slept]. split; [lia|].
    destruct (Z.geb_spec counter 10) as [_|?]; [|lia]. cbn [negb].
    split; [done|]. intros (k & Hk & _). lia.
Qed.

(** X30.  [call()] of [createCheckRadiosThread()] returns, after at most
    ten sleeps of 500 milliseconds.  It returns true exactly when one of
    the two radios, Bluetooth or Wi-Fi, is seen enabled at one of the
    first ten tests of the loop, no sleep before it having been
    interrupted; a radio that is enabled only at the eleventh test, after
    the tenth sleep, gives false. *)
Theorem call_returns_true_for_one_radio fuel device :
  11 <= fuel ->
  exists called,
    call fuel device = Some called /\
    (0 <= slept called <= 5000)%Z /\
    (returned called = true <->
     exists k,
       k < 10 /\
       slept called = (500 * Z.of_nat k)%Z /\
       btEnabled (device k) || wifiEnabled (device k) = true /\
       forall j, j < k ->
         btEnabled (device j) = false /\
         wifiEnabled (device j) = false /\
         interrupted (device j) = false).
Proof.
  intros Hfuel.
  destruct (checkRadios_from fuel device 0 0 0)
    as (called & Hcall & Hslept & Hreturned).
  { unfold counterLimit. lia. }
  { unfold counterLimit. lia. }
  exists called. split; [done|].
  unfold counterLimit, timeoutLimit in *. split; [lia|].
  rewrite Hreturned. split.
  - intros (k & Hk & Hsleep & Hon & Hbefore). exists k.
    split; [lia|]. split; [lia|]. done.
  - intros (k & Hk & Hsleep & Hon & Hbefore). exists k.
    split; [lia|]. split; [lia|]. done.
Qed.

Lemma call_returns_true_for_one_radio_witness :
  let device k :=
    {| btEnabled := false; wifiEnabled := Nat.leb 2 k;
       interrupted := false |} in
  call 11 device = Some {| returned := true; slept := 1000 |} /\
  exists called,
    call 11 device = Some called /\
    (0 <= slept called <= 5000)%Z /\
    (returned called = true <->
     exists k,
       k < 10 /\
       slept called = (500 * Z.of_nat k)%Z /\
       btEnabled (device k) || wifiEnabled (device k) = true /\
       forall j, j < k ->
         btEnabled (device j) = false /\
         wifiEnabled (device j) = false /\
         interrupted (device j) = false).
Proof.
  cbv zeta. split; [reflexivity|].
  apply (call_returns_true_for_one_radio 11). lia.
Defined.

End ThaliTestRunnerFacts.
